(** * MCDM engine of SESP_Model: AHP, TOPSIS and DEA

    A shallow embedding of [SESP_Model/src/mcdm/mcdm_utils.py] and the
    properties its specification states about it.

    Conventions of the embedding.
    - A Python/numpy [float64] is a real number ([R]): arithmetic is exact,
      comparisons are the mathematical ones.  Rounding is not modelled.
    - A 2-D [np.ndarray] is the list of its rows; a 1-D array is a list.
      An array with no rows is the empty list and has no columns.
    - A Python exception is [None] in the [option] monad.  Arithmetic on
      numpy values does not raise (numpy answers [inf] or [nan] where the
      reals have no answer; the theorems stay away from those points).
    - Library routines the module calls but does not define
      ([np.linalg.eig], [np.argsort], [scipy.optimize.linprog], float
      formatting) are parameters of the functions that call them; their
      documented contracts appear as hypotheses of the theorems that need
      them. *)

From Stdlib Require Floats.SpecFloat Floats.FloatOps Uint63.
From Stdlib Require Import Floats.PrimFloat.
From Stdlib Require Import Reals Lra Lia ZArith String Ascii Permutation Sorted.
From stdpp Require Import base decidable option list gmap strings pretty.

Open Scope R_scope.

(* ================================================================== *)
(** * Numbers and arrays *)
(* ================================================================== *)

#[global] Instance Rlt_decision : RelDecision Rlt := Rlt_dec.
#[global] Instance Rle_decision : RelDecision Rle := Rle_dec.
#[global] Instance Rgt_decision : RelDecision Rgt := Rgt_dec.
#[global] Instance Req_decision : EqDecision R := Req_dec_T.

(** A 1-D array of floats and a 2-D array of floats (row major). *)
Abbreviation vector := (list R) (only parsing).
Abbreviation matrix := (list (list R)) (only parsing).

(** [shape[0]] and [shape[1]]; a 2-D array is rectangular. *)
Definition nrows (M : matrix) : nat := length M.
Definition ncols (M : matrix) : nat := length (hd [] M).
Definition rectangular (c : nat) (M : matrix) : Prop :=
  Forall (fun row => length row = c) M.

(** [np.sum] of a 1-D array. *)
Definition np_sum (v : vector) : R := foldr Rplus 0 v.

(** The dot product of two 1-D arrays and the product of a 2-D array with
    a 1-D array. *)
Definition dot (a v : vector) : R := np_sum (zip_with Rmult a v).
Definition mat_vec (A : matrix) (v : vector) : vector :=
  (fun row => dot row v) <$> A.

(** Entry [(a, b)] by natural-number position. *)
Definition entry (M : matrix) (a b : nat) : option R :=
  row ← M !! a; row !! b.

(** [M[:, j]]: column [j] of a 2-D array. *)
Definition column {A} (M : list (list A)) (j : nat) : option (list A) :=
  mapM (fun row : list A => row !! j) M.

(** Python subscripting with an [int]: a negative index counts from the
    end, an index outside [-len, len) raises [IndexError]. *)
Definition py_index (len : nat) (i : Z) : option nat :=
  if bool_decide (0 <= i < Z.of_nat len)%Z then Some (Z.to_nat i)
  else if bool_decide (- Z.of_nat len <= i < 0)%Z
       then Some (Z.to_nat (i + Z.of_nat len))
       else None.

(** [M[i, j]] and [M[i, j] = v] on a 2-D array. *)
Definition mat_get (M : matrix) (i j : Z) : option R :=
  a ← py_index (nrows M) i;
  row ← M !! a;
  b ← py_index (length row) j;
  row !! b.

Definition mat_set (M : matrix) (i j : Z) (v : R) : option matrix :=
  a ← py_index (nrows M) i;
  row ← M !! a;
  b ← py_index (length row) j;
  Some (<[a := <[b := v]> row]> M).

(** [np.ones((n, n))]; a negative dimension raises [ValueError]. *)
Definition np_ones (n : Z) : option matrix :=
  if bool_decide (n < 0)%Z then None
  else Some (replicate (Z.to_nat n) (replicate (Z.to_nat n) 1)).

(** [a / b] on Python scalars: [ZeroDivisionError] when [b] is zero. *)
Definition py_div (a b : R) : option R :=
  if bool_decide (b = 0) then None else Some (a / b).

(** A [for] loop whose body may raise: the state is threaded through the
    items in order and the first exception ends the loop. *)
Fixpoint for_each {S A : Type} (body : S -> A -> option S) (s : S)
    (items : list A) : option S :=
  match items with
  | [] => Some s
  | x :: rest => s' ← body s x; for_each body s' rest
  end.

(* ================================================================== *)
(** * AHP *)
(* ================================================================== *)

(** One iteration of the loop of [create_comparison_matrix]. *)
Definition comparison_step (M : matrix) (item : (Z * Z) * R) : option matrix :=
  let '((i, j), value) := item in
  if bool_decide (i < j)%Z then
    M1 ← mat_set M i j value;
    r ← py_div 1 value;
    mat_set M1 j i r
  else if bool_decide (i > j)%Z then
    M1 ← mat_set M i j value;
    r ← py_div 1 value;
    mat_set M1 j i r
  else Some M.

(** [create_comparison_matrix(comparisons, n)].  The dict is the list of
    its items in iteration (insertion) order; its keys are distinct. *)
Definition create_comparison_matrix (comparisons : list ((Z * Z) * R)) (n : Z)
    : option matrix :=
  M0 ← np_ones n;
  for_each comparison_step M0 comparisons.

(** [np.argmax] of a 1-D array: the first position that holds the
    maximum; [ValueError] on an empty array. *)
Fixpoint argmax_from (best : R) (best_idx idx : nat) (v : vector) : nat :=
  match v with
  | [] => best_idx
  | x :: rest =>
      if bool_decide (best < x) then argmax_from x idx (S idx) rest
      else argmax_from best best_idx (S idx) rest
  end.

Definition np_argmax (v : vector) : option nat :=
  match v with
  | [] => None
  | x :: rest => Some (argmax_from x 0 1 rest)
  end.

(** Element-wise arithmetic on two 1-D arrays under numpy broadcasting:
    equal lengths pair up, a length-1 array is stretched, any other pair of
    lengths raises [ValueError]. *)
Definition np_binop (f : R -> R -> R) (u v : vector) : option vector :=
  if bool_decide (length u = length v) then Some (zip_with f u v)
  else match u, v with
       | [x], _ => Some (f x <$> v)
       | _, [y] => Some ((fun x => f x y) <$> u)
       | _, _ => None
       end.

(** A numpy [complex128]; [.real] is [re]. *)
Record complex := Complex { re : R; im : R }.

(** What [np.linalg.eig] returns: the eigenvalues and the matrix whose
    column [k] is the eigenvector that belongs to eigenvalue [k]. *)
Definition eig_result : Type := list complex * list (list complex).

(** Random Index (Saaty, 1980), by matrix size. *)
Definition RANDOM_INDEX : gmap nat R :=
  list_to_map
    [ (1%nat, 0.00); (2%nat, 0.00); (3%nat, 0.58); (4%nat, 0.90);
      (5%nat, 1.12); (6%nat, 1.24); (7%nat, 1.32); (8%nat, 1.41);
      (9%nat, 1.45); (10%nat, 1.49) ].

(** The dict [ahp_consistency_ratio] returns. *)
Record consistency_result := {
  cr_weights : vector;
  cr_lambda_max : R;
  cr_ci : R;
  cr_ri : R;
  cr_cr : R;
  cr_is_consistent : bool;
  cr_message : string
}.

(** One entry of [results['variations']] in [ahp_sensitivity_analysis]. *)
Record variation := {
  var_new_value : R;
  var_weights : vector;
  var_weight_change : vector;
  var_cr : R;
  var_is_consistent : bool
}.

(** The dict [ahp_sensitivity_analysis] returns. *)
Record sensitivity_result := {
  base_weights : vector;
  variations : gmap string variation
}.

(** ** Arrays as shared mutable objects

    [ahp_sensitivity_analysis] receives a reference to the caller's array
    and writes into arrays.  The heap maps a reference to the contents of
    the array it names; a computation threads the heap and may raise, and
    the writes done before an exception stay done. *)
Abbreviation heap := (gmap nat (list (list R))).

Definition Py (A : Type) : Type := heap -> heap * option A.

Definition py_ret {A} (a : A) : Py A := fun h => (h, Some a).

Definition py_bind {A B} (m : Py A) (k : A -> Py B) : Py B :=
  fun h => match m h with
           | (h', Some a) => k a h'
           | (h', None) => (h', None)
           end.

(** A pure step that may raise. *)
Definition py_lift {A} (o : option A) : Py A := fun h => (h, o).

#[global] Instance Py_ret : MRet Py := @py_ret.
#[global] Instance Py_bind : MBind Py := fun A B k m => py_bind m k.

(** [a.copy()]: a new array with the same contents. *)
Definition np_copy (a : nat) : Py nat :=
  fun h => match h !! a with
           | Some contents =>
               let a' := fresh (dom h) in (<[a' := contents]> h, Some a')
           | None => (h, None)
           end.

(** [a[i, j]], [a[i, j] = v], and handing the array to a function that
    only reads it. *)
Definition arr_get (a : nat) (i j : Z) : Py R :=
  fun h => (h, contents ← h !! a; mat_get contents i j).

Definition arr_set (a : nat) (i j : Z) (v : R) : Py unit :=
  fun h => match contents ← h !! a; mat_set contents i j v with
           | Some contents' => (<[a := contents']> h, Some ())
           | None => (h, None)
           end.

Definition arr_read (a : nat) : Py (list (list R)) :=
  fun h => (h, h !! a).

(** A [for] loop in [Py]. *)
Fixpoint py_for {S A : Type} (body : S -> A -> Py S) (s : S) (items : list A)
    : Py S :=
  match items with
  | [] => py_ret s
  | x :: rest => s' ← body s x; py_for body s' rest
  end.

Section AHP.

(** [np.linalg.eig]; it raises [LinAlgError] on an array it rejects. *)
Variable eig : list (list R) -> option eig_result.

(** The format specs [:.4f] and [:.2f] of the f-strings. *)
Variable format_4f : R -> string.
Variable format_2f : R -> string.

(** [ahp_weights(comparison_matrix)].  Division of a numpy array by a
    numpy scalar does not raise. *)
Definition ahp_weights (comparison_matrix : matrix)
    : option (vector * R * R) :=
  let n := nrows comparison_matrix in
  '(eigenvalues, eigenvectors) ← eig comparison_matrix;
  max_idx ← np_argmax (re <$> eigenvalues);
  lambda ← eigenvalues !! max_idx;
  let lambda_max := re lambda in
  col ← column eigenvectors max_idx;
  let principal_eigenvector := re <$> col in
  let total := np_sum principal_eigenvector in
  let weights := (fun x => x / total) <$> principal_eigenvector in
  let weights :=
    if existsb (fun w => bool_decide (w < 0)) weights
    then Ropp <$> weights else weights in
  let ci := if bool_decide (1 < n)%nat
            then (lambda_max - INR n) / (INR n - 1) else 0 in
  Some (weights, lambda_max, ci).

(** [ahp_consistency_ratio(comparison_matrix)]. *)
Definition ahp_consistency_ratio (comparison_matrix : matrix)
    : option consistency_result :=
  let n := nrows comparison_matrix in
  '(weights, lambda_max, ci) ← ahp_weights comparison_matrix;
  let ri := default 1.49 (RANDOM_INDEX !! n) in
  let cr := if bool_decide (ri > 0) then ci / ri else 0 in
  let is_consistent := bool_decide (cr < 0.10) in
  let message :=
    if is_consistent
    then ("Consistent (CR=" +:+ format_4f cr +:+ " < 0.10)")%string
    else ("INCONSISTENT! CR=" +:+ format_4f cr
          +:+ " >= 0.10. Revise judgments.")%string in
  Some {| cr_weights := weights; cr_lambda_max := lambda_max; cr_ci := ci;
          cr_ri := ri; cr_cr := cr; cr_is_consistent := is_consistent;
          cr_message := message |}.

(** The key [f"({i},{j})_x{factor:.2f}"]. *)
Definition variation_key (i j : Z) (factor : R) : string :=
  ("(" +:+ pretty i +:+ "," +:+ pretty j +:+ ")_x" +:+ format_2f factor)%string.

(** The body of the inner loop of [ahp_sensitivity_analysis], for one
    [factor]. *)
Definition vary_judgment (comparison_matrix : nat) (i j : Z)
    (original_value : R) (base : vector)
    (vars : gmap string variation) (factor : R)
    : Py (gmap string variation) :=
  varied_matrix ← np_copy comparison_matrix;
  let new_value := original_value * factor in
  _ ← arr_set varied_matrix i j new_value;
  _ ← arr_set varied_matrix j i (1 / new_value);
  contents ← arr_read varied_matrix;
  varied_result ← py_lift (ahp_consistency_ratio contents);
  weight_change ← py_lift (np_binop Rminus (cr_weights varied_result) base);
  py_ret (<[variation_key i j factor :=
             {| var_new_value := new_value;
                var_weights := cr_weights varied_result;
                var_weight_change := weight_change;
                var_cr := cr_cr varied_result;
                var_is_consistent := cr_is_consistent varied_result |}]> vars).

(** [ahp_sensitivity_analysis(comparison_matrix, vary_indices,
    variation_range)]; [comparison_matrix] is the reference the caller
    passes. *)
Definition ahp_sensitivity_analysis (comparison_matrix : nat)
    (vary_indices : list (Z * Z)) (variation_range : R)
    : Py sensitivity_result :=
  contents ← arr_read comparison_matrix;
  base_result ← py_lift (ahp_consistency_ratio contents);
  let base := cr_weights base_result in
  vars ← py_for
    (fun vars '(i, j) =>
       original_value ← arr_get comparison_matrix i j;
       py_for (vary_judgment comparison_matrix i j original_value base)
              vars [1 - variation_range; 1 + variation_range])
    ∅ vary_indices;
  py_ret {| base_weights := base; variations := vars |}.

End AHP.

(* ================================================================== *)
(** * TOPSIS *)
(* ================================================================== *)

(** [np.sum(M, axis=0)]: the sum of the rows, one total per column. *)
Definition sum_rows_from (c : nat) (M : matrix) : vector :=
  foldr (zip_with Rplus) (replicate c 0) M.

Definition np_sum_axis0 (M : matrix) : vector := sum_rows_from (ncols M) M.

(** [M ** 2], element-wise. *)
Definition np_square (M : matrix) : matrix :=
  (fun row : list R => (fun x => x * x) <$> row) <$> M.

(** [np.where(v == 0, 1, v)]. *)
Definition where_zero_one (v : vector) : vector :=
  (fun x => if bool_decide (x = 0) then 1 else x) <$> v.

(** [normalize_matrix(decision_matrix)]; dividing an (m, n) array by an
    (n,) array divides every row element-wise. *)
Definition normalize_matrix (decision_matrix : matrix) : matrix :=
  let col_norms := sqrt <$> np_sum_axis0 (np_square decision_matrix) in
  let col_norms := where_zero_one col_norms in
  (fun row => zip_with Rdiv row col_norms) <$> decision_matrix.

(** ** [normalize_matrix] in the arithmetic of the array

    [normalize_matrix] above reads the body over the reals.  numpy
    evaluates the same body in the dtype of the array it is given:
    binary64 for a [float64] array; for an [int64] array wrap-around 64-bit
    integers for [** 2] and [np.sum], then binary64 for [np.sqrt] and [/],
    which convert their integer argument first.  [dtype_ops E F] lists the
    operations the body applies: on the elements [E] of the array the
    product of [** 2] (numpy squares by multiplying) and the zero and the
    sum of [np.sum]; from [E] to the elements [F] of the result [np.sqrt]
    and [/]; on [F] the test [== 0] and the [1] of [np.where]. *)
Record dtype_ops (E F : Type) := {
  op_zero : E;
  op_mul : E -> E -> E;
  op_add : E -> E -> E;
  op_sqrt : E -> F;
  op_is_zero : F -> bool;
  op_one : F;
  op_div : E -> F -> F
}.
Arguments op_zero {E F} _.
Arguments op_mul {E F} _ _ _.
Arguments op_add {E F} _ _ _.
Arguments op_sqrt {E F} _ _.
Arguments op_is_zero {E F} _ _.
Arguments op_one {E F} _.
Arguments op_div {E F} _ _ _.

(** [M ** 2]. *)
Definition np_square_in {E F} (ops : dtype_ops E F) (M : list (list E))
    : list (list E) :=
  (fun row : list E => (fun x => op_mul ops x x) <$> row) <$> M.

(** [np.sum(M, axis=0)]: the rows are added, first to last, to a row of
    zeros. *)
Definition np_sum_axis0_in {E F} (ops : dtype_ops E F) (M : list (list E))
    : list E :=
  foldl (zip_with (op_add ops)) (replicate (length (hd [] M)) (op_zero ops)) M.

(** [np.where(v == 0, 1, v)]. *)
Definition where_zero_one_in {E F} (ops : dtype_ops E F) (v : list F)
    : list F :=
  (fun x => if op_is_zero ops x then op_one ops else x) <$> v.

(** [normalize_matrix(decision_matrix)] for an array of dtype [E]. *)
Definition normalize_matrix_in {E F} (ops : dtype_ops E F)
    (decision_matrix : list (list E)) : list (list F) :=
  let col_norms :=
    op_sqrt ops <$> np_sum_axis0_in ops (np_square_in ops decision_matrix) in
  let col_norms := where_zero_one_in ops col_norms in
  (fun row => zip_with (op_div ops) row col_norms) <$> decision_matrix.

(** Exact arithmetic. *)
Definition real_ops : dtype_ops R R :=
  {| op_zero := 0; op_mul := Rmult; op_add := Rplus; op_sqrt := sqrt;
     op_is_zero := fun x => bool_decide (x = 0); op_one := 1;
     op_div := Rdiv |}.

(** [float64]: IEEE 754 binary64, rounding to nearest even; [==] is the
    IEEE comparison (it holds between [-0.0] and [0.0], and never for a
    [nan]). *)
Definition float64_ops : dtype_ops float float :=
  {| op_zero := 0%float; op_mul := PrimFloat.mul; op_add := PrimFloat.add;
     op_sqrt := PrimFloat.sqrt;
     op_is_zero := fun x => PrimFloat.eqb x 0%float; op_one := 1%float;
     op_div := PrimFloat.div |}.

(** [int64]: an integer of [-2^63, 2^63); a result outside the range
    wraps around. *)
Definition int64_wrap (z : Z) : Z :=
  ((z + 2 ^ 63) mod 2 ^ 64 - 2 ^ 63)%Z.

(** The conversion of an [int64] to [float64], to the nearest. *)
Definition int64_to_float64 (z : Z) : float :=
  if (z =? - 2 ^ 63)%Z then (- 0x1p63)%float
  else if (z <? 0)%Z
       then PrimFloat.opp (PrimFloat.of_uint63 (Uint63.of_Z (- z)))
       else PrimFloat.of_uint63 (Uint63.of_Z z).

Definition int64_ops : dtype_ops Z float :=
  {| op_zero := 0%Z;
     op_mul := fun x y => int64_wrap (x * y);
     op_add := fun x y => int64_wrap (x + y);
     op_sqrt := fun s => PrimFloat.sqrt (int64_to_float64 s);
     op_is_zero := fun x => PrimFloat.eqb x 0%float; op_one := 1%float;
     op_div := fun x n => PrimFloat.div (int64_to_float64 x) n |}.

Definition normalize_matrix_float64 : list (list float) -> list (list float) :=
  normalize_matrix_in float64_ops.

Definition normalize_matrix_int64 : list (list Z) -> list (list float) :=
  normalize_matrix_in int64_ops.

(** An (m, n) array combined with a 1-D array: every row is combined with
    it under the broadcasting rule of [np_binop]. *)
Definition np_binop_rows (f : R -> R -> R) (M : matrix) (v : vector)
    : option (list (list R)) :=
  mapM (fun row => np_binop f row v) M.

(** [weighted_matrix(normalized_matrix, weights)]. *)
Definition weighted_matrix (normalized_matrix : matrix) (weights : vector)
    : option (list (list R)) :=
  np_binop_rows Rmult normalized_matrix weights.

(** [np.max] / [np.min] of a 1-D array; [ValueError] on an empty one. *)
Definition np_max (v : vector) : option R :=
  match v with [] => None | x :: rest => Some (foldl Rmax x rest) end.
Definition np_min (v : vector) : option R :=
  match v with [] => None | x :: rest => Some (foldl Rmin x rest) end.

(** [str.lower()], on ASCII letters. *)
Definition ascii_lower (c : ascii) : ascii :=
  let n := nat_of_ascii c in
  if (65 <=? n)%nat && (n <=? 90)%nat then ascii_of_nat (n + 32) else c.

Fixpoint lower (s : string) : string :=
  match s with
  | EmptyString => EmptyString
  | String c rest => String (ascii_lower c) (lower rest)
  end.

(** The body of the loop of [ideal_solutions] for criterion [j]: the
    values stored into [ideal[j]] and [negative_ideal[j]]. *)
Definition ideal_pair (weighted : matrix) (criteria_types : list string)
    (j : nat) : option (R * R) :=
  col ← column weighted j;
  tag ← criteria_types !! j;
  if bool_decide (lower tag = "benefit"%string) then
    hi ← np_max col; lo ← np_min col; Some (hi, lo)
  else
    lo ← np_min col; hi ← np_max col; Some (lo, hi).

(** [ideal_solutions(weighted_matrix, criteria_types)]. *)
Definition ideal_solutions (weighted : matrix) (criteria_types : list string)
    : option (vector * vector) :=
  let n_criteria := ncols weighted in
  pairs ← mapM (ideal_pair weighted criteria_types) (seq 0 n_criteria);
  Some (pairs.*1, pairs.*2).

(** [np.sqrt(np.sum((M - v) ** 2, axis=1))]: the distance of every row
    from [v]. *)
Definition row_distances (M : matrix) (v : vector) : option vector :=
  diffs ← np_binop_rows Rminus M v;
  Some ((fun row => sqrt (np_sum row)) <$> np_square diffs).

(** [separation_measures(weighted_matrix, ideal, negative_ideal)]. *)
Definition separation_measures (weighted : matrix) (ideal negative_ideal : vector)
    : option (vector * vector) :=
  s_plus ← row_distances weighted ideal;
  s_minus ← row_distances weighted negative_ideal;
  Some (s_plus, s_minus).

(** [closeness_scores(s_plus, s_minus)]. *)
Definition closeness_scores (s_plus s_minus : vector) : option vector :=
  denominator ← np_binop Rplus s_plus s_minus;
  let denominator := where_zero_one denominator in
  np_binop Rdiv s_minus denominator.

(** [np.isclose(a, b, rtol, atol)] on scalars:
    [|a - b| <= atol + rtol * |b|]; the defaults are [rtol = 1e-5] and
    [atol = 1e-8]. *)
Definition np_isclose (a b rtol atol : R) : bool :=
  bool_decide (Rabs (a - b) <= atol + rtol * Rabs b).

Definition default_rtol : R := 1e-5.
Definition default_atol : R := 1e-8.

(** The dict [topsis_rank] returns. *)
Record topsis_result := {
  tr_normalized_matrix : list (list R);
  tr_weighted_matrix : list (list R);
  tr_ideal : vector;
  tr_negative_ideal : vector;
  tr_s_plus : vector;
  tr_s_minus : vector;
  tr_closeness : vector;
  tr_ranking : list nat;
  tr_ranked_alternatives : list string;
  tr_ranked_scores : vector
}.

Section TOPSIS.

(** [np.argsort] with its default [kind]. *)
Variable argsort : list R -> list nat.

(** [topsis_rank(decision_matrix, weights, criteria_types,
    alternative_names)]. *)
Definition topsis_rank (decision_matrix : matrix) (weights : vector)
    (criteria_types : list string) (alternative_names : option (list string))
    : option topsis_result :=
  let m := nrows decision_matrix in
  let weights :=
    if negb (np_isclose (np_sum weights) 1.0 default_rtol default_atol)
    then (fun x => x / np_sum weights) <$> weights else weights in
  let norm_matrix := normalize_matrix decision_matrix in
  w_matrix ← weighted_matrix norm_matrix weights;
  '(ideal, negative_ideal) ← ideal_solutions w_matrix criteria_types;
  '(s_plus, s_minus) ← separation_measures w_matrix ideal negative_ideal;
  c_scores ← closeness_scores s_plus s_minus;
  let ranking := argsort (Ropp <$> c_scores) in
  let alternative_names :=
    default ((fun i : nat => ("Alternative_" +:+ pretty i)%string) <$> seq 0 m)
            alternative_names in
  ranked_alternatives ← mapM (fun i => alternative_names !! i) ranking;
  ranked_scores ← mapM (fun i => c_scores !! i) ranking;
  Some {| tr_normalized_matrix := norm_matrix;
          tr_weighted_matrix := w_matrix;
          tr_ideal := ideal;
          tr_negative_ideal := negative_ideal;
          tr_s_plus := s_plus;
          tr_s_minus := s_minus;
          tr_closeness := c_scores;
          tr_ranking := ranking;
          tr_ranked_alternatives := ranked_alternatives;
          tr_ranked_scores := ranked_scores |}.

End TOPSIS.

(* ================================================================== *)
(** * DEA *)
(* ================================================================== *)

(** The arguments of [scipy.optimize.linprog]:
    minimize [c @ x] subject to [A_ub @ x <= b_ub] and the bounds, a pair
    (lower, upper) per variable with [None] for "unbounded". *)
Record lp_problem := {
  lp_c : list R;
  lp_A_ub : list (list R);
  lp_b_ub : list R;
  lp_bounds : list (option R * option R)
}.

(** The fields of the [OptimizeResult] the code reads. *)
Record lp_result := {
  lp_success : bool;
  lp_x : list R;
  lp_message : string
}.

(** The dict [dea_efficiency] returns.  The raw LP value is stored under
    the key ['phi'] (output orientation) or ['theta'] (input orientation):
    [dr_scale] is the key with its value. *)
Record dea_result := {
  dr_efficiency : option R;
  dr_scale : string * option R;
  dr_lambdas : option (list R);
  dr_slack_inputs : option (list R);
  dr_slack_outputs : option (list R);
  dr_is_efficient : option bool;
  dr_peers : option (list nat);
  dr_status : string
}.

(** [result[key]] for the raw LP value: [KeyError] under the other key. *)
Definition dr_get_scale (key : string) (r : dea_result) : option (option R) :=
  if bool_decide ((dr_scale r).1 = key) then Some (dr_scale r).2 else None.

(** An entry of [improvement_targets]. *)
Inductive improvement :=
  | OutputTargets (current_outputs target_outputs improvement_needed : list R)
                  (improvement_percent : R)
  | InputTargets (current_inputs target_inputs reduction_needed : list R)
                 (reduction_percent : R).

(** The dict [dea_efficiency_all] returns. *)
Record dea_all_result := {
  da_efficiencies : list R;
  da_results : list dea_result;
  da_frontier_dmus : list nat;
  da_frontier_names : list string;
  da_ranking : list nat;
  da_ranked_names : list string;
  da_ranked_efficiencies : list R;
  da_improvement_targets : gmap string improvement
}.

(** [row[1:] = v] for a row slice of length [len]: [v] must have that
    length, or length 1 (it is then repeated). *)
Definition assign_slice (len : nat) (v : vector) : option vector :=
  if bool_decide (length v = len) then Some v
  else match v with
       | [x] => Some (replicate len x)
       | _ => None
       end.

(** [M.T @ v] for a 2-D [M] and a 1-D [v]: one dot product per column of
    [M]; [ValueError] unless [v] has one entry per row of [M]. *)
Definition matT_vec (M : matrix) (v : vector) : option vector :=
  if bool_decide (length v = nrows M)
  then mapM (fun i => col ← column M i; Some (dot col v)) (seq 0 (ncols M))
  else None.

(** [np.where(lambdas > 1e-6)[0].tolist()]. *)
Definition positions_where (P : R -> bool) (v : vector) : list nat :=
  (fst <$> filter (fun p => P p.2 = true) (imap (fun i x => (i, x)) v)).

(** The dict of a failed solve. *)
Definition failure_result (scale_key message : string) : dea_result :=
  {| dr_efficiency := None; dr_scale := (scale_key, None);
     dr_lambdas := None; dr_slack_inputs := None; dr_slack_outputs := None;
     dr_is_efficient := None; dr_peers := None;
     dr_status := ("failed: " +:+ message)%string |}.

(** The linear program [dea_efficiency] builds for the DMU whose input and
    output rows are [x_k] and [y_k]. *)
Definition dea_lp_output (inputs outputs : matrix) (x_k y_k : vector)
    : option lp_problem :=
  let n_dmus := nrows inputs in
  let n_inputs := ncols inputs in
  let n_outputs := ncols outputs in
  let c := (-1.0) :: replicate n_dmus 0.0 in
  A_ub_input ← mapM (fun i => col ← column inputs i;
                              coeffs ← assign_slice n_dmus col;
                              Some (0 :: coeffs)) (seq 0 n_inputs);
  let b_ub_input := x_k in
  A_ub_output ← mapM (fun r => y ← y_k !! r;
                               col ← column outputs r;
                               coeffs ← assign_slice n_dmus (Ropp <$> col);
                               Some (y :: coeffs)) (seq 0 n_outputs);
  let b_ub_output := replicate n_outputs 0 in
  Some {| lp_c := c;
          lp_A_ub := A_ub_input ++ A_ub_output;
          lp_b_ub := b_ub_input ++ b_ub_output;
          lp_bounds := (Some 1.0, None) :: replicate n_dmus (Some 0, None) |}.

Definition dea_lp_input (inputs outputs : matrix) (x_k y_k : vector)
    : option lp_problem :=
  let n_dmus := nrows inputs in
  let n_inputs := ncols inputs in
  let n_outputs := ncols outputs in
  let c := 1.0 :: replicate n_dmus 0.0 in
  A_ub_input ← mapM (fun i => x ← x_k !! i;
                              col ← column inputs i;
                              coeffs ← assign_slice n_dmus col;
                              Some (- x :: coeffs)) (seq 0 n_inputs);
  let b_ub_input := replicate n_inputs 0 in
  A_ub_output ← mapM (fun r => col ← column outputs r;
                               coeffs ← assign_slice n_dmus (Ropp <$> col);
                               Some (0 :: coeffs)) (seq 0 n_outputs);
  let b_ub_output := Ropp <$> y_k in
  Some {| lp_c := c;
          lp_A_ub := A_ub_input ++ A_ub_output;
          lp_b_ub := b_ub_input ++ b_ub_output;
          lp_bounds := (Some 0, Some 1) :: replicate n_dmus (Some 0, None) |}.

(** The linear program [dea_efficiency] hands to [linprog] for DMU [i]. *)
Definition dea_lp (inputs outputs : matrix) (i : nat) (orientation : string)
    : option lp_problem :=
  x_k ← inputs !! i;
  y_k ← outputs !! i;
  if bool_decide (orientation = "output"%string)
  then dea_lp_output inputs outputs x_k y_k
  else dea_lp_input inputs outputs x_k y_k.

(** The key the raw LP value is stored under. *)
Definition scale_key (orientation : string) : string :=
  if bool_decide (orientation = "output"%string)
  then "phi"%string else "theta"%string.

Section DEA.

(** [scipy.optimize.linprog(..., method='highs')]; it raises on arguments
    it rejects. *)
Variable linprog : lp_problem -> option lp_result.

(** [np.argsort] with its default [kind]. *)
Variable argsort : list R -> list nat.

(** [dea_efficiency(inputs, outputs, dmu_index, orientation)]. *)
Definition dea_efficiency (inputs outputs : matrix) (dmu_index : Z)
    (orientation : string) : option dea_result :=
  k ← py_index (nrows inputs) dmu_index;
  x_k ← inputs !! k;
  k' ← py_index (nrows outputs) dmu_index;
  y_k ← outputs !! k';
  if bool_decide (orientation = "output"%string) then
    lp ← dea_lp_output inputs outputs x_k y_k;
    result ← linprog lp;
    if lp_success result then
      phi ← lp_x result !! 0%nat;
      let lambdas := drop 1 (lp_x result) in
      let efficiency := 1.0 / phi in
      used ← matT_vec inputs lambdas;
      slack_inputs ← np_binop Rminus x_k used;
      produced ← matT_vec outputs lambdas;
      slack_outputs ← np_binop Rminus (Rmult phi <$> y_k) produced;
      let peers := positions_where (fun l => bool_decide (l > 1e-6)) lambdas in
      Some {| dr_efficiency := Some efficiency;
              dr_scale := ("phi"%string, Some phi);
              dr_lambdas := Some lambdas;
              dr_slack_inputs := Some slack_inputs;
              dr_slack_outputs := Some slack_outputs;
              dr_is_efficient :=
                Some (np_isclose efficiency 1.0 default_rtol 1e-6);
              dr_peers := Some peers;
              dr_status := "optimal"%string |}
    else Some (failure_result "phi" (lp_message result))
  else
    lp ← dea_lp_input inputs outputs x_k y_k;
    result ← linprog lp;
    if lp_success result then
      theta ← lp_x result !! 0%nat;
      let lambdas := drop 1 (lp_x result) in
      let efficiency := theta in
      used ← matT_vec inputs lambdas;
      slack_inputs ← np_binop Rminus (Rmult theta <$> x_k) used;
      produced ← matT_vec outputs lambdas;
      slack_outputs ← np_binop Rminus produced y_k;
      let peers := positions_where (fun l => bool_decide (l > 1e-6)) lambdas in
      Some {| dr_efficiency := Some efficiency;
              dr_scale := ("theta"%string, Some theta);
              dr_lambdas := Some lambdas;
              dr_slack_inputs := Some slack_inputs;
              dr_slack_outputs := Some slack_outputs;
              dr_is_efficient :=
                Some (np_isclose efficiency 1.0 default_rtol 1e-6);
              dr_peers := Some peers;
              dr_status := "optimal"%string |}
    else Some (failure_result "theta" (lp_message result)).

(** Python truth value of [result['is_efficient']] ([None] is false). *)
Definition truthy (b : option bool) : bool := default false b.

(** One iteration of the improvement-target loop of
    [dea_efficiency_all]. *)
Definition improvement_step (inputs outputs : matrix)
    (dmu_names : list string) (orientation : string)
    (results : list dea_result)
    (targets : gmap string improvement) (i : nat)
    : option (gmap string improvement) :=
  result ← results !! i;
  if negb (truthy (dr_is_efficient result))
     && bool_decide (is_Some (dr_efficiency result))
  then
    if bool_decide (orientation = "output"%string) then
      stored ← dr_get_scale "phi" result;
      phi ← stored;
      current ← outputs !! i;
      let target_outputs := (fun y => y * phi) <$> current in
      improvement_needed ← np_binop Rminus target_outputs current;
      name ← dmu_names !! i;
      Some (<[name := OutputTargets current target_outputs improvement_needed
                        ((phi - 1) * 100)]> targets)
    else
      stored ← dr_get_scale "theta" result;
      theta ← stored;
      current ← inputs !! i;
      let target_inputs := (fun x => x * theta) <$> current in
      reduction_needed ← np_binop Rminus current target_inputs;
      name ← dmu_names !! i;
      Some (<[name := InputTargets current target_inputs reduction_needed
                        ((1 - theta) * 100)]> targets)
  else Some targets.

(** [dea_efficiency_all(inputs, outputs, dmu_names, orientation)]. *)
Definition dea_efficiency_all (inputs outputs : matrix)
    (dmu_names : option (list string)) (orientation : string)
    : option dea_all_result :=
  let n_dmus := nrows inputs in
  let dmu_names :=
    default ((fun i : nat => ("DMU_" +:+ pretty i)%string) <$> seq 0 n_dmus)
            dmu_names in
  results ← mapM (fun i : nat =>
                    dea_efficiency inputs outputs (Z.of_nat i) orientation)
                 (seq 0 n_dmus);
  let efficiencies := (fun r => default 0 (dr_efficiency r)) <$> results in
  let ranking := argsort (Ropp <$> efficiencies) in
  let frontier_dmus :=
    positions_where (fun e => np_isclose e 1.0 default_rtol 1e-6)
                    efficiencies in
  improvement_targets ←
    for_each (improvement_step inputs outputs dmu_names orientation results)
             ∅ (seq 0 n_dmus);
  frontier_names ← mapM (fun i => dmu_names !! i) frontier_dmus;
  ranked_names ← mapM (fun i => dmu_names !! i) ranking;
  ranked_efficiencies ← mapM (fun i => efficiencies !! i) ranking;
  Some {| da_efficiencies := efficiencies;
          da_results := results;
          da_frontier_dmus := frontier_dmus;
          da_frontier_names := frontier_names;
          da_ranking := ranking;
          da_ranked_names := ranked_names;
          da_ranked_efficiencies := ranked_efficiencies;
          da_improvement_targets := improvement_targets |}.

End DEA.


(** The same re-scaling in the arithmetic of the array. *)
Definition scale_column_in {E F} (ops : dtype_ops E F) (j : nat) (k : E)
    (M : list (list E)) : list (list E) :=
  (fun row : list E => alter (op_mul ops k) j row) <$> M.

(* ================================================================== *)
(** * The decision matrix of the pricing scenarios ([topsis_pricing.py]) *)
(* ================================================================== *)

(** [list(PRICING_SCENARIOS.keys())], in insertion order. *)
Definition scenario_names : list string :=
  ["Value_Leader"; "Balanced_Optimal"; "Extended_Value";
   "Premium_Service"]%string.

(** The keys [build_decision_matrix] reads from the metrics of a scenario,
    in the order of the columns they fill. *)
Definition metric_keys : list string :=
  ["customer_savings"; "company_margin"; "breakeven_months"; "churn_risk";
   "adoption_score"]%string.

(** [get_criteria_types()]: the ['type'] fields of [TOPSIS_CRITERIA]. *)
Definition get_criteria_types : list string :=
  ["benefit"; "benefit"; "cost"; "cost"; "benefit"]%string.

Section Pricing.

(** [derive_scenario_metrics()], called when no metrics are passed. *)
Variable derive_scenario_metrics : option (gmap string (gmap string R)).

(** [build_decision_matrix(metrics)]; a missing scenario or metric raises
    [KeyError]. *)
Definition build_decision_matrix
    (metrics : option (gmap string (gmap string R)))
    : option (matrix * list string) :=
  metrics ← match metrics with
            | Some given => Some given
            | None => derive_scenario_metrics
            end;
  decision_matrix ←
    mapM (fun name : string =>
            m ← metrics !! name;
            mapM (fun key : string => m !! key) metric_keys)
         scenario_names;
  Some (decision_matrix, scenario_names).

End Pricing.

(* ================================================================== *)
(** * DEA of the subscription plans ([dea_plan_efficiency.py]) *)
(* ================================================================== *)

(** [INPUT_LABELS] and [OUTPUT_LABELS]. *)
Definition INPUT_LABELS : list string :=
  ["Cost/Customer (₹)"; "Service Visits"]%string.
Definition OUTPUT_LABELS : list string :=
  ["Satisfaction"; "Revenue (₹)"; "Retention (%)"]%string.

(** [get_input_matrix()], [get_output_matrix()] and [get_dmu_names()]: the
    rows are read from [PLAN_DATA] for the plans Light, Moderate and Heavy,
    in this order. *)
Definition get_input_matrix : matrix :=
  [[8000; 2]; [10500; 3]; [14000; 4]].

Definition get_output_matrix : matrix :=
  [[72; 5988; 82]; [81; 7788; 88]; [88; 10788; 92]].

Definition get_dmu_names : list string := ["Light"; "Moderate"; "Heavy"]%string.

(** The dict [run_dea_analysis] returns: the dict of [dea_efficiency_all]
    with the keys it adds.  (The key ['plan_data'] holds [PLAN_DATA]
    itself and is read by the report printer only.) *)
Record dea_analysis := {
  an_all : dea_all_result;
  an_inputs : list (list R);
  an_outputs : list (list R);
  an_input_labels : list string;
  an_output_labels : list string;
  an_orientation : string
}.

(** An entry of ['recommendations'] in [analyze_inefficiency]. *)
Record recommendation := {
  rec_metric : string;
  rec_current : R;
  rec_target : R;
  rec_gap : R;
  rec_increase_percent : R
}.

(** The three dicts [analyze_inefficiency] can return. *)
Inductive analysis :=
  | UnknownPlan (error : string)
  | EfficientPlan (plan status message : string)
  | InefficientPlan (plan status : string)
      (efficiency_score inefficiency_percent : R)
      (reference_plans : list string)
      (recommendations : list recommendation) (message : string).

(** [names.index(x)]: the first position of [x]; [ValueError] if absent. *)
Fixpoint list_index (x : string) (names : list string) : option nat :=
  match names with
  | [] => None
  | y :: rest => if bool_decide (y = x) then Some 0%nat
                 else S <$> list_index x rest
  end.

(** [improvement.get("improvement_percent", 0)] on the dict stored for a
    plan, or on [{}] when none is stored. *)
Definition get_improvement_percent (improvement : option improvement) : R :=
  match improvement with
  | Some (OutputTargets _ _ _ percent) => percent
  | _ => 0
  end.

(** One iteration of the recommendation loop of [analyze_inefficiency]. *)
Definition recommend (current_outputs target_outputs : vector)
    (recommendations : list recommendation) (item : nat * (string * R))
    : option (list recommendation) :=
  let '(i, (label, gap)) := item in
  if bool_decide (gap > 0) then
    current ← current_outputs !! i;
    let pct_increase := (gap / current) * 100 in
    target ← target_outputs !! i;
    Some (recommendations ++
          [{| rec_metric := label; rec_current := current;
              rec_target := target; rec_gap := gap;
              rec_increase_percent := pct_increase |}])
  else Some recommendations.

Section Plans.

Variable linprog : lp_problem -> option lp_result.
Variable argsort : list R -> list nat.

(** The format spec [:.1f] of the f-string. *)
Variable format_1f : R -> string.

(** [run_dea_analysis(orientation, verbose=False)]. *)
Definition run_dea_analysis (orientation : string) : option dea_analysis :=
  let inputs := get_input_matrix in
  let outputs := get_output_matrix in
  let dmu_names := get_dmu_names in
  result ← dea_efficiency_all linprog argsort inputs outputs (Some dmu_names)
             orientation;
  Some {| an_all := result; an_inputs := inputs; an_outputs := outputs;
          an_input_labels := INPUT_LABELS; an_output_labels := OUTPUT_LABELS;
          an_orientation := orientation |}.

(** [analyze_inefficiency(plan_name)].  Iterating over [None] and
    subtracting [None] from a number raise [TypeError]. *)
Definition analyze_inefficiency (plan_name : string) : option analysis :=
  result ← run_dea_analysis "output";
  let dmu_names := get_dmu_names in
  if bool_decide (plan_name ∉ dmu_names) then
    Some (UnknownPlan ("Unknown plan: " +:+ plan_name))
  else
    idx ← list_index plan_name dmu_names;
    individual ← da_results (an_all result) !! idx;
    if truthy (dr_is_efficient individual) then
      Some (EfficientPlan plan_name "EFFICIENT"
              (plan_name +:+
               " is on the efficient frontier. No improvements needed."))
    else
      let improvement := da_improvement_targets (an_all result) !! plan_name in
      peers ← dr_peers individual;
      peer_names ← mapM (fun p : nat => dmu_names !! p) peers;
      current_outputs ← an_outputs result !! idx;
      recommendations ←
        match improvement with
        | Some (OutputTargets _ target_outputs _ _) =>
            output_gaps ← np_binop Rminus target_outputs current_outputs;
            for_each (recommend current_outputs target_outputs) []
                     (imap (fun i p => (i, p)) (zip OUTPUT_LABELS output_gaps))
        | _ => Some []
        end;
      efficiency ← dr_efficiency individual;
      Some (InefficientPlan plan_name "INEFFICIENT" efficiency
              ((1 - efficiency) * 100) peer_names recommendations
              (plan_name +:+ " can improve outputs by "
               +:+ format_1f (get_improvement_percent improvement)
               +:+ "% to reach the frontier.")).

End Plans.

(* ================================================================== *)
(** * Sample inputs and library answers used by the examples *)
(* ================================================================== *)

(** An [eig] for the 3x3 matrix of ones (eigenvalues 3, 0, 0). *)
Definition eig_ones3 (_ : list (list R)) : option eig_result :=
  Some ([Complex 3 0; Complex 0 0; Complex 0 0],
        [[Complex 1 0; Complex 1 0; Complex 1 0];
         [Complex 1 0; Complex (-1) 0; Complex 0 0];
         [Complex 1 0; Complex 0 0; Complex (-1) 0]]).

(** The comparison matrix of the single judgment "criterion 0 is twice as
    important as criterion 1", and an [eig] for it: eigenvalues 2 and 0,
    the first eigenvector returned with a negative sign. *)
Definition judgment_2x2 : list (list R) := [[1; 2]; [1 / 2; 1]].

Definition eig_2x2 (_ : list (list R)) : option eig_result :=
  Some ([Complex 2 0; Complex 0 0],
        [[Complex (-2) 0; Complex (-2) 0];
         [Complex (-1) 0; Complex 1 0]]).

(** Two DMUs with the same input; the second produces 0.999995 of the
    output of the first.  [linprog_near_frontier] answers with the optimum
    of the input-oriented program of the second DMU. *)
Definition near_frontier_inputs : list (list R) := [[1]; [1]].
Definition near_frontier_outputs : list (list R) := [[1]; [0.999995]].

Definition near_frontier_program : lp_problem :=
  {| lp_c := [1.0; 0.0; 0.0];
     lp_A_ub := [[Ropp 1; 1; 1]; [0; Ropp 1; Ropp 0.999995]];
     lp_b_ub := [0; Ropp 0.999995];
     lp_bounds := [(Some 0, Some 1); (Some 0, None); (Some 0, None)] |}.

Definition linprog_near_frontier (_ : lp_problem) : option lp_result :=
  Some {| lp_success := true;
          lp_x := [0.999995; 0.999995; 0];
          lp_message := "Optimization terminated successfully." |}.

(** A [linprog] that reports failure on the program whose first bound is 1
    (the program of the first DMU below) and a solution otherwise. *)
Definition linprog_first_fails (lp : lp_problem) : option lp_result :=
  if bool_decide (lp_b_ub lp !! 0%nat = Some 1)
  then Some {| lp_success := false; lp_x := [];
               lp_message := "The problem is infeasible." |}
  else Some {| lp_success := true; lp_x := [1; 0; 1];
               lp_message := "Optimization terminated successfully." |}.

Definition two_dmus : list (list R) := [[1]; [2]].

(** An [argsort] that sorts ascending and, among equal values, puts the
    later position first: the positions are inserted one after the other,
    each in front of the first position whose value is not smaller. *)
Fixpoint insert_position (key : nat -> R) (i : nat) (sorted : list nat)
    : list nat :=
  match sorted with
  | [] => [i]
  | j :: rest =>
      if bool_decide (key i <= key j) then i :: j :: rest
      else j :: insert_position key i rest
  end.

Definition argsort_reverse_ties (v : list R) : list nat :=
  foldl (fun sorted i => insert_position (fun p => default 0 (v !! p)) i sorted)
        [] (seq 0 (length v)).

(** A matrix with negative entries (not a comparison matrix) and an [eig]
    for it: eigenvalues 2 and 0, eigenvectors (-2, 1) and (2, 1).  The
    eigenvector of the largest eigenvalue has entries of both signs. *)
Definition mixed_signs_2x2 : list (list R) := [[1; Ropp 2]; [Ropp (1 / 2); 1]].

Definition eig_mixed_signs (_ : list (list R)) : option eig_result :=
  Some ([Complex 2 0; Complex 0 0],
        [[Complex (Ropp 2) 0; Complex 2 0];
         [Complex 1 0; Complex 1 0]]).


(** Two plans with the same input; the second produces half the output of
    the first.  [linprog_two_plans] answers the output-oriented program of
    either with its optimum: factor 1 for the first plan, factor 2 (with
    the first plan as peer) for the second. *)
Definition two_plans_inputs : list (list R) := [[1]; [1]].
Definition two_plans_outputs : list (list R) := [[2]; [1]].

Definition linprog_two_plans (lp : lp_problem) : option lp_result :=
  if bool_decide (lp_A_ub lp !! 1%nat ≫= head = Some 1)
  then Some {| lp_success := true; lp_x := [2; 1; 0];
               lp_message := "Optimization terminated successfully." |}
  else Some {| lp_success := true; lp_x := [1; 1; 0];
               lp_message := "Optimization terminated successfully." |}.

(** A metrics dict that gives every scenario the same five metrics. *)
Definition sample_scenario_metrics : gmap string R :=
  list_to_map [("customer_savings"%string, 20); ("company_margin"%string, 30);
               ("breakeven_months"%string, 18); ("churn_risk"%string, 10);
               ("adoption_score"%string, 70)].

Definition sample_metrics : gmap string (gmap string R) :=
  list_to_map ((fun name => (name, sample_scenario_metrics)) <$> scenario_names).

(** A [linprog] that reports failure on every program, and one that
    reports, for every program of three DMUs, the point "factor 2, first
    DMU as only peer". *)
Definition linprog_always_fails (_ : lp_problem) : option lp_result :=
  Some {| lp_success := false; lp_x := [];
          lp_message := "The problem is infeasible." |}.

Definition linprog_factor_two (_ : lp_problem) : option lp_result :=
  Some {| lp_success := true; lp_x := [2; 1; 0; 0];
          lp_message := "Optimization terminated successfully." |}.

(* ================================================================== *)
(** * Vocabulary of the properties *)
(* ================================================================== *)

(** The invariants the data model states for a comparison matrix of size
    [n]: square, unit diagonal, strictly positive, reciprocal. *)
Definition comparison_matrix_inv (n : nat) (M : matrix) : Prop :=
  nrows M = n /\ rectangular n M /\
  (forall a, (a < n)%nat -> entry M a a = Some 1) /\
  (forall a b, (a < n)%nat -> (b < n)%nat ->
     exists x, entry M a b = Some x /\ 0 < x /\ entry M b a = Some (1 / x)).

(** A judgment the builder accepts for size [n]. *)
Definition judgment_ok (n : nat) (item : (Z * Z) * R) : Prop :=
  let '((i, j), value) := item in
  (0 <= i < Z.of_nat n)%Z /\ (0 <= j < Z.of_nat n)%Z /\ i <> j /\ 0 < value.

(** What one accepted judgment does to the matrix. *)
Definition placed (M M' : matrix) (i j : nat) (v : R) : Prop :=
  forall a b, entry M' a b =
    if bool_decide (a = j /\ b = i) then Some (1 / v)
    else if bool_decide (a = i /\ b = j) then Some v
    else entry M a b.

(** [keeps h0 m Q]: started in a heap that extends [h0], the computation
    [m] ends (normally or by an exception) in a heap that still extends
    [h0], and a value it returns satisfies [Q].  The arrays of [h0] are the
    caller's arrays. *)
Definition keeps {A} (h0 : heap) (m : Py A) (Q : A -> Prop) : Prop :=
  forall h, h0 ⊆ h ->
    h0 ⊆ (m h).1 /\ forall a, (m h).2 = Some a -> Q a.

(** Every entry is strictly positive. *)
Definition positive_matrix (A : matrix) : Prop :=
  Forall (Forall (fun c => 0 < c)) A.

(** What the contract of [np.linalg.eig] gives on a positive matrix [A].
    The pair the code selects (the eigenvalue of largest real part and the
    real part of its eigenvector column) is a real eigenpair of [A]. *)
Definition principal_pair_is_eigenpair (A : matrix)
    (eigenvalues : list complex) (eigenvectors : list (list complex)) : Prop :=
  exists k lam col,
    np_argmax (re <$> eigenvalues) = Some k /\
    eigenvalues !! k = Some lam /\
    column eigenvectors k = Some col /\
    length col = nrows A /\
    mat_vec A (re <$> col) = Rmult (re lam) <$> (re <$> col) /\
    Exists (fun c => c <> 0) (re <$> col).

(** The Perron root of [A], the eigenvalue of a strictly positive
    eigenvector (one exists for every positive matrix, by the theorem of
    Perron and Frobenius), is among the eigenvalues returned. *)
Definition reports_perron_root (A : matrix) (eigenvalues : list complex) : Prop :=
  exists k rho w,
    (re <$> eigenvalues) !! k = Some rho /\
    length w = nrows A /\ Forall (fun c => 0 < c) w /\
    mat_vec A w = Rmult rho <$> w.

(** The column norms the code computes: entry [j] is the Euclidean norm
    of column [j]. *)
Definition col_norms (M : matrix) : vector :=
  sqrt <$> np_sum_axis0 (np_square M).

(** The tag a criterion is treated as. *)
Definition canonical_tag (tag : string) : string :=
  if bool_decide (lower tag = "benefit"%string)
  then "benefit"%string else "cost"%string.

(** What numpy documents for [np.argsort] with the default [kind]
    (quicksort, not stable): the result lists every position once, and the
    values taken in that order ascend. *)
Definition argsort_contract (argsort : list R -> list nat) : Prop :=
  forall v,
    Permutation (argsort v) (seq 0 (length v)) /\
    forall a b i j x y, (a < b)%nat ->
      argsort v !! a = Some i -> argsort v !! b = Some j ->
      v !! i = Some x -> v !! j = Some y -> x <= y.

(** [x] lies within the bounds [(lower, upper)] of its variable. *)
Definition in_bounds (x : R) (b : option R * option R) : Prop :=
  match b.1 with Some lo => lo <= x | None => True end /\
  match b.2 with Some hi => x <= hi | None => True end.

(** [x] satisfies [A_ub @ x <= b_ub] and the bounds. *)
Definition lp_feasible (lp : lp_problem) (x : vector) : Prop :=
  length x = length (lp_c lp) /\
  Forall2 (fun row b => dot row x <= b) (lp_A_ub lp) (lp_b_ub lp) /\
  Forall2 in_bounds x (lp_bounds lp).

(** [x] is feasible and minimizes [c @ x]. *)
Definition lp_optimal (lp : lp_problem) (x : vector) : Prop :=
  lp_feasible lp x /\
  forall x', lp_feasible lp x' -> dot (lp_c lp) x <= dot (lp_c lp) x'.

(** [linprog] succeeds on [lp] with an optimum. *)
Definition linprog_solves (linprog : lp_problem -> option lp_result)
    (lp : lp_problem) : Prop :=
  exists res, linprog lp = Some res /\ lp_success res = true /\
              lp_optimal lp (lp_x res).

(** The shape of what [dea_efficiency] returns: either the dict of a
    failed solve, or a dict whose efficiency, raw value and flag are set,
    the flag being the [np.isclose] test of the efficiency. *)
Definition solved_result (orientation : string) (r : dea_result) : Prop :=
  exists e s, dr_efficiency r = Some e /\
    dr_scale r = (scale_key orientation, Some s) /\
    dr_is_efficient r = Some (np_isclose e 1.0 default_rtol 1e-6).

(** What the sweep needs of [linprog] on the program of DMU [i]: it
    returns, and a solution has one value per variable. *)
Definition linprog_answers (linprog : lp_problem -> option lp_result)
    (inputs outputs : matrix) (orientation : string) (i : nat) : Prop :=
  forall lp, dea_lp inputs outputs i orientation = Some lp ->
    exists res, linprog lp = Some res /\
      (lp_success res = true -> length (lp_x res) = S (nrows inputs)).

(** The names the sweep uses. *)
Definition dmu_names_used (n_dmus : nat) (dmu_names : option (list string))
    : list string :=
  default ((fun i : nat => ("DMU_" +:+ pretty i)%string) <$> seq 0 n_dmus)
          dmu_names.

(** An index Python accepts for an axis of length [n]. *)
Definition index_in_range (n : Z) (i : Z) : Prop := (- n <= i < n)%Z.

(** An item the loop of [create_comparison_matrix] gets through: a
    diagonal key is skipped, any other key needs both indices in range and
    a value that [1 / value] can be taken of. *)
Definition judgment_accepted (n : Z) (item : (Z * Z) * R) : Prop :=
  item.1.1 = item.1.2 \/
  (index_in_range n item.1.1 /\ index_in_range n item.1.2 /\ item.2 <> 0).

(** The intensity vector that selects DMU [i] alone: 1 at position [i], 0
    elsewhere. *)
Definition unit_vector (n i : nat) : vector := <[i := 1]> (replicate n 0).

(** What the range of the efficiency needs of [linprog] on the program of
    DMU [i]: a solution it reports satisfies the constraints and the
    bounds it was given. *)
Definition linprog_feasible_answers (linprog : lp_problem -> option lp_result)
    (inputs outputs : matrix) (orientation : string) (i : nat) : Prop :=
  forall lp res, dea_lp inputs outputs i orientation = Some lp ->
    linprog lp = Some res -> lp_success res = true ->
    lp_feasible lp (lp_x res).

(** The entry [dea_efficiency_all] stores for an inefficient DMU whose
    current row is [current] and whose raw LP value is [s]. *)
Definition improvement_entry (orientation : string) (current : vector) (s : R)
    : improvement :=
  if bool_decide (orientation = "output"%string) then
    OutputTargets current ((fun y => y * s) <$> current)
      (zip_with Rminus ((fun y => y * s) <$> current) current)
      ((s - 1) * 100)
  else
    InputTargets current ((fun x => x * s) <$> current)
      (zip_with Rminus current ((fun x => x * s) <$> current))
      ((1 - s) * 100).

(** The real number a machine number holds.  A finite [float64] with sign
    [s], mantissa [m] and exponent [e] holds [(-1)^s * m * 2^e], written
    here as a ratio of two integers; an infinity and a [nan] hold none. *)
Definition spec_float_ratio (x : SpecFloat.spec_float) : option (Z * Z) :=
  match x with
  | SpecFloat.S754_zero _ => Some (0, 1)%Z
  | SpecFloat.S754_finite s m e =>
      let n := if s then Z.neg m else Z.pos m in
      if (0 <=? e)%Z then Some (n * 2 ^ e, 1)%Z else Some (n, 2 ^ (- e))%Z
  | _ => None
  end.

Definition float_ratio (x : float) : option (Z * Z) :=
  spec_float_ratio (FloatOps.Prim2SF x).

Definition float64_value (x : float) : option R :=
  (fun q : Z * Z => IZR q.1 / IZR q.2) <$> float_ratio x.

Definition int64_value (z : Z) : option R := Some (IZR z).

Definition real_value (x : R) : option R := Some x.

(** The IEEE datum of every entry of a [float64] array. *)
Definition float64_data (M : list (list float))
    : list (list SpecFloat.spec_float) :=
  map (map FloatOps.Prim2SF) M.

(** An array whose entries hold the entries of a real matrix. *)
Definition represents {T} (val : T -> option R) (M : list (list T))
    (A : matrix) : Prop :=
  Forall2 (Forall2 (fun x v => val x = Some v)) M A.

(** A machine operation is exact at its arguments: the result holds the
    result of the real operation on the numbers the arguments hold (it is
    not rounded, does not overflow, underflow or wrap around). *)
Definition exact_unop {X Y} (vx : X -> option R) (vy : Y -> option R)
    (f : X -> Y) (g : R -> R) (x : X) : Prop :=
  forall u, vx x = Some u -> vy (f x) = Some (g u).

Definition exact_binop {X Y Z} (vx : X -> option R) (vy : Y -> option R)
    (vz : Z -> option R) (f : X -> Y -> Z) (g : R -> R -> R)
    (x : X) (y : Y) : Prop :=
  forall u v, vx x = Some u -> vy y = Some v -> vz (f x y) = Some (g u v).

Section Exact_evaluation.

Context {E F : Type}.
Variable ops : dtype_ops E F.
Variable valE : E -> option R.
Variable valF : F -> option R.

(** Every addition of [np.sum(rows, axis=0)], started from [acc], is
    exact. *)
Fixpoint exact_sum (acc : list E) (rows : list (list E)) : Prop :=
  match rows with
  | [] => True
  | row :: rows =>
      Forall (fun p => exact_binop valE valE valE (op_add ops) Rplus p.1 p.2)
             (zip acc row)
      /\ exact_sum (zip_with (op_add ops) acc row) rows
  end.

(** Every operation [normalize_matrix] performs on [M] is exact: the
    squares, the additions of the column sums, the square roots, the
    comparisons with 0 and the quotients; and the dtype's 0 and 1 are the
    numbers 0 and 1. *)
Definition exact_normalization (M : list (list E)) : Prop :=
  let squares := np_square_in ops M in
  let sums := np_sum_axis0_in ops squares in
  let roots := op_sqrt ops <$> sums in
  let col_norms := where_zero_one_in ops roots in
  valE (op_zero ops) = Some 0 /\ valF (op_one ops) = Some 1 /\
  Forall (Forall (fun x => exact_binop valE valE valE (op_mul ops) Rmult x x))
         M /\
  exact_sum (replicate (length (hd [] squares)) (op_zero ops)) squares /\
  Forall (exact_unop valE valF (op_sqrt ops) sqrt) sums /\
  Forall (fun x => forall u, valF x = Some u ->
                     op_is_zero ops x = bool_decide (u = 0)) roots /\
  Forall (fun row =>
            Forall (fun p => exact_binop valE valF valF (op_div ops) Rdiv
                               p.1 p.2)
                   (zip row col_norms)) M.

(** Every product of the re-scaling of column [j] by [k] is exact. *)
Definition exact_scaling (j : nat) (k : E) (M : list (list E)) : Prop :=
  Forall (fun row => forall x, row !! j = Some x ->
            exact_binop valE valE valE (op_mul ops) Rmult k x) M.

End Exact_evaluation.

(* ================================================================== *)
(** * Properties: arrays *)
(* ================================================================== *)

Lemma py_index_nonneg len i :
  (0 <= i < Z.of_nat len)%Z -> py_index len i = Some (Z.to_nat i).
Proof.
  intros Hi. unfold py_index. rewrite bool_decide_eq_true_2; auto.
Qed.

Lemma py_index_of_nat len a :
  (a < len)%nat -> py_index len (Z.of_nat a) = Some a.
Proof.
  intros Ha. rewrite py_index_nonneg by lia. f_equal. lia.
Qed.

Lemma entry_insert (M : matrix) a b v row a' b' :
  M !! a = Some row -> (b < length row)%nat ->
  entry (<[a := <[b := v]> row]> M) a' b' =
  if bool_decide (a' = a /\ b' = b) then Some v else entry M a' b'.
Proof.
  intros Hrow Hb. unfold entry.
  assert (Ha : (a < length M)%nat) by (eapply lookup_lt_Some; eauto).
  destruct (decide (a' = a)) as [->|Hne].
  - rewrite list_lookup_insert_eq by done. simpl. rewrite Hrow. simpl.
    destruct (decide (b' = b)) as [->|Hne].
    + rewrite list_lookup_insert_eq by done.
      rewrite bool_decide_eq_true_2; auto.
    + rewrite list_lookup_insert_ne by done.
      rewrite bool_decide_eq_false_2; [done | intros [_ ?]; done].
  - rewrite list_lookup_insert_ne by done.
    rewrite bool_decide_eq_false_2; [done | intros [? _]; done].
Qed.

Lemma mat_get_entry (M : matrix) c i j :
  rectangular c M ->
  (0 <= i < Z.of_nat (nrows M))%Z -> (0 <= j < Z.of_nat c)%Z ->
  mat_get M i j = entry M (Z.to_nat i) (Z.to_nat j).
Proof.
  intros Hrect Hi Hj. unfold mat_get, entry.
  rewrite py_index_nonneg by done. simpl.
  destruct (M !! Z.to_nat i) as [row|] eqn:Hrow; [|done]. simpl.
  assert (length row = c) as Hlen.
  { eapply (proj1 (Forall_lookup _ _) Hrect); eauto. }
  rewrite py_index_nonneg by (rewrite Hlen; done). done.
Qed.

(* ================================================================== *)
(** * Properties: building the comparison matrix *)
(* ================================================================== *)

Lemma np_ones_inv (n : nat) :
  exists M, np_ones (Z.of_nat n) = Some M /\ comparison_matrix_inv n M /\
            forall a b, (a < n)%nat -> (b < n)%nat -> entry M a b = Some 1.
Proof.
  unfold np_ones. rewrite bool_decide_eq_false_2 by lia.
  rewrite Nat2Z.id. eexists; split; [reflexivity|].
  assert (Hent : forall a b, (a < n)%nat -> (b < n)%nat ->
            entry (replicate n (replicate n 1)) a b = Some 1).
  { intros a b Ha Hb. unfold entry.
    rewrite lookup_replicate_2 by done. simpl.
    by rewrite lookup_replicate_2. }
  split; [|done].
  repeat split.
  - unfold nrows. by rewrite length_replicate.
  - apply Forall_replicate. by rewrite length_replicate.
  - intros a Ha. by apply Hent.
  - intros a b Ha Hb. exists 1. rewrite !Hent by done.
    repeat split; [lra|]. f_equal. lra.
Qed.

Lemma mat_set_in_range n (M : matrix) (a b : nat) v :
  nrows M = n -> rectangular n M -> (a < n)%nat -> (b < n)%nat ->
  exists M', mat_set M (Z.of_nat a) (Z.of_nat b) v = Some M' /\
    nrows M' = n /\ rectangular n M' /\
    forall a' b', entry M' a' b' =
      if bool_decide (a' = a /\ b' = b) then Some v else entry M a' b'.
Proof.
  intros Hn Hrect Ha Hb. unfold mat_set, nrows in *.
  rewrite py_index_of_nat by lia. simpl.
  destruct (lookup_lt_is_Some_2 M a) as [row Hrow]; [lia|].
  rewrite Hrow. simpl.
  assert (length row = n) as Hlen.
  { eapply (proj1 (Forall_lookup _ _) Hrect); eauto. }
  rewrite py_index_of_nat by lia. simpl.
  eexists; split; [reflexivity|]. repeat split.
  - by rewrite length_insert.
  - apply Forall_insert; [done|]. by rewrite length_insert.
  - intros a' b'. apply entry_insert; [done|lia].
Qed.

Lemma comparison_step_inv n M (i j : Z) v :
  comparison_matrix_inv n M -> judgment_ok n ((i, j), v) ->
  exists M', comparison_step M ((i, j), v) = Some M' /\
    comparison_matrix_inv n M' /\ placed M M' (Z.to_nat i) (Z.to_nat j) v.
Proof.
  intros (Hn & Hrect & Hdiag & Hpos) (Hi & Hj & Hij & Hv).
  set (a := Z.to_nat i). set (b := Z.to_nat j).
  assert (Ha : (a < n)%nat) by lia. assert (Hb : (b < n)%nat) by lia.
  assert (Hab : a <> b) by lia.
  destruct (mat_set_in_range n M a b v Hn Hrect Ha Hb)
    as (M1 & HM1 & Hn1 & Hrect1 & Hent1).
  destruct (mat_set_in_range n M1 b a (1 / v) Hn1 Hrect1 Hb Ha)
    as (M2 & HM2 & Hn2 & Hrect2 & Hent2).
  assert (Hstep : comparison_step M ((i, j), v) = Some M2).
  { assert (Hbody : (M1 ← mat_set M i j v; r ← py_div 1 v; mat_set M1 j i r)
                    = Some M2).
    { replace i with (Z.of_nat a) by lia. replace j with (Z.of_nat b) by lia.
      rewrite HM1. simpl. unfold py_div.
      rewrite bool_decide_eq_false_2 by lra. simpl. exact HM2. }
    unfold comparison_step.
    destruct (bool_decide (i < j)%Z) eqn:Hlt; [exact Hbody|].
    rewrite bool_decide_eq_true_2; [exact Hbody|].
    apply bool_decide_eq_false_1 in Hlt. lia. }
  assert (Hpl : placed M M2 a b v).
  { intros a' b'. rewrite Hent2. case_bool_decide; [done|]. apply Hent1. }
  exists M2. split; [done|]. split; [|done].
  repeat split; try done.
  - intros c Hc. rewrite Hpl.
    rewrite bool_decide_eq_false_2 by lia.
    rewrite bool_decide_eq_false_2 by lia. by apply Hdiag.
  - intros c d Hc Hd. rewrite (Hpl c d), (Hpl d c).
    destruct (decide (c = b /\ d = a)) as [[-> ->]|Hn1'].
    + rewrite bool_decide_eq_true_2 by done.
      rewrite bool_decide_eq_false_2 by lia.
      rewrite bool_decide_eq_true_2 by done.
      exists (1 / v). repeat split.
      * apply Rdiv_lt_0_compat; lra.
      * f_equal. field. lra.
    + rewrite bool_decide_eq_false_2 by done.
      destruct (decide (c = a /\ d = b)) as [[-> ->]|Hn2'].
      * rewrite bool_decide_eq_true_2 by done.
        rewrite bool_decide_eq_true_2 by done.
        exists v. by repeat split.
      * rewrite bool_decide_eq_false_2 by done.
        rewrite bool_decide_eq_false_2 by tauto.
        rewrite bool_decide_eq_false_2 by tauto.
        by apply Hpos.
Qed.

(** The loop over the judgments, from any matrix that satisfies the
    invariants: it never raises, keeps the invariants, leaves alone the
    entries no judgment addresses, and an entry addressed by exactly one
    judgment (the reverse pair is absent) holds that judgment. *)
Lemma comparison_loop_inv n (comparisons : list ((Z * Z) * R)) :
  forall M, comparison_matrix_inv n M ->
  Forall (judgment_ok n) comparisons ->
  NoDup (comparisons.*1) ->
  exists M', for_each comparison_step M comparisons = Some M' /\
    comparison_matrix_inv n M' /\
    (forall a b : nat,
       (forall i j v, ((i, j), v) ∈ comparisons ->
          ~ (Z.to_nat i = a /\ Z.to_nat j = b) /\
          ~ (Z.to_nat j = a /\ Z.to_nat i = b)) ->
       entry M' a b = entry M a b) /\
    (forall i j v, ((i, j), v) ∈ comparisons ->
       (forall v', ((j, i), v') ∉ comparisons) ->
       entry M' (Z.to_nat i) (Z.to_nat j) = Some v /\
       entry M' (Z.to_nat j) (Z.to_nat i) = Some (1 / v)).
Proof.
  induction comparisons as [|[[i0 j0] v0] rest IH]; intros M Hinv Hok Hnd.
  - exists M. simpl. split; [done|]. split; [done|]. split; [done|].
    intros i j v Hin. by apply elem_of_nil in Hin.
  - apply Forall_cons in Hok as [Hok0 Hok].
    rewrite fmap_cons in Hnd. apply NoDup_cons in Hnd as [Hfresh Hnd].
    destruct (comparison_step_inv n M i0 j0 v0 Hinv Hok0)
      as (M1 & Hstep & Hinv1 & Hpl).
    destruct (IH M1 Hinv1 Hok Hnd) as (M' & Hloop & Hinv' & Hframe & Hput).
    exists M'. cbn [for_each]. rewrite Hstep. simpl.
    split; [done|]. split; [done|].
    assert (Hkeep : forall a b : nat,
      (forall i j v, ((i, j), v) ∈ rest ->
          ~ (Z.to_nat i = a /\ Z.to_nat j = b) /\
          ~ (Z.to_nat j = a /\ Z.to_nat i = b)) ->
      ~ (Z.to_nat i0 = a /\ Z.to_nat j0 = b) ->
      ~ (Z.to_nat j0 = a /\ Z.to_nat i0 = b) ->
      entry M' a b = entry M a b).
    { intros a b Hrest H1 H2. rewrite Hframe by done. rewrite Hpl.
      rewrite bool_decide_eq_false_2 by (intros [-> ->]; by apply H2).
      rewrite bool_decide_eq_false_2 by (intros [-> ->]; by apply H1). done. }
    split.
    + intros a b Hnone. apply Hkeep.
      * intros i j v Hin. apply (Hnone i j v). by right.
      * apply (Hnone i0 j0 v0). by left.
      * apply (Hnone i0 j0 v0). by left.
    + intros i j v Hin Hrev. apply elem_of_cons in Hin as [Heq|Hin].
      * inversion Heq; subst i0 j0 v0. clear Heq.
        destruct Hok0 as (Hi & Hj & Hij & Hv).
        assert (Huntouched : forall i' j' v', ((i', j'), v') ∈ rest ->
                  ~ (i' = i /\ j' = j) /\ ~ (i' = j /\ j' = i)).
        { intros i' j' v' Hin'. split; intros [-> ->].
          - apply Hfresh. apply list_elem_of_fmap. by exists ((i, j), v').
          - apply (Hrev v'). by right. }
        assert (Hrange : forall i' j' v', ((i', j'), v') ∈ rest ->
                  (0 <= i')%Z /\ (0 <= j')%Z).
        { intros i' j' v' Hin'.
          apply (proj1 (Forall_forall _ _) Hok) in Hin'.
          destruct Hin' as (? & ? & _). lia. }
        split.
        -- rewrite Hframe.
           ++ rewrite Hpl. rewrite bool_decide_eq_false_2 by lia.
              by rewrite bool_decide_eq_true_2.
           ++ intros i' j' v' Hin'.
              destruct (Huntouched _ _ _ Hin'), (Hrange _ _ _ Hin').
              split; intros [? ?]; [apply H|apply H0]; split; lia.
        -- rewrite Hframe.
           ++ rewrite Hpl. by rewrite bool_decide_eq_true_2.
           ++ intros i' j' v' Hin'.
              destruct (Huntouched _ _ _ Hin'), (Hrange _ _ _ Hin').
              split; intros [? ?]; [apply H0|apply H]; split; lia.
      * apply Hput; [done|]. intros v' Hin'. apply (Hrev v'). by right.
Qed.

(** C6 (as amended).  For judgments with strictly positive values over
    pairs [(i, j)], [i <> j], whose indices lie in [0, n), the builder
    returns an [n]x[n] matrix with unit diagonal, strictly positive entries
    and reciprocal symmetry; and every supplied pair whose reverse pair is
    not supplied as well sits at [(i, j)] with [1 / value] at [(j, i)]. *)
Theorem create_comparison_matrix_spec
    (comparisons : list ((Z * Z) * R)) (n : nat) :
  NoDup (comparisons.*1) ->
  Forall (judgment_ok n) comparisons ->
  exists M, create_comparison_matrix comparisons (Z.of_nat n) = Some M /\
    nrows M = n /\ rectangular n M /\
    (forall a, (a < n)%nat -> entry M a a = Some 1) /\
    (forall a b, (a < n)%nat -> (b < n)%nat ->
       exists x, entry M a b = Some x /\ 0 < x /\ entry M b a = Some (1 / x)) /\
    (forall i j v, ((i, j), v) ∈ comparisons ->
       (forall v', ((j, i), v') ∉ comparisons) ->
       mat_get M i j = Some v /\ mat_get M j i = Some (1 / v)).
Proof.
  intros Hnd Hok. unfold create_comparison_matrix.
  destruct (np_ones_inv n) as (M0 & Hones & Hinv0 & _).
  rewrite Hones. simpl.
  destruct (comparison_loop_inv n comparisons M0 Hinv0 Hok Hnd)
    as (M & Hloop & (Hn & Hrect & Hdiag & Hpos) & _ & Hput).
  exists M. split; [done|]. split; [done|]. split; [done|].
  split; [done|]. split; [done|].
  intros i j v Hin Hrev. destruct (Hput i j v Hin Hrev) as [Hij Hji].
  apply (proj1 (Forall_forall _ _) Hok) in Hin. destruct Hin as (Hi & Hj & _).
  rewrite !(mat_get_entry M n) by (rewrite ?Hn; done). done.
Qed.

Lemma create_comparison_matrix_spec_witness :
  exists M, create_comparison_matrix [((0, 1)%Z, 3); ((0, 2)%Z, 2); ((1, 2)%Z, 1 / 2)]
              (Z.of_nat 3) = Some M /\
    nrows M = 3%nat /\ rectangular 3 M /\
    (forall a, (a < 3)%nat -> entry M a a = Some 1) /\
    (forall a b, (a < 3)%nat -> (b < 3)%nat ->
       exists x, entry M a b = Some x /\ 0 < x /\ entry M b a = Some (1 / x)) /\
    (forall i j v,
       ((i, j), v) ∈ [((0, 1)%Z, 3); ((0, 2)%Z, 2); ((1, 2)%Z, 1 / 2)] ->
       (forall v', ((j, i), v') ∉
          [((0, 1)%Z, 3); ((0, 2)%Z, 2); ((1, 2)%Z, 1 / 2)]) ->
       mat_get M i j = Some v /\ mat_get M j i = Some (1 / v)).
Proof.
  apply create_comparison_matrix_spec.
  - apply (bool_decide_unpack _). by vm_compute.
  - repeat (apply Forall_cons; split; [unfold judgment_ok; repeat split; (lia || lra)|]).
    apply Forall_nil_2.
Defined.

(** C6 (as stated) fails.  When a pair and its reverse are both supplied
    the later judgment overwrites the earlier one, so the earlier pair is
    not at its entry; and a pair outside [0, n) makes the builder raise
    instead of returning a matrix. *)
Lemma create_comparison_matrix_counterexample :
  (NoDup ([((0, 1)%Z, 3); ((1, 0)%Z, 5)].*1) /\
   Forall (fun item : (Z * Z) * R => item.1.1 <> item.1.2 /\ 0 < item.2)
          [((0, 1)%Z, 3); ((1, 0)%Z, 5)] /\
   create_comparison_matrix [((0, 1)%Z, 3); ((1, 0)%Z, 5)] 2
     = Some [[1; 1 / 5]; [5; 1]] /\
   mat_get [[1; 1 / 5]; [5; 1]] 0 1 <> Some 3) /\
  create_comparison_matrix [((0, 1)%Z, 3)] 1 = None.
Proof.
  split; [split; [|split; [|split]]|].
  - apply (bool_decide_unpack _). by vm_compute.
  - repeat (apply Forall_cons; split; [simpl; split; (lia || lra)|]).
    apply Forall_nil_2.
  - unfold create_comparison_matrix, py_div. simpl.
    unfold py_div. rewrite !bool_decide_eq_false_2 by lra. reflexivity.
  - simpl. intros Heq. inversion Heq. lra.
  - reflexivity.
Qed.

(* ================================================================== *)
(** * Properties: the consistency ratio *)
(* ================================================================== *)

Lemma RANDOM_INDEX_beyond_table (n : nat) :
  (10 < n)%nat -> RANDOM_INDEX !! n = None.
Proof.
  intros Hn. unfold RANDOM_INDEX. simpl.
  rewrite !lookup_insert_ne by lia. apply lookup_empty.
Qed.

(** C2.  Whenever the weights are computed, [ahp_consistency_ratio]
    returns; RI is the table value for the size of the matrix (1.49 for a
    size beyond 10), CR is CI / RI when RI > 0 and 0 when RI = 0, and the
    matrix is reported consistent exactly when CR < 0.10. *)
Theorem ahp_consistency_ratio_spec
    (eig : list (list R) -> option eig_result) (format_4f : R -> string)
    (A : matrix) (w : vector) (lambda_max ci : R) :
  ahp_weights eig A = Some (w, lambda_max, ci) ->
  exists r, ahp_consistency_ratio eig format_4f A = Some r /\
    cr_weights r = w /\ cr_lambda_max r = lambda_max /\ cr_ci r = ci /\
    (nrows A = 1%nat -> cr_ri r = 0.00) /\
    (nrows A = 2%nat -> cr_ri r = 0.00) /\
    (nrows A = 3%nat -> cr_ri r = 0.58) /\
    (nrows A = 4%nat -> cr_ri r = 0.90) /\
    (nrows A = 5%nat -> cr_ri r = 1.12) /\
    (nrows A = 6%nat -> cr_ri r = 1.24) /\
    (nrows A = 7%nat -> cr_ri r = 1.32) /\
    (nrows A = 8%nat -> cr_ri r = 1.41) /\
    (nrows A = 9%nat -> cr_ri r = 1.45) /\
    (nrows A = 10%nat -> cr_ri r = 1.49) /\
    ((10 < nrows A)%nat -> cr_ri r = 1.49) /\
    (cr_ri r > 0 -> cr_cr r = ci / cr_ri r) /\
    (cr_ri r = 0 -> cr_cr r = 0) /\
    (cr_is_consistent r = true <-> cr_cr r < 0.10).
Proof.
  intros Hw. unfold ahp_consistency_ratio. rewrite Hw. simpl.
  eexists; split; [reflexivity|]. simpl.
  split; [done|]. split; [done|]. split; [done|].
  repeat (split; [intros ->; reflexivity|]).
  split; [intros Hn; by rewrite RANDOM_INDEX_beyond_table|].
  split; [intros Hri; by rewrite bool_decide_eq_true_2|].
  split.
  - intros Hri. rewrite bool_decide_eq_false_2; [done|]. rewrite Hri. lra.
  - apply bool_decide_eq_true.
Qed.

(** Settles every [bool_decide] over concrete reals or integers in the
    goal. *)
Ltac decide_concrete :=
  repeat match goal with
    | |- context [bool_decide ?P] =>
        first [ rewrite (bool_decide_eq_true_2 P) by (lra || lia)
              | rewrite (bool_decide_eq_false_2 P) by (lra || lia) ]
    end.

Lemma ahp_weights_ones3 :
  ahp_weights eig_ones3 [[1; 1; 1]; [1; 1; 1]; [1; 1; 1]]
  = Some ([1 / (1 + (1 + (1 + 0))); 1 / (1 + (1 + (1 + 0)));
           1 / (1 + (1 + (1 + 0)))], 3, (3 - INR 3) / (INR 3 - 1)).
Proof.
  unfold ahp_weights, eig_ones3. cbn -[INR Rdiv].
  decide_concrete. cbn -[INR Rdiv]. decide_concrete. reflexivity.
Qed.

Lemma ahp_consistency_ratio_spec_witness :
  exists r, ahp_consistency_ratio eig_ones3 (fun _ => "0.0000"%string)
              [[1; 1; 1]; [1; 1; 1]; [1; 1; 1]] = Some r /\
    cr_ri r = 0.58 /\ cr_cr r = 0 /\ cr_is_consistent r = true.
Proof.
  destruct (ahp_consistency_ratio_spec eig_ones3 (fun _ => "0.0000"%string)
              [[1; 1; 1]; [1; 1; 1]; [1; 1; 1]] _ _ _ ahp_weights_ones3)
    as (r & Hr & _ & _ & Hci & _ & _ & H3 & _ & _ & _ & _ & _ & _ & _ & _
        & Hcr & _ & Hcons).
  exists r. split; [exact Hr|].
  assert (Hri : cr_ri r = 0.58) by (apply H3; reflexivity).
  assert (Hcr0 : cr_cr r = 0).
  { rewrite Hcr by (rewrite Hri; lra). simpl. rewrite Hri. lra. }
  split; [exact Hri|]. split; [exact Hcr0|].
  apply Hcons. rewrite Hcr0. lra.
Defined.

(* ================================================================== *)
(** * Properties: the sensitivity analysis leaves its input alone *)
(* ================================================================== *)

Lemma keeps_ret {A} h0 (a : A) (Q : A -> Prop) : Q a -> keeps h0 (mret a) Q.
Proof. intros HQ h Hh. split; [done|]. simpl. by intros ? [= <-]. Qed.

Lemma keeps_lift {A} h0 (o : option A) : keeps h0 (py_lift o) (fun _ => True).
Proof. intros h Hh. by split. Qed.

Lemma keeps_bind {A B} h0 (m : Py A) (k : A -> Py B) Q Q' :
  keeps h0 m Q -> (forall a, Q a -> keeps h0 (k a) Q') ->
  keeps h0 (m ≫= k) Q'.
Proof.
  intros Hm Hk h Hh. destruct (Hm h Hh) as [Hsub HQ].
  unfold mbind, Py_bind, py_bind. destruct (m h) as [h1 [a|]] eqn:Hmh.
  - simpl in *. apply Hk; [by apply HQ|done].
  - simpl in *. by split.
Qed.

Lemma keeps_weaken {A} h0 (m : Py A) (Q Q' : A -> Prop) :
  keeps h0 m Q -> (forall a, Q a -> Q' a) -> keeps h0 m Q'.
Proof.
  intros Hm HQ h Hh. destruct (Hm h Hh) as [? ?]. split; [done|]. auto.
Qed.

Lemma keeps_read h0 a : keeps h0 (arr_read a) (fun _ => True).
Proof. intros h Hh. by split. Qed.

Lemma keeps_get h0 a i j : keeps h0 (arr_get a i j) (fun _ => True).
Proof. intros h Hh. by split. Qed.

(** The copy is a new array: it is none of the caller's. *)
Lemma keeps_copy h0 a : keeps h0 (np_copy a) (fun a' => h0 !! a' = None).
Proof.
  intros h Hh. unfold np_copy. destruct (h !! a) as [contents|]; simpl.
  - assert (Hfresh : h !! fresh (dom h) = None).
    { apply not_elem_of_dom. apply is_fresh. }
    split.
    + etrans; [exact Hh|]. by apply insert_subseteq.
    + intros a' [= <-]. eapply lookup_weaken_None; eauto.
  - by split.
Qed.

(** A write into an array that is not the caller's. *)
Lemma keeps_set h0 a i j v :
  h0 !! a = None -> keeps h0 (arr_set a i j v) (fun _ => True).
Proof.
  intros Ha h Hh. unfold arr_set.
  destruct (h !! a ≫= _) as [contents'|]; simpl; [|by split].
  split; [|done]. by apply insert_subseteq_r.
Qed.

Lemma keeps_for {S A} h0 (body : S -> A -> Py S) (items : list A) :
  (forall s x, keeps h0 (body s x) (fun _ => True)) ->
  forall s, keeps h0 (py_for body s items) (fun _ => True).
Proof.
  intros Hbody. induction items as [|x rest IH]; intros s; simpl.
  - by apply keeps_ret.
  - eapply keeps_bind; [apply Hbody|]. intros s' _. apply IH.
Qed.

Lemma vary_judgment_keeps eig f4 f2 h0 cm i j original base vars factor :
  keeps h0 (vary_judgment eig f4 f2 cm i j original base vars factor)
        (fun _ => True).
Proof.
  unfold vary_judgment.
  eapply keeps_bind; [apply keeps_copy|]. intros varied Hvaried. simpl.
  eapply keeps_bind; [by apply keeps_set|]. intros _ _.
  eapply keeps_bind; [by apply keeps_set|]. intros _ _.
  eapply keeps_bind; [apply keeps_read|]. intros contents _.
  eapply keeps_bind; [apply keeps_lift|]. intros varied_result _.
  eapply keeps_bind; [apply keeps_lift|]. intros weight_change _.
  by apply keeps_ret.
Qed.

(** What one perturbation does: the perturbed matrix is stored in a new
    array and the caller's heap is otherwise as it was. *)
Lemma vary_judgment_effect eig f4 f2 (h : heap) cm i j original base vars
    factor A A1 A2 r change :
  h !! cm = Some A ->
  mat_set A i j (original * factor) = Some A1 ->
  mat_set A1 j i (1 / (original * factor)) = Some A2 ->
  ahp_consistency_ratio eig f4 A2 = Some r ->
  np_binop Rminus (cr_weights r) base = Some change ->
  vary_judgment eig f4 f2 cm i j original base vars factor h
  = (<[fresh (dom h) := A2]> h,
     Some (<[variation_key f2 i j factor :=
              {| var_new_value := original * factor;
                 var_weights := cr_weights r;
                 var_weight_change := change;
                 var_cr := cr_cr r;
                 var_is_consistent := cr_is_consistent r |}]> vars)).
Proof.
  intros HA H1 H2 Hr Hchange.
  unfold vary_judgment, mbind, Py_bind, py_bind, np_copy, arr_set, arr_read,
    py_lift, mret, Py_ret, py_ret.
  rewrite HA. rewrite lookup_insert_eq. cbn [mbind option_bind]. rewrite H1.
  rewrite insert_insert_eq, lookup_insert_eq. cbn [mbind option_bind].
  rewrite H2. rewrite insert_insert_eq, lookup_insert_eq.
  rewrite Hr, Hchange. reflexivity.
Qed.

Lemma ahp_sensitivity_analysis_keeps eig f4 f2 h0 cm vary_indices range :
  keeps h0 (ahp_sensitivity_analysis eig f4 f2 cm vary_indices range)
        (fun _ => True).
Proof.
  unfold ahp_sensitivity_analysis.
  eapply keeps_bind; [apply keeps_read|]. intros contents _.
  eapply keeps_bind; [apply keeps_lift|]. intros base_result _. simpl.
  eapply keeps_bind.
  - apply keeps_for. intros vars [i j].
    eapply keeps_bind; [apply keeps_get|]. intros original _.
    apply (keeps_for h0 (vary_judgment eig f4 f2 cm i j original _)
             [1 - range; 1 + range]).
    intros vars' factor. apply vary_judgment_keeps.
  - intros vars _. by apply keeps_ret.
Qed.

(** C9.  [ahp_sensitivity_analysis] does not mutate its input: whatever
    the pairs and the range, and whether it returns or raises, every array
    that existed before the call, the base comparison matrix among them,
    holds afterwards the entries it held before; all writes go to copies. *)
Theorem ahp_sensitivity_analysis_input_unchanged
    (eig : list (list R) -> option eig_result) (format_4f format_2f : R -> string)
    (h : heap) (comparison_matrix : nat) (vary_indices : list (Z * Z))
    (variation_range : R) :
  h ⊆ (ahp_sensitivity_analysis eig format_4f format_2f comparison_matrix
         vary_indices variation_range h).1 /\
  (ahp_sensitivity_analysis eig format_4f format_2f comparison_matrix
     vary_indices variation_range h).1 !! comparison_matrix
  = h !! comparison_matrix.
Proof.
  destruct (ahp_sensitivity_analysis_keeps eig format_4f format_2f h
              comparison_matrix vary_indices variation_range h) as [Hsub _];
    [done|].
  split; [exact Hsub|].
  destruct (h !! comparison_matrix) as [contents|] eqn:Hcm.
  - eapply lookup_weaken; eauto.
  - unfold ahp_sensitivity_analysis, mbind, Py_bind, py_bind, arr_read.
    by rewrite Hcm.
Qed.

(* ================================================================== *)
(** * Properties: the priority weights *)
(* ================================================================== *)

Lemma argmax_from_spec (v : vector) :
  forall best best_idx idx (seen : vector),
    length seen = idx -> seen !! best_idx = Some best ->
    (forall y, y ∈ seen -> y <= best) ->
    exists x, (seen ++ v) !! argmax_from best best_idx idx v = Some x /\
              forall y, y ∈ seen ++ v -> y <= x.
Proof.
  induction v as [|x rest IH]; intros best best_idx idx seen Hlen Hbest Hmax.
  - simpl. rewrite app_nil_r. eauto.
  - simpl. replace (seen ++ x :: rest) with ((seen ++ [x]) ++ rest)
      by (by rewrite <- app_assoc).
    case_bool_decide as Hlt.
    + apply IH.
      * rewrite length_app. simpl. lia.
      * rewrite lookup_app_r by lia. by rewrite Hlen, Nat.sub_diag.
      * intros y Hy. apply elem_of_app in Hy as [Hy|Hy].
        -- apply Hmax in Hy. lra.
        -- apply list_elem_of_singleton in Hy. subst. lra.
    + apply IH.
      * rewrite length_app. simpl. lia.
      * rewrite lookup_app_l; [done|]. by eapply lookup_lt_Some.
      * intros y Hy. apply elem_of_app in Hy as [Hy|Hy].
        -- by apply Hmax.
        -- apply list_elem_of_singleton in Hy. subst. lra.
Qed.

(** [np.argmax] returns a position that holds a largest element. *)
Lemma np_argmax_spec (v : vector) k :
  np_argmax v = Some k ->
  exists x, v !! k = Some x /\ forall y, y ∈ v -> y <= x.
Proof.
  destruct v as [|x rest]; [done|]. simpl. intros [= <-].
  apply (argmax_from_spec rest x 0%nat 1%nat [x]); [done|done|].
  intros y Hy. apply list_elem_of_singleton in Hy. subst. lra.
Qed.

Lemma np_argmax_is_Some (v : vector) :
  v <> [] -> exists k, np_argmax v = Some k /\ (k < length v)%nat.
Proof.
  destruct v as [|x rest]; [done|]. intros _. eexists. split; [done|].
  destruct (np_argmax_spec (x :: rest) _ eq_refl) as (y & Hy & _).
  by eapply lookup_lt_Some.
Qed.

Lemma dot_scale (t : R) (a w : vector) :
  dot a (Rmult t <$> w) = t * dot a w.
Proof.
  unfold dot. revert w. induction a as [|a0 a IH]; intros [|w0 w]; simpl;
    try lra. rewrite IH. lra.
Qed.

Lemma dot_opp (a v : vector) : dot a (Ropp <$> v) = - dot a v.
Proof.
  unfold dot. revert v. induction a as [|a0 a IH]; intros [|v0 v]; simpl;
    try lra. rewrite IH. lra.
Qed.

Lemma dot_le (a x y : vector) :
  Forall (fun c => 0 < c) a -> Forall2 Rle x y -> dot a x <= dot a y.
Proof.
  unfold dot. intros Ha Hxy. revert a Ha.
  induction Hxy as [|x0 y0 x y H0 Hxy IH]; intros [|a0 a] Ha; simpl; try lra.
  apply Forall_cons in Ha as [Ha0 Ha]. specialize (IH a Ha). nra.
Qed.

Lemma dot_nonneg (a x : vector) :
  Forall (fun c => 0 < c) a -> Forall (fun c => 0 <= c) x -> 0 <= dot a x.
Proof.
  unfold dot. intros Ha Hx. revert a Ha.
  induction Hx as [|x0 x H0 Hx IH]; intros [|a0 a] Ha; simpl; try lra.
  apply Forall_cons in Ha as [Ha0 Ha]. specialize (IH a Ha). nra.
Qed.

Lemma dot_pos (a x : vector) :
  Forall (fun c => 0 < c) a -> length a = length x ->
  Forall (fun c => 0 <= c) x -> Exists (fun c => 0 < c) x -> 0 < dot a x.
Proof.
  intros Ha Hlen Hx Hex. revert a Ha Hlen Hx.
  induction Hex as [x0 x H0|x0 x Hex IH]; intros [|a0 a] Ha Hlen Hx;
    try done; apply Forall_cons in Ha as [Ha0 Ha];
    apply Forall_cons in Hx as [Hx0 Hx]; unfold dot; simpl.
  - pose proof (dot_nonneg a x Ha Hx) as Hn. unfold dot in Hn. nra.
  - simpl in Hlen. assert (Hp : 0 < dot a x) by (apply IH; auto).
    unfold dot in Hp. nra.
Qed.

(** For a positive row, [|a . v| <= a . |v|], strictly so when [v] has
    entries of both signs. *)
Lemma dot_abs (a v : vector) :
  Forall (fun c => 0 < c) a -> length a = length v ->
  - dot a (Rabs <$> v) <= dot a v <= dot a (Rabs <$> v) /\
  (Exists (fun c => c < 0) v -> dot a v < dot a (Rabs <$> v)) /\
  (Exists (fun c => 0 < c) v -> - dot a (Rabs <$> v) < dot a v).
Proof.
  unfold dot. intros Ha. revert v.
  induction Ha as [|a0 a Ha0 Ha IH]; intros [|v0 v] Hlen; try done; simpl.
  - split; [split; lra|]. split; intros Hex; by apply Exists_nil in Hex.
  - simpl in Hlen. destruct (IH v) as ([Hb1 Hb2] & Hneg & Hpos); [lia|].
    change (list_fmap R R Rabs v) with (Rabs <$> v).
    assert (Habs1 : - Rabs v0 <= v0).
    { unfold Rabs. destruct (Rcase_abs v0); lra. }
    assert (Habs2 : v0 <= Rabs v0).
    { unfold Rabs. destruct (Rcase_abs v0); lra. }
    assert (Hup : a0 * v0 <= a0 * Rabs v0) by (apply Rmult_le_compat_l; lra).
    assert (Hlo : - (a0 * Rabs v0) <= a0 * v0).
    { assert (a0 * (- Rabs v0) <= a0 * v0) by (apply Rmult_le_compat_l; lra).
      lra. }
    assert (Hn0 : v0 < 0 -> a0 * v0 < a0 * Rabs v0).
    { intros H0. apply Rmult_lt_compat_l; [done|].
      unfold Rabs. destruct (Rcase_abs v0); lra. }
    assert (Hp0 : 0 < v0 -> - (a0 * Rabs v0) < a0 * v0).
    { intros H0. assert (a0 * (- Rabs v0) < a0 * v0); [|lra].
      apply Rmult_lt_compat_l; [done|].
      unfold Rabs. destruct (Rcase_abs v0); lra. }
    split; [split; lra|].
    split; intros Hex; apply Exists_cons in Hex as [H0|Hex].
    + specialize (Hn0 H0). lra.
    + specialize (Hneg Hex). lra.
    + specialize (Hp0 H0). lra.
    + specialize (Hpos Hex). lra.
Qed.

Lemma dot_abs_strict (a v : vector) :
  Forall (fun c => 0 < c) a -> length a = length v ->
  Exists (fun c => 0 < c) v -> Exists (fun c => c < 0) v ->
  Rabs (dot a v) < dot a (Rabs <$> v).
Proof.
  intros Ha Hlen Hpos Hneg. destruct (dot_abs a v Ha Hlen) as (_ & Hn & Hp).
  specialize (Hn Hneg). specialize (Hp Hpos).
  apply Rabs_def1; lra.
Qed.

Lemma comparison_matrix_positive n (A : matrix) :
  comparison_matrix_inv n A -> positive_matrix A.
Proof.
  intros (Hn & Hrect & _ & Hpos). unfold nrows in Hn.
  apply Forall_lookup. intros a row Hrow. apply Forall_lookup. intros b x Hx.
  assert (Ha : (a < n)%nat) by (rewrite <- Hn; by eapply lookup_lt_Some).
  assert (Hb : (b < n)%nat).
  { rewrite <- (proj1 (Forall_lookup _ _) Hrect a row Hrow).
    by eapply lookup_lt_Some. }
  destruct (Hpos a b Ha Hb) as (y & Hy & Hy0 & _).
  unfold entry in Hy. rewrite Hrow in Hy. simpl in Hy. congruence.
Qed.

Lemma mat_vec_lookup (A : matrix) v lam i row x :
  mat_vec A v = Rmult lam <$> v -> A !! i = Some row -> v !! i = Some x ->
  dot row v = lam * x.
Proof.
  intros Heq Hrow Hx.
  assert (H1 : mat_vec A v !! i = Some (dot row v)).
  { unfold mat_vec. by rewrite list_lookup_fmap, Hrow. }
  rewrite Heq, list_lookup_fmap, Hx in H1. simpl in H1. congruence.
Qed.

Lemma ratio_bound (v w : vector) t :
  length v = length w -> Forall (fun c => 0 < c) w ->
  (forall y, y ∈ zip_with (fun x c => Rabs x / c) v w -> y <= t) ->
  Forall2 (fun x c => Rabs x <= t * c) v w.
Proof.
  revert w. induction v as [|v0 v IH]; intros [|w0 w] Hlen Hw Hmax; try done.
  apply Forall_cons in Hw as [Hw0 Hw]. constructor.
  - assert (Hq : Rabs v0 / w0 <= t) by (apply Hmax; simpl; by left).
    replace (Rabs v0) with (Rabs v0 / w0 * w0) by (field; lra).
    apply Rmult_le_compat_r; lra.
  - apply IH; [by simplify_eq/=|done|].
    intros y Hy. apply Hmax. simpl. by right.
Qed.

(** The comparison with a positive eigenvector: an eigenvector with
    entries of both signs belongs to an eigenvalue strictly smaller in
    absolute value. *)
Lemma perron_strict (A : matrix) n (v w : vector) lam rho :
  nrows A = n -> rectangular n A -> positive_matrix A ->
  length v = n -> length w = n -> Forall (fun c => 0 < c) w ->
  mat_vec A w = Rmult rho <$> w -> mat_vec A v = Rmult lam <$> v ->
  Exists (fun c => 0 < c) v -> Exists (fun c => c < 0) v ->
  Rabs lam < rho.
Proof.
  intros Hn Hrect HA Hv Hw Hwpos Heqw Heqv Hpos Hneg. unfold nrows in Hn.
  set (q := zip_with (fun x c => Rabs x / c) v w).
  assert (Hq : q <> []).
  { intros Hq. apply Exists_exists in Hpos as (x & Hx & _).
    apply list_elem_of_lookup in Hx as [i Hi].
    destruct (lookup_lt_is_Some_2 w i) as [c Hc].
    { rewrite Hw, <- Hv. by eapply lookup_lt_Some. }
    assert (Hqi : q !! i = Some (Rabs x / c)).
    { unfold q. apply lookup_zip_with_Some. eauto. }
    by rewrite Hq in Hqi. }
  destruct (np_argmax_is_Some q Hq) as (k & Hk & _).
  destruct (np_argmax_spec q k Hk) as (t & Ht & Hmax).
  apply lookup_zip_with_Some in Ht as (vk & wk & -> & Hvk & Hwk).
  assert (Hkn : (k < n)%nat) by (rewrite <- Hv; by eapply lookup_lt_Some).
  destruct (lookup_lt_is_Some_2 A k) as [row Hrow]; [lia|].
  assert (Hrowpos : Forall (fun c => 0 < c) row).
  { eapply (proj1 (Forall_lookup _ _) HA); eauto. }
  assert (Hrowlen : length row = n).
  { eapply (proj1 (Forall_lookup _ _) Hrect); eauto. }
  assert (Hwk0 : 0 < wk).
  { eapply (proj1 (Forall_lookup _ _) Hwpos); eauto. }
  pose proof (mat_vec_lookup A v lam k row vk Heqv Hrow Hvk) as Hdv.
  pose proof (mat_vec_lookup A w rho k row wk Heqw Hrow Hwk) as Hdw.
  assert (Hstrict : Rabs (dot row v) < dot row (Rabs <$> v)).
  { apply dot_abs_strict; [done|lia|done|done]. }
  assert (Hle : dot row (Rabs <$> v) <= dot row (Rmult (Rabs vk / wk) <$> w)).
  { apply dot_le; [done|]. apply Forall2_fmap.
    apply ratio_bound; [lia|done|done]. }
  rewrite dot_scale, Hdw in Hle. rewrite Hdv, Rabs_mult in Hstrict.
  replace (Rabs vk / wk * (rho * wk)) with (rho * Rabs vk) in Hle
    by (field; lra).
  pose proof (Rabs_pos vk) as Hvk0. nra.
Qed.

Lemma nonneg_eigenvector_positive (A : matrix) n (v : vector) lam :
  nrows A = n -> rectangular n A -> positive_matrix A -> length v = n ->
  mat_vec A v = Rmult lam <$> v ->
  Forall (fun c => 0 <= c) v -> Exists (fun c => 0 < c) v ->
  Forall (fun c => 0 < c) v.
Proof.
  intros Hn Hrect HA Hv Heq Hnn Hex. unfold nrows in Hn.
  apply Forall_lookup. intros i x Hx.
  assert (Hi : (i < n)%nat) by (rewrite <- Hv; by eapply lookup_lt_Some).
  destruct (lookup_lt_is_Some_2 A i) as [row Hrow]; [lia|].
  assert (Hrowpos : Forall (fun c => 0 < c) row).
  { eapply (proj1 (Forall_lookup _ _) HA); eauto. }
  assert (Hrowlen : length row = n).
  { eapply (proj1 (Forall_lookup _ _) Hrect); eauto. }
  pose proof (mat_vec_lookup A v lam i row x Heq Hrow Hx) as Hd.
  assert (Hp : 0 < dot row v) by (apply dot_pos; [done|lia|done|done]).
  assert (Hx0 : 0 <= x) by (eapply (proj1 (Forall_lookup _ _) Hnn); eauto).
  destruct (Rle_lt_or_eq_dec 0 x Hx0) as [|<-]; [done|]. lra.
Qed.

Lemma mat_vec_opp (A : matrix) (v : vector) lam :
  mat_vec A v = Rmult lam <$> v ->
  mat_vec A (Ropp <$> v) = Rmult lam <$> (Ropp <$> v).
Proof.
  intros Heq. unfold mat_vec in *.
  transitivity (Ropp <$> ((fun row => dot row v) <$> A)).
  - rewrite <- list_fmap_compose. apply list_fmap_ext.
    intros i row _. apply dot_opp.
  - rewrite Heq, <- !list_fmap_compose. apply list_fmap_ext.
    intros i x _. simpl. lra.
Qed.

(** A real eigenvector of a positive matrix whose eigenvalue is at least
    the eigenvalue of a positive eigenvector has entries of one strict
    sign. *)
Lemma principal_eigenvector_one_signed (A : matrix) n (v w : vector) lam rho :
  nrows A = n -> rectangular n A -> positive_matrix A ->
  length v = n -> length w = n -> Forall (fun c => 0 < c) w ->
  mat_vec A w = Rmult rho <$> w -> mat_vec A v = Rmult lam <$> v ->
  rho <= lam -> Exists (fun c => c <> 0) v ->
  Forall (fun c => 0 < c) v \/ Forall (fun c => c < 0) v.
Proof.
  intros Hn Hrect HA Hv Hw Hwpos Heqw Heqv Hge Hnz.
  destruct (decide (Exists (fun c => 0 < c) v)) as [Hpos|Hnpos];
    destruct (decide (Exists (fun c => c < 0) v)) as [Hneg|Hnneg].
  - pose proof (perron_strict A n v w lam rho Hn Hrect HA Hv Hw Hwpos Heqw
                  Heqv Hpos Hneg) as Hlt.
    pose proof (Rle_abs lam). lra.
  - left. eapply nonneg_eigenvector_positive; eauto.
    apply Forall_forall. intros x Hx. apply Rnot_lt_le. intros Hlt.
    apply Hnneg. apply Exists_exists. eauto.
  - right.
    assert (Hopp : Forall (fun c => 0 < c) (Ropp <$> v)).
    { eapply (nonneg_eigenvector_positive A n); eauto.
      - by rewrite length_fmap.
      - by apply mat_vec_opp.
      - apply Forall_fmap, Forall_forall. intros x Hx. simpl.
        assert (~ 0 < x) by (intros Hlt; apply Hnpos, Exists_exists; eauto).
        lra.
      - apply Exists_fmap. eapply Exists_impl; [exact Hneg|].
        intros x Hx. simpl. lra. }
    apply Forall_forall. intros x Hx.
    assert (0 < - x); [|lra].
    apply (proj1 (Forall_forall _ _) Hopp). apply list_elem_of_fmap. eauto.
  - exfalso. apply Exists_exists in Hnz as (x & Hx & Hx0).
    assert (~ 0 < x) by (intros Hlt; apply Hnpos, Exists_exists; eauto).
    assert (~ x < 0) by (intros Hlt; apply Hnneg, Exists_exists; eauto).
    lra.
Qed.

Lemma np_sum_pos (v : vector) :
  v <> [] -> Forall (fun c => 0 < c) v -> 0 < np_sum v.
Proof.
  intros Hne Hv. induction Hv as [|x v Hx Hv IH]; [done|]. simpl.
  destruct v as [|y v]; [simpl; lra|]. assert (0 < np_sum (y :: v)) by auto.
  lra.
Qed.

Lemma np_sum_neg (v : vector) :
  v <> [] -> Forall (fun c => c < 0) v -> np_sum v < 0.
Proof.
  intros Hne Hv. induction Hv as [|x v Hx Hv IH]; [done|]. simpl.
  destruct v as [|y v]; [simpl; lra|]. assert (np_sum (y :: v) < 0) by auto.
  lra.
Qed.

Lemma np_sum_fmap_div (v : vector) s :
  np_sum ((fun x => x / s) <$> v) = np_sum v / s.
Proof.
  induction v as [|x v IH]; simpl.
  - unfold Rdiv. lra.
  - change (list_fmap R R (fun x => x / s) v) with ((fun x => x / s) <$> v).
    rewrite IH. unfold Rdiv. lra.
Qed.

Lemma existsb_negative_false (v : vector) :
  Forall (fun c => 0 < c) v ->
  existsb (fun w => bool_decide (w < 0)) v = false.
Proof.
  intros Hv. induction Hv as [|x v Hx Hv IH]; [done|]. simpl.
  rewrite bool_decide_eq_false_2 by lra. exact IH.
Qed.

(** C1.  For a valid (square, positive, reciprocal, unit-diagonal)
    comparison matrix of size [n] on which [np.linalg.eig] meets its
    contract, [ahp_weights] returns a weight vector of length [n] whose
    entries are all >= 0 and sum to 1 (so within 1e-9 of 1), the largest
    real part among the eigenvalues as [lambda_max], and
    CI = (lambda_max - n) / (n - 1) for n > 1, else 0. *)
Theorem ahp_weights_spec (eig : list (list R) -> option eig_result)
    (A : matrix) (n : nat)
    (eigenvalues : list complex) (eigenvectors : list (list complex)) :
  comparison_matrix_inv n A ->
  eig A = Some (eigenvalues, eigenvectors) ->
  principal_pair_is_eigenpair A eigenvalues eigenvectors ->
  reports_perron_root A eigenvalues ->
  exists weights lambda_max ci,
    ahp_weights eig A = Some (weights, lambda_max, ci) /\
    length weights = n /\
    np_sum weights = 1 /\
    Rabs (np_sum weights - 1) <= 1e-9 /\
    Forall (fun x => 0 <= x) weights /\
    lambda_max ∈ re <$> eigenvalues /\
    (forall mu, mu ∈ eigenvalues -> re mu <= lambda_max) /\
    ci = if bool_decide (1 < n)%nat
         then (lambda_max - INR n) / (INR n - 1) else 0.
Proof.
  intros Hinv Heig (k & lam & col & Hk & Hlam & Hcol & Hlen & Heqv & Hnz)
         (k' & rho & w & Hrho & Hw & Hwpos & Heqw).
  pose proof (comparison_matrix_positive n A Hinv) as HA.
  destruct Hinv as (Hn & Hrect & _).
  destruct (np_argmax_spec _ k Hk) as (x & Hx & Hmax).
  rewrite list_lookup_fmap, Hlam in Hx. simpl in Hx. injection Hx as <-.
  assert (Hge : rho <= re lam).
  { apply Hmax. apply list_elem_of_lookup. eauto. }
  set (v := re <$> col) in *.
  assert (Hv : length v = n) by (unfold v; rewrite length_fmap; congruence).
  assert (Hvne : v <> []).
  { intros Hnil. rewrite Hnil in Hnz. by apply Exists_nil in Hnz. }
  assert (Hsigned : Forall (fun c => 0 < c) ((fun x => x / np_sum v) <$> v)).
  { destruct (principal_eigenvector_one_signed A n v w (re lam) rho)
      as [Hpos|Hneg]; try done; [congruence|..].
    - pose proof (np_sum_pos v Hvne Hpos) as Hs.
      apply Forall_fmap. eapply Forall_impl; [exact Hpos|].
      intros c Hc. simpl. apply Rdiv_lt_0_compat; lra.
    - pose proof (np_sum_neg v Hvne Hneg) as Hs.
      apply Forall_fmap. eapply Forall_impl; [exact Hneg|].
      intros c Hc. simpl.
      replace (c / np_sum v) with ((- c) / (- np_sum v)) by (field; lra).
      apply Rdiv_lt_0_compat; lra. }
  assert (Hs : np_sum v <> 0).
  { intros Hs0. destruct v as [|c v']; [done|].
    apply Forall_cons in Hsigned as [Hc _]. simpl in Hc.
    change (np_sum (c :: v')) with (c + np_sum v') in *.
    rewrite Hs0 in Hc. unfold Rdiv in Hc. rewrite Rinv_0 in Hc. lra. }
  assert (Hsum : np_sum ((fun x => x / np_sum v) <$> v) = 1).
  { rewrite np_sum_fmap_div. by field. }
  exists ((fun x => x / np_sum v) <$> v), (re lam),
    (if bool_decide (1 < n)%nat then (re lam - INR n) / (INR n - 1) else 0).
  split.
  { unfold ahp_weights. rewrite Heig. simpl. rewrite Hk. simpl.
    rewrite Hlam. simpl. rewrite Hcol. simpl. fold v.
    change (list_fmap R R (fun x => x / np_sum v) v)
      with ((fun x => x / np_sum v) <$> v).
    rewrite existsb_negative_false by done. by rewrite Hn. }
  split; [by rewrite length_fmap|].
  split; [done|].
  split.
  { rewrite Hsum, Rminus_diag, Rabs_R0. lra. }
  split.
  { eapply Forall_impl; [exact Hsigned|]. intros c Hc. simpl in Hc. lra. }
  split.
  { apply list_elem_of_fmap. exists lam. split; [done|].
    apply list_elem_of_lookup. eauto. }
  split; [|done].
  intros mu Hmu. apply Hmax. apply list_elem_of_fmap. eauto.
Qed.

Lemma judgment_2x2_inv : comparison_matrix_inv 2 judgment_2x2.
Proof.
  unfold comparison_matrix_inv, judgment_2x2. split; [done|]. split.
  { repeat constructor. }
  split.
  - intros [|[|a]] Ha; try lia; reflexivity.
  - intros [|[|a]] [|[|b]] Ha Hb; try lia; eexists;
      (split; [reflexivity|]); (split; [lra|]); unfold entry; simpl;
      f_equal; field.
Qed.

Lemma ahp_weights_spec_witness :
  exists weights lambda_max ci,
    ahp_weights eig_2x2 judgment_2x2 = Some (weights, lambda_max, ci) /\
    length weights = 2%nat /\ np_sum weights = 1 /\
    Forall (fun x => 0 <= x) weights /\ lambda_max = 2 /\ ci = 0.
Proof.
  destruct (ahp_weights_spec eig_2x2 judgment_2x2 2
              [Complex 2 0; Complex 0 0]
              [[Complex (-2) 0; Complex (-2) 0]; [Complex (-1) 0; Complex 1 0]])
    as (weights & lambda_max & ci & Hrun & Hlen & Hsum & _ & Hnn & Hin & Hmax
        & Hci).
  - exact judgment_2x2_inv.
  - reflexivity.
  - exists 0%nat, (Complex 2 0), [Complex (-2) 0; Complex (-1) 0].
    split; [simpl; decide_concrete; reflexivity|].
    split; [reflexivity|]. split; [reflexivity|]. split; [reflexivity|].
    split.
    + unfold mat_vec, dot, judgment_2x2. simpl. repeat f_equal; lra.
    + simpl. left. lra.
  - exists 0%nat, 2, [2; 1]. split; [reflexivity|]. split; [reflexivity|].
    split; [repeat constructor; lra|].
    unfold mat_vec, dot, judgment_2x2. simpl. repeat f_equal; lra.
  - exists weights, lambda_max, ci.
    assert (Hl : lambda_max = 2).
    { apply Rle_antisym.
      - simpl in Hin. apply elem_of_cons in Hin as [->|Hin]; [lra|].
        apply list_elem_of_singleton in Hin. subst. lra.
      - apply (Hmax (Complex 2 0)). by left. }
    repeat split; try done.
    rewrite Hci, Hl. rewrite bool_decide_eq_true_2 by lia. simpl. lra.
Defined.

(* ================================================================== *)
(** * Properties: vector normalization *)
(* ================================================================== *)

Lemma column_Some_inv {A} (M : list (list A)) j col :
  column M j = Some col ->
  length col = length M /\
  forall i row, M !! i = Some row -> row !! j = col !! i.
Proof.
  unfold column. intros Hcol. apply mapM_Some in Hcol.
  split; [symmetry; by eapply Forall2_length|].
  intros i row Hrow.
  destruct (Forall2_lookup_l _ _ _ _ _ Hcol Hrow) as (x & Hx & Hjx).
  congruence.
Qed.

Lemma column_is_Some {A} c (M : list (list A)) j :
  Forall (fun row => length row = c) M -> (j < c)%nat ->
  exists col, column M j = Some col.
Proof.
  intros Hrect Hj. unfold column.
  apply mapM_is_Some. eapply Forall_impl; [exact Hrect|].
  intros row Hrow. simpl in *. apply lookup_lt_is_Some_2. lia.
Qed.

Lemma column_cons {A} (row : list A) (M : list (list A)) j x col :
  row !! j = Some x -> column M j = Some col ->
  column (row :: M) j = Some (x :: col).
Proof. unfold column. intros Hx Hcol. simpl. by rewrite Hx, Hcol. Qed.

Lemma column_cons_inv {A} (row : list A) (M : list (list A)) j col :
  column (row :: M) j = Some col ->
  exists x col', col = x :: col' /\ row !! j = Some x /\ column M j = Some col'.
Proof.
  unfold column. simpl. intros Hcol.
  destruct (row !! j) as [x|]; [|done]. simpl in Hcol.
  destruct (mapM _ M) as [col'|]; [|done]. simpl in Hcol.
  injection Hcol as <-. eauto.
Qed.

(** [np.sum(M, axis=0)[j]] is the sum of column [j]. *)
Lemma sum_rows_from_lookup c (M : matrix) j col :
  rectangular c M -> (j < c)%nat -> column M j = Some col ->
  sum_rows_from c M !! j = Some (np_sum col).
Proof.
  intros Hrect Hj. revert col.
  induction Hrect as [|row M Hrow Hrect IH]; intros col Hcol.
  - unfold column in Hcol. simpl in Hcol. injection Hcol as <-.
    simpl. by apply lookup_replicate_2.
  - apply column_cons_inv in Hcol as (x & col' & -> & Hx & Hcol').
    unfold sum_rows_from in *. simpl.
    apply lookup_zip_with_Some. exists x, (np_sum col'). auto.
Qed.

Lemma ncols_rectangular c (M : matrix) :
  rectangular c M -> M <> [] -> ncols M = c.
Proof.
  intros Hrect Hne. destruct M as [|row M]; [done|].
  by apply Forall_cons in Hrect as [? _].
Qed.

Lemma np_square_rectangular c (M : matrix) :
  rectangular c M -> rectangular c (np_square M).
Proof.
  intros Hrect. unfold np_square. apply Forall_fmap.
  eapply Forall_impl; [exact Hrect|]. intros row Hrow. simpl.
  by rewrite length_fmap.
Qed.

Lemma column_np_square (M : matrix) j col :
  column M j = Some col ->
  column (np_square M) j = Some ((fun x => x * x) <$> col).
Proof.
  revert col. induction M as [|row M IH]; intros col Hcol.
  - unfold column in Hcol. simpl in Hcol. by injection Hcol as <-.
  - apply column_cons_inv in Hcol as (x & col' & -> & Hx & Hcol').
    unfold np_square. rewrite fmap_cons. rewrite fmap_cons.
    apply column_cons; [|by apply IH].
    by rewrite list_lookup_fmap, Hx.
Qed.

Lemma col_norms_lookup c (M : matrix) j col :
  rectangular c M -> M <> [] -> (j < c)%nat -> column M j = Some col ->
  col_norms M !! j = Some (sqrt (np_sum ((fun x => x * x) <$> col))).
Proof.
  intros Hrect Hne Hj Hcol. unfold col_norms, np_sum_axis0.
  assert (Hc : ncols (np_square M) = c).
  { apply ncols_rectangular; [by apply np_square_rectangular|].
    unfold np_square. by destruct M. }
  rewrite Hc, list_lookup_fmap.
  erewrite sum_rows_from_lookup; [done| |done|].
  - by apply np_square_rectangular.
  - by apply column_np_square.
Qed.

Lemma np_sum_cons (x : R) (v : vector) : np_sum (x :: v) = x + np_sum v.
Proof. reflexivity. Qed.

Lemma sum_squares_nonneg (v : vector) : 0 <= np_sum ((fun x => x * x) <$> v).
Proof.
  induction v as [|x v IH]; [simpl; lra|].
  rewrite fmap_cons, np_sum_cons. nra.
Qed.

Lemma sum_squares_zero (v : vector) :
  np_sum ((fun x => x * x) <$> v) = 0 -> Forall (fun x => x = 0) v.
Proof.
  induction v as [|x v IH]; intros Hs; [constructor|].
  rewrite fmap_cons, np_sum_cons in Hs.
  pose proof (sum_squares_nonneg v) as Hv.
  constructor; [nra|]. apply IH. nra.
Qed.


Lemma normalizer_lookup c (M : matrix) a col :
  rectangular c M -> M <> [] -> (a < c)%nat -> column M a = Some col ->
  where_zero_one (col_norms M) !! a
  = Some (if bool_decide (sqrt (np_sum ((fun x => x * x) <$> col)) = 0)
          then 1 else sqrt (np_sum ((fun x => x * x) <$> col))).
Proof.
  intros Hrect Hne Ha Hcol. unfold where_zero_one.
  by rewrite list_lookup_fmap, (col_norms_lookup c M a col).
Qed.







Lemma np_binop_same_length f (u v : vector) :
  length u = length v -> np_binop f u v = Some (zip_with f u v).
Proof. intros Hlen. unfold np_binop. by rewrite bool_decide_eq_true_2. Qed.

(** C7.  The two degenerate divisors of TOPSIS.  A column of the decision
    matrix whose Euclidean norm is 0 is divided by 1, and its normalized
    entries are all 0; [normalize_matrix] is a total function.  For
    distance arrays of one length [closeness_scores] returns, and an
    alternative with [S+ + S- = 0] gets [S- / 1]. *)
Theorem topsis_degenerate_divisors c (M : matrix) (j : nat) (col : vector)
    (s_plus s_minus : vector) :
  rectangular c M -> M <> [] -> (j < c)%nat -> column M j = Some col ->
  sqrt (np_sum ((fun x => x * x) <$> col)) = 0 ->
  length s_plus = length s_minus ->
  (where_zero_one (col_norms M) !! j = Some 1 /\
   column (normalize_matrix M) j = Some ((fun x => x / 1) <$> col) /\
   Forall (fun x => x = 0) ((fun x => x / 1) <$> col)) /\
  (exists scores, closeness_scores s_plus s_minus = Some scores /\
     length scores = length s_minus /\
     forall i p q, s_plus !! i = Some p -> s_minus !! i = Some q ->
       scores !! i = Some (q / (if bool_decide (p + q = 0) then 1 else p + q))
       /\ (p + q = 0 -> scores !! i = Some (q / 1))).
Proof.
  intros Hrect Hne Hj Hcol Hnorm Hlen. split.
  - assert (Hdiv : where_zero_one (col_norms M) !! j = Some 1).
    { rewrite (normalizer_lookup c M j col) by done.
      by rewrite bool_decide_eq_true_2. }
    split; [exact Hdiv|]. split.
    + unfold column in *. apply mapM_Some. apply mapM_Some in Hcol.
      unfold normalize_matrix. fold (col_norms M).
      apply Forall2_fmap. eapply Forall2_impl; [exact Hcol|].
      intros row x Hx. simpl. apply lookup_zip_with_Some. eauto.
    + apply Forall_fmap. simpl.
      assert (Hzero : Forall (fun x => x = 0) col).
      { apply sum_squares_zero. apply sqrt_eq_0; [|done].
        apply sum_squares_nonneg. }
      eapply Forall_impl; [exact Hzero|]. intros x ->. simpl. lra.
  - unfold closeness_scores. rewrite np_binop_same_length by done. simpl.
    rewrite np_binop_same_length
      by (unfold where_zero_one; rewrite length_fmap, length_zip_with; lia).
    eexists. split; [reflexivity|]. split.
    + unfold where_zero_one.
      rewrite length_zip_with, length_fmap, length_zip_with. lia.
    + intros i p q Hp Hq.
      assert (Hscore : zip_with Rdiv s_minus
                (where_zero_one (zip_with Rplus s_plus s_minus)) !! i
              = Some (q / (if bool_decide (p + q = 0) then 1 else p + q))).
      { apply lookup_zip_with_Some. eexists _, _. split; [done|].
        split; [done|]. unfold where_zero_one. rewrite list_lookup_fmap.
        rewrite (proj2 (lookup_zip_with_Some Rplus s_plus s_minus i (p + q)))
          by eauto. done. }
      split; [exact Hscore|]. intros Hz. rewrite Hscore.
      by rewrite bool_decide_eq_true_2.
Qed.

Lemma topsis_degenerate_divisors_witness :
  (where_zero_one (col_norms [[0; 3]; [0; 4]]) !! 0%nat = Some 1 /\
   column (normalize_matrix [[0; 3]; [0; 4]]) 0
     = Some ((fun x => x / 1) <$> [0; 0]) /\
   Forall (fun x => x = 0) ((fun x => x / 1) <$> [0; 0])) /\
  (exists scores, closeness_scores [0; 3] [0; 1] = Some scores /\
     length scores = 2%nat /\
     forall i p q, [0; 3] !! i = Some p -> [0; 1] !! i = Some q ->
       scores !! i = Some (q / (if bool_decide (p + q = 0) then 1 else p + q))
       /\ (p + q = 0 -> scores !! i = Some (q / 1))).
Proof.
  apply (topsis_degenerate_divisors 2 [[0; 3]; [0; 4]] 0 [0; 0] [0; 3] [0; 1]).
  - repeat constructor.
  - done.
  - lia.
  - reflexivity.
  - simpl. replace (0 * 0 + (0 * 0 + 0)) with 0 by lra. apply sqrt_0.
  - reflexivity.
Defined.

(* ================================================================== *)
(** * Properties: criteria tags *)
(* ================================================================== *)

Lemma lower_canonical_tag tag :
  bool_decide (lower (canonical_tag tag) = "benefit"%string)
  = bool_decide (lower tag = "benefit"%string).
Proof.
  unfold canonical_tag.
  destruct (bool_decide (lower tag = "benefit"%string)); reflexivity.
Qed.

Lemma ideal_pair_canonical (W : matrix) (types : list string) j :
  ideal_pair W (canonical_tag <$> types) j = ideal_pair W types j.
Proof.
  unfold ideal_pair. destruct (column W j) as [col|]; [|done]. simpl.
  rewrite list_lookup_fmap. destruct (types !! j) as [tag|]; [|done]. simpl.
  by rewrite lower_canonical_tag.
Qed.

Lemma ideal_solutions_canonical (W : matrix) (types : list string) :
  ideal_solutions W (canonical_tag <$> types) = ideal_solutions W types.
Proof.
  unfold ideal_solutions.
  by rewrite (mapM_ext _ (ideal_pair W types))
    by (intros j; apply ideal_pair_canonical).
Qed.

Lemma np_max_is_Some (v : vector) : v <> [] -> is_Some (np_max v).
Proof. destruct v; [done|]. intros _. by eexists. Qed.

Lemma np_min_is_Some (v : vector) : v <> [] -> is_Some (np_min v).
Proof. destruct v; [done|]. intros _. by eexists. Qed.

Lemma ideal_pair_value (W : matrix) (types : list string) j col tag hi lo :
  column W j = Some col -> types !! j = Some tag ->
  np_max col = Some hi -> np_min col = Some lo ->
  ideal_pair W types j
  = Some (if bool_decide (lower tag = "benefit"%string)
          then (hi, lo) else (lo, hi)).
Proof.
  intros Hcol Htag Hhi Hlo. unfold ideal_pair.
  rewrite Hcol, Htag. simpl. rewrite Hhi, Hlo. simpl. by case_bool_decide.
Qed.

(** C10.  In [ideal_solutions], and so in [topsis_rank], a tag whose
    lower-cased form is not "benefit" is treated as "cost": the ideal is the
    column minimum and the negative-ideal the column maximum.  The content
    of a tag never makes the function raise: on a weighted matrix with at
    least one row and a tag for every column it always returns, and it
    returns what it returns for the tags replaced by "benefit" and
    "cost". *)
Theorem ideal_solutions_unrecognized_tag_is_cost c (W : matrix)
    (criteria_types : list string) :
  rectangular c W -> W <> [] -> (c <= length criteria_types)%nat ->
  (exists ideal negative_ideal,
     ideal_solutions W criteria_types = Some (ideal, negative_ideal) /\
     length ideal = c /\ length negative_ideal = c /\
     forall j tag col, (j < c)%nat -> criteria_types !! j = Some tag ->
       column W j = Some col -> lower tag <> "benefit"%string ->
       ideal !! j = np_min col /\ negative_ideal !! j = np_max col) /\
  ideal_solutions W criteria_types
    = ideal_solutions W (canonical_tag <$> criteria_types) /\
  (forall argsort decision_matrix weights names,
     topsis_rank argsort decision_matrix weights criteria_types names
     = topsis_rank argsort decision_matrix weights
         (canonical_tag <$> criteria_types) names).
Proof.
  intros Hrect Hne Hlen.
  assert (Hpair : forall j, (j < c)%nat -> exists col tag hi lo,
            column W j = Some col /\ criteria_types !! j = Some tag /\
            np_max col = Some hi /\ np_min col = Some lo /\
            ideal_pair W criteria_types j
            = Some (if bool_decide (lower tag = "benefit"%string)
                    then (hi, lo) else (lo, hi))).
  { intros j Hj. destruct (column_is_Some c W j Hrect Hj) as [col Hcol].
    destruct (lookup_lt_is_Some_2 criteria_types j) as [tag Htag]; [lia|].
    assert (Hcolne : col <> []).
    { destruct (column_Some_inv W j col Hcol) as [Hl _].
      destruct col; [|done]. by destruct W. }
    destruct (np_max_is_Some col Hcolne) as [hi Hhi].
    destruct (np_min_is_Some col Hcolne) as [lo Hlo].
    exists col, tag, hi, lo.
    split; [done|]. split; [done|]. split; [done|]. split; [done|].
    by apply (ideal_pair_value W criteria_types j col tag hi lo). }
  assert (Hsome : is_Some (mapM (ideal_pair W criteria_types) (seq 0 c))).
  { apply mapM_is_Some. apply Forall_forall. intros j Hj.
    apply elem_of_seq in Hj.
    destruct (Hpair j) as (col & tag & hi & lo & _ & _ & _ & _ & Hval);
      [lia|]. unfold compose. rewrite Hval. by eexists. }
  destruct Hsome as [pairs Hpairs].
  split; [|split].
  - exists (pairs.*1), (pairs.*2).
    assert (Hplen : length pairs = c).
    { apply mapM_Some, Forall2_length in Hpairs.
      by rewrite length_seq in Hpairs. }
    split.
    { unfold ideal_solutions. rewrite (ncols_rectangular c W Hrect Hne).
      by rewrite Hpairs. }
    split; [by rewrite length_fmap|]. split; [by rewrite length_fmap|].
    intros j tag col Hj Htag Hcol Hcost.
    destruct (Hpair j Hj) as (col' & tag' & hi & lo & Hcol' & Htag' & Hhi & Hlo
                              & Hval).
    assert (col' = col) by congruence. assert (tag' = tag) by congruence.
    subst col' tag'.
    rewrite bool_decide_eq_false_2 in Hval by done.
    apply mapM_Some in Hpairs.
    destruct (Forall2_lookup_l _ _ _ j j Hpairs) as (y & Hy & Hfy).
    { by apply lookup_seq_lt. }
    rewrite Hval in Hfy. injection Hfy as <-.
    rewrite !list_lookup_fmap, Hy, Hlo, Hhi. done.
  - symmetry. apply ideal_solutions_canonical.
  - intros argsort decision_matrix weights names. unfold topsis_rank.
    destruct (weighted_matrix _ _) as [w_matrix|]; [|done]. simpl.
    by rewrite ideal_solutions_canonical.
Qed.

Lemma ideal_solutions_unrecognized_tag_is_cost_witness :
  exists ideal negative_ideal,
    ideal_solutions [[1; 5]; [2; 3]] ["Benefit"; "profit"]%string
      = Some (ideal, negative_ideal) /\
    ideal !! 1%nat = np_min [5; 3] /\ negative_ideal !! 1%nat = np_max [5; 3].
Proof.
  destruct (ideal_solutions_unrecognized_tag_is_cost 2 [[1; 5]; [2; 3]]
              ["Benefit"; "profit"]%string)
    as ((ideal & negative_ideal & Hrun & _ & _ & Hcost) & _ & _).
  - repeat constructor.
  - done.
  - simpl. lia.
  - exists ideal, negative_ideal. split; [exact Hrun|].
    apply (Hcost 1%nat "profit"%string [5; 3]).
    + lia.
    + reflexivity.
    + reflexivity.
    + by vm_compute.
Defined.

(* ================================================================== *)
(** * Properties: the ranking *)
(* ================================================================== *)

Lemma insert_position_perm key i sorted :
  Permutation (insert_position key i sorted) (i :: sorted).
Proof.
  induction sorted as [|j rest IH]; simpl; [done|].
  case_bool_decide; [done|]. rewrite IH. apply perm_swap.
Qed.

Lemma insert_position_sorted key i sorted :
  StronglySorted (fun p q => key p <= key q) sorted ->
  StronglySorted (fun p q => key p <= key q) (insert_position key i sorted).
Proof.
  intros Hs. induction Hs as [|j rest Hs IH Hj]; simpl.
  - repeat constructor.
  - case_bool_decide as Hle.
    + constructor; [by constructor|]. constructor; [done|].
      eapply Forall_impl; [exact Hj|]. intros q Hq. simpl in Hq. lra.
    + constructor; [done|].
      rewrite insert_position_perm. constructor; [lra|done].
Qed.

Lemma foldl_insert_position key (positions : list nat) :
  forall sorted,
    StronglySorted (fun p q => key p <= key q) sorted ->
    StronglySorted (fun p q => key p <= key q)
      (foldl (fun acc i => insert_position key i acc) sorted positions) /\
    Permutation (foldl (fun acc i => insert_position key i acc) sorted positions)
                (positions ++ sorted).
Proof.
  induction positions as [|i rest IH]; intros sorted Hs; simpl; [done|].
  destruct (IH (insert_position key i sorted)) as [Hs' Hp].
  { by apply insert_position_sorted. }
  split; [done|]. rewrite Hp, insert_position_perm.
  by rewrite Permutation_middle.
Qed.

Lemma StronglySorted_lookup_lt {A} (Rel : A -> A -> Prop) (l : list A) a b x y :
  StronglySorted Rel l -> (a < b)%nat ->
  l !! a = Some x -> l !! b = Some y -> Rel x y.
Proof.
  intros Hs. revert a b. induction Hs as [|z l Hs IH Hz]; intros a b Hab Hx Hy.
  - done.
  - destruct b as [|b]; [lia|]. simpl in Hy. destruct a as [|a].
    + simpl in Hx. injection Hx as <-.
      eapply (proj1 (Forall_forall _ _) Hz). by eapply list_elem_of_lookup_2.
    + simpl in Hx. apply (IH a b); [lia|done|done].
Qed.

Lemma argsort_reverse_ties_contract : argsort_contract argsort_reverse_ties.
Proof.
  intros v. unfold argsort_reverse_ties.
  destruct (foldl_insert_position (fun p => default 0 (v !! p))
              (seq 0 (length v)) []) as [Hs Hp]; [constructor|].
  split; [by rewrite app_nil_r in Hp|].
  intros a b i j x y Hab Hi Hj Hx Hy.
  pose proof (StronglySorted_lookup_lt _ _ a b i j Hs Hab Hi Hj) as Hle.
  simpl in Hle. by rewrite Hx, Hy in Hle.
Qed.

(** C3 (as amended).  With an [np.argsort] that meets its documented
    contract, the ranking of [topsis_rank] is [argsort] of the negated
    closeness scores: it lists every alternative once, in descending order
    of closeness.  The order among alternatives of exactly equal closeness
    is whatever [argsort] gives. *)
Theorem topsis_rank_descending (argsort : list R -> list nat)
    (decision_matrix : matrix) (weights : vector)
    (criteria_types : list string) (names : option (list string))
    (res : topsis_result) :
  argsort_contract argsort ->
  topsis_rank argsort decision_matrix weights criteria_types names = Some res ->
  tr_ranking res = argsort (Ropp <$> tr_closeness res) /\
  Permutation (tr_ranking res) (seq 0 (length (tr_closeness res))) /\
  forall a b i j x y, (a < b)%nat ->
    tr_ranking res !! a = Some i -> tr_ranking res !! b = Some j ->
    tr_closeness res !! i = Some x -> tr_closeness res !! j = Some y ->
    y <= x.
Proof.
  intros Hcontract Hrun. unfold topsis_rank in Hrun.
  destruct (weighted_matrix _ _) as [w_matrix|]; [|done]. simpl in Hrun.
  destruct (ideal_solutions _ _) as [[ideal negative_ideal]|]; [|done].
  simpl in Hrun.
  destruct (separation_measures _ _ _) as [[s_plus s_minus]|]; [|done].
  simpl in Hrun.
  destruct (closeness_scores _ _) as [c_scores|]; [|done]. simpl in Hrun.
  apply bind_Some in Hrun as (ranked_alternatives & _ & Hrun).
  apply bind_Some in Hrun as (ranked_scores & _ & Hrun).
  injection Hrun as <-. simpl.
  destruct (Hcontract (Ropp <$> c_scores)) as [Hperm Hsorted].
  rewrite length_fmap in Hperm.
  split; [done|]. split; [done|].
  intros a b i j x y Hab Hi Hj Hx Hy.
  assert (- x <= - y); [|lra].
  apply (Hsorted a b i j); try done.
  - by rewrite list_lookup_fmap, Hx.
  - by rewrite list_lookup_fmap, Hy.
Qed.

Lemma weighted_matrix_two_rows (d w0 : R) :
  weighted_matrix [[d]; [d]] [w0] = Some [[d * w0]; [d * w0]].
Proof. reflexivity. Qed.

Lemma ideal_solutions_two_rows (u : R) :
  ideal_solutions [[u]; [u]] ["benefit"%string]
  = Some ([Rmax u u], [Rmin u u]).
Proof. reflexivity. Qed.

Lemma separation_measures_two_rows (u hi lo : R) :
  separation_measures [[u]; [u]] [hi] [lo]
  = Some ([sqrt ((u - hi) * (u - hi) + 0); sqrt ((u - hi) * (u - hi) + 0)],
          [sqrt ((u - lo) * (u - lo) + 0); sqrt ((u - lo) * (u - lo) + 0)]).
Proof. reflexivity. Qed.

Lemma closeness_scores_two_equal (sp sm : R) :
  closeness_scores [sp; sp] [sm; sm]
  = Some [sm / (if bool_decide (sp + sm = 0) then 1 else sp + sm);
          sm / (if bool_decide (sp + sm = 0) then 1 else sp + sm)].
Proof. reflexivity. Qed.

Lemma argsort_reverse_ties_two_equal (x : R) :
  argsort_reverse_ties [x; x] = [1%nat; 0%nat].
Proof.
  unfold argsort_reverse_ties. simpl.
  by rewrite bool_decide_eq_true_2 by lra.
Qed.

(** Two alternatives with the same row: their closeness scores are equal
    and the ranking is what [argsort] makes of the tie. *)
Lemma topsis_rank_tied_run :
  exists res,
    topsis_rank argsort_reverse_ties [[1]; [1]] [1] ["benefit"%string] None
      = Some res /\
    tr_ranking res = [1%nat; 0%nat] /\
    exists e, tr_closeness res = [e; e].
Proof.
  unfold topsis_rank. cbv zeta.
  set (w := if negb _ then _ else _).
  assert (Hw : exists w0, w = [w0]).
  { unfold w. destruct (negb _); simpl; eauto. }
  destruct Hw as [w0 ->].
  assert (Hd : exists d, normalize_matrix [[1]; [1]] = [[d]; [d]])
    by (eexists; reflexivity).
  destruct Hd as [d ->].
  rewrite weighted_matrix_two_rows. cbn [mbind option_bind].
  rewrite ideal_solutions_two_rows. cbn [mbind option_bind].
  rewrite separation_measures_two_rows. cbn [mbind option_bind].
  rewrite closeness_scores_two_equal. cbn [mbind option_bind fmap list_fmap].
  rewrite argsort_reverse_ties_two_equal.
  eexists. split; [reflexivity|]. simpl. eauto.
Qed.

Lemma topsis_rank_descending_witness :
  exists res,
    topsis_rank argsort_reverse_ties [[1]; [1]] [1] ["benefit"%string] None
      = Some res /\
    tr_ranking res = argsort_reverse_ties (Ropp <$> tr_closeness res) /\
    Permutation (tr_ranking res) (seq 0 (length (tr_closeness res))) /\
    forall a b i j x y, (a < b)%nat ->
      tr_ranking res !! a = Some i -> tr_ranking res !! b = Some j ->
      tr_closeness res !! i = Some x -> tr_closeness res !! j = Some y ->
      y <= x.
Proof.
  destruct topsis_rank_tied_run as (res & Hrun & _).
  exists res. split; [exact Hrun|].
  exact (topsis_rank_descending argsort_reverse_ties [[1]; [1]] [1]
           ["benefit"%string] None res argsort_reverse_ties_contract Hrun).
Defined.

(** C3 (as stated) fails.  This [argsort] meets the contract of
    [np.argsort], and with it two alternatives of exactly equal closeness
    are ranked with the larger original index first. *)
Lemma topsis_rank_ties_counterexample :
  argsort_contract argsort_reverse_ties /\
  exists res,
    topsis_rank argsort_reverse_ties [[1]; [1]] [1] ["benefit"%string] None
      = Some res /\
    tr_closeness res !! 0%nat = tr_closeness res !! 1%nat /\
    is_Some (tr_closeness res !! 0%nat) /\
    tr_ranking res = [1%nat; 0%nat].
Proof.
  split; [exact argsort_reverse_ties_contract|].
  destruct topsis_rank_tied_run as (res & Hrun & Hrank & e & He).
  exists res. split; [exact Hrun|]. rewrite He. simpl.
  split; [done|]. split; [by eexists|done].
Qed.

(* ================================================================== *)
(** * Properties: the frontier tolerance *)
(* ================================================================== *)

(** What [np.isclose(e, 1.0, atol=1e-6)] tests: the default [rtol] of
    [1e-5] is added to the tolerance. *)
Lemma np_isclose_one (e : R) :
  np_isclose e 1.0 default_rtol 1e-6 = true <-> Rabs (e - 1) <= 1.1e-5.
Proof.
  unfold np_isclose, default_rtol. rewrite bool_decide_eq_true.
  replace (e - 1.0) with (e - 1) by lra.
  rewrite (Rabs_right 1.0) by lra.
  split; intros H; lra.
Qed.

Lemma positions_where_spec (P : R -> bool) (v : vector) (i : nat) :
  i ∈ positions_where P v <-> exists x, v !! i = Some x /\ P x = true.
Proof.
  unfold positions_where. rewrite list_elem_of_fmap. split.
  - intros ([i' x] & -> & Hin). apply list_elem_of_filter in Hin as [HP Hin].
    apply list_elem_of_lookup in Hin as [k Hk].
    rewrite list_lookup_imap in Hk.
    destruct (v !! k) as [y|] eqn:Hy; [|done]. simpl in Hk.
    injection Hk as <- <-. simpl in *. eauto.
  - intros (x & Hx & HP). exists (i, x). split; [done|].
    apply list_elem_of_filter. split; [done|].
    apply list_elem_of_lookup. exists i.
    by rewrite list_lookup_imap, Hx.
Qed.

Lemma near_frontier_lp :
  dea_lp_input near_frontier_inputs near_frontier_outputs [1] [0.999995]
  = Some near_frontier_program.
Proof. reflexivity. Qed.

Lemma near_frontier_point_feasible :
  lp_feasible near_frontier_program [0.999995; 0.999995; 0].
Proof.
  split; [done|]. split.
  - repeat constructor; unfold dot; simpl; lra.
  - repeat constructor; simpl; lra.
Qed.

Lemma near_frontier_optimum (x : vector) :
  lp_optimal near_frontier_program x ->
  exists l0 l1, x = [0.999995; l0; l1].
Proof.
  intros [(Hlen & Hub & Hbd) Hopt]. simpl in *.
  destruct x as [|theta [|l0 [|l1 [|? ?]]]]; try done.
  exists l0, l1. f_equal.
  apply Forall2_cons in Hub as [H1 Hub]. apply Forall2_cons in Hub as [H2 _].
  apply Forall2_cons in Hbd as [[Ht0 Ht1] Hbd].
  apply Forall2_cons in Hbd as [[Hl0 _] Hbd].
  apply Forall2_cons in Hbd as [[Hl1 _] _].
  unfold dot in H1, H2. simpl in *.
  specialize (Hopt _ near_frontier_point_feasible).
  unfold dot in Hopt. simpl in Hopt. lra.
Qed.

Lemma near_frontier_point_optimal :
  lp_optimal near_frontier_program [0.999995; 0.999995; 0].
Proof.
  split; [exact near_frontier_point_feasible|].
  intros x' (Hlen & Hub & Hbd). simpl in *.
  destruct x' as [|theta [|l0 [|l1 [|? ?]]]]; try done.
  apply Forall2_cons in Hub as [H1 Hub]. apply Forall2_cons in Hub as [H2 _].
  apply Forall2_cons in Hbd as [[Ht0 Ht1] Hbd].
  apply Forall2_cons in Hbd as [[Hl0 _] Hbd].
  apply Forall2_cons in Hbd as [[Hl1 _] _].
  unfold dot in *. simpl in *. lra.
Qed.

(** C4 at its failing input.  Whatever solver meets the contract on the
    input-oriented program of the second DMU, its efficiency is 0.999995,
    which is more than 1e-6 away from 1.0, and the code still reports it as
    efficient. *)
Theorem dea_efficiency_tolerance_failing_input
    (linprog : lp_problem -> option lp_result) :
  linprog_solves linprog near_frontier_program ->
  exists r,
    dea_efficiency linprog near_frontier_inputs near_frontier_outputs 1
      "input" = Some r /\
    dr_efficiency r = Some 0.999995 /\
    dr_is_efficient r = Some true /\
    Rabs (0.999995 - 1) > 1e-6.
Proof.
  intros (res & Hres & Hok & Hopt).
  destruct (near_frontier_optimum _ Hopt) as (l0 & l1 & Hx).
  unfold dea_efficiency.
  change (py_index (nrows near_frontier_inputs) 1) with (Some 1%nat).
  change (py_index (nrows near_frontier_outputs) 1) with (Some 1%nat).
  cbn [mbind option_bind].
  change (near_frontier_inputs !! 1%nat) with (Some [1]).
  change (near_frontier_outputs !! 1%nat) with (Some [0.999995]).
  cbn [mbind option_bind].
  rewrite bool_decide_eq_false_2 by done.
  rewrite near_frontier_lp. cbn [mbind option_bind]. rewrite Hres.
  cbn [mbind option_bind]. rewrite Hok, Hx. simpl.
  eexists. split; [reflexivity|]. simpl. split; [done|]. split.
  - f_equal. apply np_isclose_one. rewrite Rabs_left by lra. lra.
  - rewrite Rabs_left by lra. lra.
Qed.

Lemma dea_efficiency_tolerance_failing_input_witness :
  exists r,
    dea_efficiency linprog_near_frontier near_frontier_inputs
      near_frontier_outputs 1 "input" = Some r /\
    dr_efficiency r = Some 0.999995 /\
    dr_is_efficient r = Some true /\
    Rabs (0.999995 - 1) > 1e-6.
Proof.
  apply dea_efficiency_tolerance_failing_input.
  eexists. split; [reflexivity|]. split; [reflexivity|].
  exact near_frontier_point_optimal.
Defined.

(* ================================================================== *)
(** * Properties: a failed solve *)
(* ================================================================== *)

Lemma dea_efficiency_unfold linprog (inputs outputs : matrix) (i : nat)
    orientation x_k y_k :
  inputs !! i = Some x_k -> outputs !! i = Some y_k ->
  dea_efficiency linprog inputs outputs (Z.of_nat i) orientation
  = (lp ← dea_lp inputs outputs i orientation;
     result ← linprog lp;
     if lp_success result then
       dea_efficiency linprog inputs outputs (Z.of_nat i) orientation
     else Some (failure_result (scale_key orientation) (lp_message result))).
Proof.
  intros Hx Hy. unfold dea_efficiency at 1, dea_lp, scale_key.
  rewrite !py_index_of_nat by (unfold nrows; by eapply lookup_lt_Some).
  cbn [mbind option_bind]. rewrite Hx, Hy. cbn [mbind option_bind].
  case_bool_decide as Ho.
  - destruct (dea_lp_output _ _ _ _) as [lp|] eqn:Hlp; [|done].
    cbn [mbind option_bind].
    destruct (linprog lp) as [result|] eqn:Hres; [|done].
    cbn [mbind option_bind].
    destruct (lp_success result) eqn:Hok; [|done].
    unfold dea_efficiency.
    rewrite !py_index_of_nat by (unfold nrows; by eapply lookup_lt_Some).
    cbn [mbind option_bind]. rewrite Hx, Hy. cbn [mbind option_bind].
    rewrite bool_decide_eq_true_2 by done. rewrite Hlp.
    cbn [mbind option_bind]. rewrite Hres. cbn [mbind option_bind].
    by rewrite Hok.
  - destruct (dea_lp_input _ _ _ _) as [lp|] eqn:Hlp; [|done].
    cbn [mbind option_bind].
    destruct (linprog lp) as [result|] eqn:Hres; [|done].
    cbn [mbind option_bind].
    destruct (lp_success result) eqn:Hok; [|done].
    unfold dea_efficiency.
    rewrite !py_index_of_nat by (unfold nrows; by eapply lookup_lt_Some).
    cbn [mbind option_bind]. rewrite Hx, Hy. cbn [mbind option_bind].
    rewrite bool_decide_eq_false_2 by done. rewrite Hlp.
    cbn [mbind option_bind]. rewrite Hres. cbn [mbind option_bind].
    by rewrite Hok.
Qed.

(** A failed solve is reported, not raised. *)
Lemma dea_efficiency_failure linprog (inputs outputs : matrix) (i : nat)
    orientation lp res :
  dea_lp inputs outputs i orientation = Some lp ->
  linprog lp = Some res -> lp_success res = false ->
  dea_efficiency linprog inputs outputs (Z.of_nat i) orientation
  = Some (failure_result (scale_key orientation) (lp_message res)).
Proof.
  intros Hlp Hres Hok.
  assert (Hrows : exists x_k y_k, inputs !! i = Some x_k /\ outputs !! i = Some y_k).
  { unfold dea_lp in Hlp. destruct (inputs !! i) as [x_k|]; [|done].
    destruct (outputs !! i) as [y_k|]; [|done]. eauto. }
  destruct Hrows as (x_k & y_k & Hx & Hy).
  rewrite (dea_efficiency_unfold linprog inputs outputs i orientation x_k y_k)
    by done.
  rewrite Hlp. cbn [mbind option_bind]. rewrite Hres. cbn [mbind option_bind].
  by rewrite Hok.
Qed.

Lemma dea_efficiency_result linprog (inputs outputs : matrix) dmu_index
    orientation r :
  dea_efficiency linprog inputs outputs dmu_index orientation = Some r ->
  (exists message, r = failure_result (scale_key orientation) message) \/
  solved_result orientation r.
Proof.
  unfold dea_efficiency, solved_result, scale_key. intros Hrun.
  apply bind_Some in Hrun as (k & _ & Hrun).
  apply bind_Some in Hrun as (x_k & _ & Hrun).
  apply bind_Some in Hrun as (k' & _ & Hrun).
  apply bind_Some in Hrun as (y_k & _ & Hrun).
  case_bool_decide as Ho.
  - apply bind_Some in Hrun as (lp & _ & Hrun).
    apply bind_Some in Hrun as (result & _ & Hrun).
    destruct (lp_success result).
    + apply bind_Some in Hrun as (phi & _ & Hrun).
      apply bind_Some in Hrun as (used & _ & Hrun).
      apply bind_Some in Hrun as (slack_inputs & _ & Hrun).
      apply bind_Some in Hrun as (produced & _ & Hrun).
      apply bind_Some in Hrun as (slack_outputs & _ & Hrun).
      injection Hrun as <-. right. eexists _, _. simpl.
      split; [reflexivity|]. split; reflexivity.
    + injection Hrun as <-. left. eauto.
  - apply bind_Some in Hrun as (lp & _ & Hrun).
    apply bind_Some in Hrun as (result & _ & Hrun).
    destruct (lp_success result).
    + apply bind_Some in Hrun as (theta & _ & Hrun).
      apply bind_Some in Hrun as (used & _ & Hrun).
      apply bind_Some in Hrun as (slack_inputs & _ & Hrun).
      apply bind_Some in Hrun as (produced & _ & Hrun).
      apply bind_Some in Hrun as (slack_outputs & _ & Hrun).
      injection Hrun as <-. right. eexists _, _. simpl.
      split; [reflexivity|]. split; reflexivity.
    + injection Hrun as <-. left. eauto.
Qed.

Lemma mapM_seq_Some {A} (f : nat -> option A) c :
  (forall j, (j < c)%nat -> is_Some (f j)) ->
  exists l, mapM f (seq 0 c) = Some l /\ length l = c.
Proof.
  intros Hf.
  destruct (mapM_is_Some_2 f (seq 0 c)) as [l Hl].
  { apply Forall_forall. intros j Hj. apply elem_of_seq in Hj.
    apply Hf. lia. }
  exists l. split; [done|].
  apply mapM_Some, Forall2_length in Hl. by rewrite length_seq in Hl.
Qed.

Lemma assign_slice_same len (v : vector) :
  length v = len -> assign_slice len v = Some v.
Proof. intros Hlen. unfold assign_slice. by rewrite bool_decide_eq_true_2. Qed.

Lemma column_length {A} c (M : list (list A)) j :
  Forall (fun row => length row = c) M -> (j < c)%nat ->
  exists col, column M j = Some col /\ length col = length M.
Proof.
  intros Hrect Hj. destruct (column_is_Some c M j Hrect Hj) as [col Hcol].
  exists col. split; [done|]. by apply column_Some_inv in Hcol as [? _].
Qed.

Lemma matT_vec_Some c (M : matrix) (v : vector) :
  rectangular c M -> M <> [] -> length v = nrows M ->
  exists u, matT_vec M v = Some u /\ length u = c.
Proof.
  intros Hrect Hne Hlen. unfold matT_vec.
  rewrite bool_decide_eq_true_2 by done.
  rewrite (ncols_rectangular c M Hrect Hne).
  apply mapM_seq_Some. intros j Hj.
  destruct (column_length c M j Hrect Hj) as (col & -> & _). by eexists.
Qed.

Section DEA_shapes.

Context (inputs outputs : list (list R)) (n p q : nat).
Hypothesis Hn_in : nrows inputs = n.
Hypothesis Hn_out : nrows outputs = n.
Hypothesis Hrect_in : rectangular p inputs.
Hypothesis Hrect_out : rectangular q outputs.

Lemma dea_rows (i : nat) :
  (i < n)%nat ->
  exists x_k y_k, inputs !! i = Some x_k /\ outputs !! i = Some y_k /\
                  length x_k = p /\ length y_k = q /\
                  ncols inputs = p /\ ncols outputs = q.
Proof using Hn_in Hn_out Hrect_in Hrect_out.
  intros Hi. unfold nrows in *.
  destruct (lookup_lt_is_Some_2 inputs i) as [x_k Hx]; [lia|].
  destruct (lookup_lt_is_Some_2 outputs i) as [y_k Hy]; [lia|].
  exists x_k, y_k. split; [done|]. split; [done|].
  split; [eapply (proj1 (Forall_lookup _ _) Hrect_in); eauto|].
  split; [eapply (proj1 (Forall_lookup _ _) Hrect_out); eauto|].
  split; apply ncols_rectangular; try done.
  - intros ->. done.
  - intros ->. done.
Qed.

Lemma dea_lp_Some (i : nat) orientation :
  (i < n)%nat ->
  exists lp, dea_lp inputs outputs i orientation = Some lp /\
             length (lp_c lp) = S n.
Proof using Hn_in Hn_out Hrect_in Hrect_out.
  intros Hi.
  destruct (dea_rows i Hi) as (x_k & y_k & Hx & Hy & Hlx & Hly & Hp & Hq).
  unfold dea_lp. rewrite Hx, Hy. cbn [mbind option_bind].
  assert (Hcol_in : forall j, (j < p)%nat -> exists col,
            column inputs j = Some col /\ assign_slice n col = Some col).
  { intros j Hj. destruct (column_length p inputs j Hrect_in Hj)
      as (col & Hcol & Hlen).
    exists col. split; [done|]. apply assign_slice_same.
    unfold nrows in Hn_in. congruence. }
  assert (Hcol_out : forall j, (j < q)%nat -> exists col,
            column outputs j = Some col /\
            assign_slice n (Ropp <$> col) = Some (Ropp <$> col)).
  { intros j Hj. destruct (column_length q outputs j Hrect_out Hj)
      as (col & Hcol & Hlen).
    exists col. split; [done|]. apply assign_slice_same.
    rewrite length_fmap. unfold nrows in Hn_out. congruence. }
  case_bool_decide.
  - unfold dea_lp_output. rewrite Hp, Hq.
    destruct (mapM_seq_Some
      (fun i0 => col ← column inputs i0;
                 coeffs ← assign_slice (nrows inputs) col; Some (0 :: coeffs)) p)
      as (rows_in & -> & _).
    { intros j Hj. destruct (Hcol_in j Hj) as (col & -> & Hslice).
      cbn [mbind option_bind]. rewrite Hn_in, Hslice. by eexists. }
    cbn [mbind option_bind].
    destruct (mapM_seq_Some
      (fun r => y ← y_k !! r; col ← column outputs r;
                coeffs ← assign_slice (nrows inputs) (Ropp <$> col);
                Some (y :: coeffs)) q)
      as (rows_out & -> & _).
    { intros j Hj. destruct (Hcol_out j Hj) as (col & Hcol & Hslice).
      destruct (lookup_lt_is_Some_2 y_k j) as [y ->]; [lia|].
      cbn [mbind option_bind]. rewrite Hcol. cbn [mbind option_bind].
      rewrite Hn_in, Hslice. by eexists. }
    cbn [mbind option_bind]. eexists. split; [reflexivity|]. simpl.
    by rewrite length_replicate, Hn_in.
  - unfold dea_lp_input. rewrite Hp, Hq.
    destruct (mapM_seq_Some
      (fun i0 => x ← x_k !! i0; col ← column inputs i0;
                 coeffs ← assign_slice (nrows inputs) col;
                 Some (- x :: coeffs)) p)
      as (rows_in & -> & _).
    { intros j Hj. destruct (Hcol_in j Hj) as (col & Hcol & Hslice).
      destruct (lookup_lt_is_Some_2 x_k j) as [x ->]; [lia|].
      cbn [mbind option_bind]. rewrite Hcol. cbn [mbind option_bind].
      rewrite Hn_in, Hslice. by eexists. }
    cbn [mbind option_bind].
    destruct (mapM_seq_Some
      (fun r => col ← column outputs r;
                coeffs ← assign_slice (nrows inputs) (Ropp <$> col);
                Some (0 :: coeffs)) q)
      as (rows_out & -> & _).
    { intros j Hj. destruct (Hcol_out j Hj) as (col & -> & Hslice).
      cbn [mbind option_bind]. rewrite Hn_in, Hslice. by eexists. }
    cbn [mbind option_bind]. eexists. split; [reflexivity|]. simpl.
    by rewrite length_replicate, Hn_in.
Qed.

End DEA_shapes.

Lemma dea_efficiency_returns linprog (inputs outputs : matrix) n p q i
    orientation :
  nrows inputs = n -> nrows outputs = n ->
  rectangular p inputs -> rectangular q outputs -> (i < n)%nat ->
  linprog_answers linprog inputs outputs orientation i ->
  is_Some (dea_efficiency linprog inputs outputs (Z.of_nat i) orientation).
Proof.
  intros Hn_in Hn_out Hrect_in Hrect_out Hi Hlin.
  destruct (dea_rows inputs outputs n p q Hn_in Hn_out Hrect_in Hrect_out i Hi)
    as (x_k & y_k & Hx & Hy & Hlx & Hly & Hp & Hq).
  destruct (dea_lp_Some inputs outputs n p q Hn_in Hn_out Hrect_in Hrect_out
              i orientation Hi) as (lp & Hlp & _).
  destruct (Hlin lp Hlp) as (res & Hres & Hlen).
  destruct (lp_success res) eqn:Hok.
  2:{ erewrite dea_efficiency_failure; eauto. }
  specialize (Hlen eq_refl). rewrite Hn_in in Hlen.
  destruct (lp_x res) as [|scale lambdas] eqn:Hxs; [done|].
  simpl in Hlen. assert (Hll : length lambdas = n) by lia.
  assert (Hin_ne : inputs <> []) by (intros ->; done).
  assert (Hout_ne : outputs <> []) by (intros ->; done).
  destruct (matT_vec_Some p inputs lambdas Hrect_in Hin_ne)
    as (used & Hused & Hlu); [congruence|].
  destruct (matT_vec_Some q outputs lambdas Hrect_out Hout_ne)
    as (produced & Hprod & Hlp'); [congruence|].
  unfold dea_lp in Hlp. rewrite Hx, Hy in Hlp. cbn [mbind option_bind] in Hlp.
  unfold dea_efficiency.
  rewrite !py_index_of_nat by (unfold nrows in *; lia).
  cbn [mbind option_bind]. rewrite Hx, Hy. cbn [mbind option_bind].
  case_bool_decide.
  - rewrite Hlp. cbn [mbind option_bind]. rewrite Hres.
    cbn [mbind option_bind]. rewrite Hok, Hxs.
    cbn [lookup list_lookup drop mbind option_bind]. rewrite !drop_0.
    rewrite Hused. cbn [mbind option_bind].
    rewrite (np_binop_same_length Rminus x_k used) by congruence.
    cbn [mbind option_bind]. rewrite Hprod. cbn [mbind option_bind].
    rewrite np_binop_same_length by (rewrite length_fmap; congruence).
    by eexists.
  - rewrite Hlp. cbn [mbind option_bind]. rewrite Hres.
    cbn [mbind option_bind]. rewrite Hok, Hxs.
    cbn [lookup list_lookup drop mbind option_bind]. rewrite !drop_0.
    rewrite Hused. cbn [mbind option_bind].
    rewrite np_binop_same_length by (rewrite length_fmap; congruence).
    cbn [mbind option_bind]. rewrite Hprod. cbn [mbind option_bind].
    rewrite np_binop_same_length by congruence.
    by eexists.
Qed.

Lemma improvement_step_failed (inputs outputs : matrix) names orientation
    results targets i key message :
  results !! i = Some (failure_result key message) ->
  improvement_step inputs outputs names orientation results targets i
  = Some targets.
Proof. intros Hr. unfold improvement_step. by rewrite Hr. Qed.

Lemma improvement_step_returns (inputs outputs : matrix) names orientation
    results targets i r x_k y_k name :
  results !! i = Some r ->
  (exists message, r = failure_result (scale_key orientation) message) \/
    solved_result orientation r ->
  inputs !! i = Some x_k -> outputs !! i = Some y_k ->
  names !! i = Some name ->
  exists targets',
    improvement_step inputs outputs names orientation results targets i
      = Some targets' /\
    (targets' = targets \/
     exists t, targets' = <[name := t]> targets /\
       is_Some (dr_efficiency r) /\ dr_is_efficient r = Some false).
Proof.
  intros Hr Hshape Hx Hy Hname.
  destruct Hshape as [[message ->]|(e & s & He & Hs & Hflag)].
  { erewrite improvement_step_failed by done. eauto. }
  unfold improvement_step. rewrite Hr. cbn [mbind option_bind].
  rewrite Hflag, He. unfold truthy. cbn [default].
  destruct (np_isclose e 1.0 default_rtol 1e-6) eqn:Hclose.
  { simpl. eauto. }
  rewrite bool_decide_eq_true_2 by (by eexists).
  cbn [negb andb]. unfold dr_get_scale. rewrite Hs. unfold scale_key.
  case_bool_decide as Ho.
  - rewrite bool_decide_eq_true_2 by done. cbn [mbind option_bind snd].
    rewrite Hy. cbn [mbind option_bind].
    rewrite np_binop_same_length by (by rewrite length_fmap).
    cbn [mbind option_bind]. rewrite Hname. cbn [mbind option_bind].
    eexists. split; [reflexivity|]. right. eexists. split; [reflexivity|].
    split; [by eexists|done].
  - rewrite bool_decide_eq_true_2 by done. cbn [mbind option_bind snd].
    rewrite Hx. cbn [mbind option_bind].
    rewrite np_binop_same_length by (by rewrite length_fmap).
    cbn [mbind option_bind]. rewrite Hname. cbn [mbind option_bind].
    eexists. split; [reflexivity|]. right. eexists. split; [reflexivity|].
    split; [by eexists|done].
Qed.

(** The loop over the DMUs: it returns, and every entry it adds belongs to
    a DMU whose program was solved and that is not flagged efficient. *)
Lemma improvement_loop (inputs outputs : matrix) names orientation results
    (positions : list nat) :
  (forall i, i ∈ positions -> exists r x_k y_k name,
     results !! i = Some r /\
     ((exists message, r = failure_result (scale_key orientation) message) \/
      solved_result orientation r) /\
     inputs !! i = Some x_k /\ outputs !! i = Some y_k /\
     names !! i = Some name) ->
  forall targets, exists targets',
    for_each (improvement_step inputs outputs names orientation results)
             targets positions = Some targets' /\
    forall name t, targets' !! name = Some t ->
      targets !! name = Some t \/
      exists i r, i ∈ positions /\ names !! i = Some name /\
        results !! i = Some r /\ is_Some (dr_efficiency r) /\
        dr_is_efficient r = Some false.
Proof.
  induction positions as [|i rest IH]; intros Hall targets.
  - exists targets. split; [done|]. auto.
  - destruct (Hall i) as (r & x_k & y_k & name & Hr & Hshape & Hx & Hy & Hname);
      [by left|].
    destruct (improvement_step_returns inputs outputs names orientation results
                targets i r x_k y_k name Hr Hshape Hx Hy Hname)
      as (targets1 & Hstep & Hadded).
    destruct (IH (fun j Hj => Hall j (list_elem_of_further _ _ _ Hj)) targets1)
      as (targets' & Hloop & Hfrom).
    exists targets'. cbn [for_each]. rewrite Hstep. cbn [mbind option_bind].
    split; [done|]. intros name' t Ht.
    destruct (Hfrom name' t Ht) as [Hold|(j & rj & Hj & ?)].
    + destruct Hadded as [->|(t1 & -> & Heff & Hflag)]; [by left|].
      destruct (decide (name = name')) as [<-|Hne].
      * right. exists i, r. split; [by left|]. done.
      * rewrite lookup_insert_ne in Hold by done. by left.
    + right. exists j, rj. split; [by right|]. done.
Qed.

Lemma np_isclose_zero_one : np_isclose 0 1.0 default_rtol 1e-6 = false.
Proof.
  destruct (np_isclose 0 1.0 default_rtol 1e-6) eqn:Hc; [|done].
  apply np_isclose_one in Hc. rewrite Rabs_left in Hc by lra. lra.
Qed.

(** C5.  A failed solve is a result, not an exception: [dea_efficiency]
    returns the dict with [None] efficiency, raw value, lambdas, slacks,
    flag and peers and a status that starts with "failed: ".  On
    well-shaped inputs, with a [linprog] that answers and an [argsort] that
    meets its contract, [dea_efficiency_all] returns; a DMU whose solve
    failed has efficiency 0 in the efficiencies vector, is ranked with it,
    is not in [frontier_dmus], and contributes no improvement target:
    every target belongs to a DMU that was solved. *)
Theorem dea_failure_is_contained
    (linprog : lp_problem -> option lp_result) (argsort : list R -> list nat)
    (inputs outputs : matrix) (dmu_names : option (list string))
    (orientation : string) (n p q : nat) :
  nrows inputs = n -> nrows outputs = n ->
  rectangular p inputs -> rectangular q outputs ->
  (forall i, (i < n)%nat -> linprog_answers linprog inputs outputs orientation i) ->
  argsort_contract argsort ->
  (n <= length (dmu_names_used n dmu_names))%nat ->
  exists agg,
    dea_efficiency_all linprog argsort inputs outputs dmu_names orientation
      = Some agg /\
    length (da_results agg) = n /\ length (da_efficiencies agg) = n /\
    da_ranking agg = argsort (Ropp <$> da_efficiencies agg) /\
    Permutation (da_ranking agg) (seq 0 n) /\
    (forall i lp res, (i < n)%nat ->
       dea_lp inputs outputs i orientation = Some lp ->
       linprog lp = Some res -> lp_success res = false ->
       dea_efficiency linprog inputs outputs (Z.of_nat i) orientation
         = Some (failure_result (scale_key orientation) (lp_message res)) /\
       da_results agg !! i
         = Some (failure_result (scale_key orientation) (lp_message res)) /\
       da_efficiencies agg !! i = Some 0 /\
       i ∈ da_ranking agg /\
       i ∉ da_frontier_dmus agg) /\
    (forall name t, da_improvement_targets agg !! name = Some t ->
       exists i r, (i < n)%nat /\
         dmu_names_used n dmu_names !! i = Some name /\
         da_results agg !! i = Some r /\
         is_Some (dr_efficiency r) /\ dr_is_efficient r = Some false).
Proof.
  intros Hn_in Hn_out Hrect_in Hrect_out Hlin Hsort Hnames.
  destruct (mapM_seq_Some
    (fun i : nat => dea_efficiency linprog inputs outputs (Z.of_nat i) orientation)
    n) as (results & Hresults & Hlen_results).
  { intros i Hi. eapply dea_efficiency_returns; eauto. }
  assert (Hres_i : forall i, (i < n)%nat -> exists r,
            results !! i = Some r /\
            dea_efficiency linprog inputs outputs (Z.of_nat i) orientation
              = Some r).
  { intros i Hi. apply mapM_Some in Hresults.
    destruct (Forall2_lookup_l _ _ _ i i Hresults) as (r & Hr & Hrun).
    { by apply lookup_seq_lt. }
    eauto. }
  set (efficiencies := (fun r => default 0 (dr_efficiency r)) <$> results).
  assert (Hlen_eff : length efficiencies = n).
  { unfold efficiencies. by rewrite length_fmap. }
  set (names := dmu_names_used n dmu_names) in *.
  destruct (Hsort (Ropp <$> efficiencies)) as [Hperm _].
  rewrite length_fmap, Hlen_eff in Hperm.
  assert (Hrank_lt : forall i, i ∈ argsort (Ropp <$> efficiencies) -> (i < n)%nat).
  { intros i Hi. rewrite Hperm in Hi. apply elem_of_seq in Hi. lia. }
  assert (Hname_i : forall i, (i < n)%nat -> is_Some (names !! i)).
  { intros i Hi. apply lookup_lt_is_Some_2. lia. }
  destruct (improvement_loop inputs outputs names orientation results (seq 0 n))
    with (targets := (∅ : gmap string improvement))
    as (targets & Hloop & Hfrom).
  { intros i Hi. apply elem_of_seq in Hi.
    destruct (Hres_i i) as (r & Hr & Hrun); [lia|].
    destruct (dea_rows inputs outputs n p q Hn_in Hn_out Hrect_in Hrect_out i)
      as (x_k & y_k & Hx & Hy & _); [lia|].
    destruct (Hname_i i) as [name Hname]; [lia|].
    exists r, x_k, y_k, name. split; [done|].
    split; [by eapply dea_efficiency_result|]. done. }
  set (frontier := positions_where
         (fun e => np_isclose e 1.0 default_rtol 1e-6) efficiencies).
  destruct (mapM_is_Some_2 (fun i => names !! i) frontier)
    as [frontier_names Hfn].
  { apply Forall_forall. intros i Hi. apply Hname_i.
    apply positions_where_spec in Hi as (e & He & _).
    rewrite <- Hlen_eff. by eapply lookup_lt_Some. }
  destruct (mapM_is_Some_2 (fun i => names !! i)
              (argsort (Ropp <$> efficiencies))) as [ranked_names Hrn].
  { apply Forall_forall. intros i Hi. apply Hname_i. by apply Hrank_lt. }
  destruct (mapM_is_Some_2 (fun i => efficiencies !! i)
              (argsort (Ropp <$> efficiencies))) as [ranked_eff Hre].
  { apply Forall_forall. intros i Hi. apply lookup_lt_is_Some_2.
    rewrite Hlen_eff. by apply Hrank_lt. }
  eexists. split.
  { unfold dea_efficiency_all. rewrite Hn_in.
    fold (dmu_names_used n dmu_names). fold names.
    rewrite Hresults. cbn [mbind option_bind]. fold efficiencies.
    rewrite Hloop. cbn [mbind option_bind]. fold frontier.
    rewrite Hfn. cbn [mbind option_bind]. rewrite Hrn.
    cbn [mbind option_bind]. rewrite Hre. cbn [mbind option_bind].
    reflexivity. }
  cbn [da_results da_efficiencies da_ranking da_frontier_dmus
       da_improvement_targets].
  split; [done|]. split; [done|]. split; [done|]. split; [done|].
  split.
  - intros i lp res Hi Hlp Hres Hok.
    pose proof (dea_efficiency_failure linprog inputs outputs i orientation
                  lp res Hlp Hres Hok) as Hfail.
    destruct (Hres_i i Hi) as (r & Hr & Hrun).
    assert (r = failure_result (scale_key orientation) (lp_message res))
      by congruence. subst r.
    assert (Heff0 : efficiencies !! i = Some 0).
    { unfold efficiencies. by rewrite list_lookup_fmap, Hr. }
    split; [done|]. split; [done|]. split; [done|]. split.
    + rewrite Hperm. apply elem_of_seq. lia.
    + intros Hin. apply positions_where_spec in Hin as (e & He & Hclose).
      assert (e = 0) by congruence. subst e.
      by rewrite np_isclose_zero_one in Hclose.
  - intros name t Ht.
    destruct (Hfrom name t Ht) as [Hempty|(i & r & Hi & Hname & Hr & Heff & Hflag)].
    + by rewrite lookup_empty in Hempty.
    + apply elem_of_seq in Hi. exists i, r. split; [lia|]. done.
Qed.

Lemma dea_failure_is_contained_witness :
  exists agg,
    dea_efficiency_all linprog_first_fails argsort_reverse_ties
      two_dmus two_dmus None "output" = Some agg /\
    da_results agg !! 0%nat
      = Some (failure_result "phi" "The problem is infeasible.") /\
    da_efficiencies agg !! 0%nat = Some 0 /\
    0%nat ∈ da_ranking agg /\
    0%nat ∉ da_frontier_dmus agg.
Proof.
  destruct (dea_failure_is_contained linprog_first_fails argsort_reverse_ties
              two_dmus two_dmus None "output" 2 1 1)
    as (agg & Hrun & _ & _ & _ & _ & Hfailed & _).
  - reflexivity.
  - reflexivity.
  - repeat constructor.
  - repeat constructor.
  - intros i Hi lp Hlp. unfold linprog_first_fails.
    destruct (bool_decide _); eexists; (split; [reflexivity|]); simpl.
    + intros [=].
    + reflexivity.
  - exact argsort_reverse_ties_contract.
  - simpl. lia.
  - exists agg. split; [exact Hrun|].
    destruct (Hfailed 0%nat
                {| lp_c := [-1.0; 0.0; 0.0];
                   lp_A_ub := [[0; 1; 2]; [1; Ropp 1; Ropp 2]];
                   lp_b_ub := [1; 0];
                   lp_bounds := [(Some 1.0, None); (Some 0, None); (Some 0, None)] |}
                {| lp_success := false; lp_x := [];
                   lp_message := "The problem is infeasible." |})
      as (_ & Hres & Heff & Hrank & Hfront).
    + lia.
    + reflexivity.
    + unfold linprog_first_fails. simpl.
      by rewrite bool_decide_eq_true_2.
    + reflexivity.
    + done.
Defined.

(* ================================================================== *)
(** * Properties: the tolerance on both paths *)
(* ================================================================== *)

(** The flag of a solved DMU and membership in [frontier_dmus] are the
    test [|efficiency - 1| <= 1.1e-5]. *)
Lemma dea_is_efficient_tolerance linprog (inputs outputs : matrix) dmu_index
    orientation r e :
  dea_efficiency linprog inputs outputs dmu_index orientation = Some r ->
  dr_efficiency r = Some e ->
  (dr_is_efficient r = Some true <-> Rabs (e - 1) <= 1.1e-5).
Proof.
  intros Hrun He.
  destruct (dea_efficiency_result _ _ _ _ _ _ Hrun)
    as [[message ->]|(e' & s & He' & _ & Hflag)]; [done|].
  assert (e' = e) by congruence. subst e'. rewrite Hflag.
  rewrite <- np_isclose_one. split; [by intros [= ->]|by intros ->].
Qed.

Lemma dea_frontier_tolerance linprog argsort (inputs outputs : matrix)
    dmu_names orientation agg i :
  dea_efficiency_all linprog argsort inputs outputs dmu_names orientation
    = Some agg ->
  (i ∈ da_frontier_dmus agg <->
   exists e, da_efficiencies agg !! i = Some e /\ Rabs (e - 1) <= 1.1e-5).
Proof.
  unfold dea_efficiency_all. intros Hrun.
  apply bind_Some in Hrun as (results & _ & Hrun).
  apply bind_Some in Hrun as (targets & _ & Hrun).
  apply bind_Some in Hrun as (frontier_names & _ & Hrun).
  apply bind_Some in Hrun as (ranked_names & _ & Hrun).
  apply bind_Some in Hrun as (ranked_efficiencies & _ & Hrun).
  injection Hrun as <-. simpl. rewrite positions_where_spec.
  split; intros (e & He & Hclose); exists e; (split; [done|]);
    by apply np_isclose_one.
Qed.

(* ================================================================== *)
(** * Further properties: when the matrix builder raises *)
(* ================================================================== *)

Lemma py_index_Some_lt len i a : py_index len i = Some a -> (a < len)%nat.
Proof.
  unfold py_index. repeat case_bool_decide; intros [= <-]; lia.
Qed.

Lemma py_index_is_Some len i :
  is_Some (py_index len i) <-> index_in_range (Z.of_nat len) i.
Proof.
  unfold py_index, index_in_range. split.
  - intros [a Ha]. repeat case_bool_decide; try done; lia.
  - intros Hi. repeat case_bool_decide; try (by eexists); lia.
Qed.

Lemma mat_set_square n (M : matrix) i j v :
  nrows M = n -> rectangular n M ->
  (is_Some (mat_set M i j v) <->
   index_in_range (Z.of_nat n) i /\ index_in_range (Z.of_nat n) j) /\
  (forall M', mat_set M i j v = Some M' -> nrows M' = n /\ rectangular n M').
Proof.
  intros Hn Hrect. unfold mat_set. split; [split|].
  - intros [M' HM'].
    apply bind_Some in HM' as (a & Ha & HM').
    apply bind_Some in HM' as (row & Hrow & HM').
    apply bind_Some in HM' as (b & Hb & _).
    assert (length row = n) as Hlen.
    { eapply (proj1 (Forall_lookup _ _) Hrect); eauto. }
    split.
    + rewrite <- Hn. apply py_index_is_Some. by eexists.
    + rewrite <- Hlen. apply py_index_is_Some. by eexists.
  - intros [Hi Hj]. rewrite <- Hn in Hi.
    apply py_index_is_Some in Hi as [a Ha]. rewrite Ha. simpl.
    destruct (lookup_lt_is_Some_2 M a) as [row Hrow].
    { by eapply py_index_Some_lt. }
    rewrite Hrow. simpl.
    assert (length row = n) as Hlen.
    { eapply (proj1 (Forall_lookup _ _) Hrect); eauto. }
    rewrite <- Hlen in Hj. apply py_index_is_Some in Hj as [b Hb].
    rewrite Hb. simpl. by eexists.
  - intros M' HM'.
    apply bind_Some in HM' as (a & Ha & HM').
    apply bind_Some in HM' as (row & Hrow & HM').
    apply bind_Some in HM' as (b & Hb & HM'). injection HM' as <-.
    assert (length row = n) as Hlen.
    { eapply (proj1 (Forall_lookup _ _) Hrect); eauto. }
    unfold nrows in *. split; [by rewrite length_insert|].
    apply Forall_insert; [done|]. by rewrite length_insert.
Qed.

Lemma comparison_step_square n (M : matrix) item :
  nrows M = n -> rectangular n M ->
  (is_Some (comparison_step M item) <-> judgment_accepted (Z.of_nat n) item) /\
  (forall M', comparison_step M item = Some M' ->
     nrows M' = n /\ rectangular n M').
Proof.
  intros Hn Hrect. destruct item as [[i j] v].
  unfold judgment_accepted. cbn [fst snd].
  assert (Hbody :
    (is_Some (M1 ← mat_set M i j v; r ← py_div 1 v; mat_set M1 j i r) <->
     index_in_range (Z.of_nat n) i /\ index_in_range (Z.of_nat n) j /\ v <> 0) /\
    (forall M', (M1 ← mat_set M i j v; r ← py_div 1 v; mat_set M1 j i r)
                = Some M' -> nrows M' = n /\ rectangular n M')).
  { destruct (mat_set_square n M i j v Hn Hrect) as [Hsome1 Hshape1].
    split; [split|].
    - intros [M' HM'].
      apply bind_Some in HM' as (M1 & HM1 & HM').
      apply bind_Some in HM' as (r & Hr & _).
      destruct (proj1 Hsome1) as [Hi Hj]; [by eexists|].
      split; [done|]. split; [done|].
      unfold py_div in Hr. by case_bool_decide.
    - intros (Hi & Hj & Hv).
      destruct (proj2 Hsome1) as [M1 HM1]; [done|]. rewrite HM1. simpl.
      unfold py_div. rewrite bool_decide_eq_false_2 by done. simpl.
      destruct (Hshape1 M1 HM1) as [Hn1 Hrect1].
      by apply (mat_set_square n M1 j i (1 / v) Hn1 Hrect1).
    - intros M' HM'.
      apply bind_Some in HM' as (M1 & HM1 & HM').
      apply bind_Some in HM' as (r & Hr & HM').
      destruct (Hshape1 M1 HM1) as [Hn1 Hrect1].
      by apply (mat_set_square n M1 j i r Hn1 Hrect1). }
  destruct Hbody as [Hsome Hshape].
  unfold comparison_step. case_bool_decide as Hlt.
  - split; [|exact Hshape]. rewrite Hsome. split; [by right|].
    intros [Heq|?]; [lia|done].
  - case_bool_decide as Hgt.
    + split; [|exact Hshape]. rewrite Hsome. split; [by right|].
      intros [Heq|?]; [lia|done].
    + split.
      * split; [intros _; left; lia|by eexists].
      * by intros M' [= <-].
Qed.

Lemma comparison_loop_square n (comparisons : list ((Z * Z) * R)) :
  forall M, nrows M = n -> rectangular n M ->
  (is_Some (for_each comparison_step M comparisons) <->
   Forall (judgment_accepted (Z.of_nat n)) comparisons) /\
  (forall M', for_each comparison_step M comparisons = Some M' ->
     nrows M' = n /\ rectangular n M').
Proof.
  induction comparisons as [|item rest IH]; intros M Hn Hrect.
  - simpl. split; [split; [constructor|by eexists]|by intros M' [= <-]].
  - destruct (comparison_step_square n M item Hn Hrect) as [Hsome1 Hshape1].
    cbn [for_each]. split; [split|].
    + intros [M' HM']. apply bind_Some in HM' as (M1 & HM1 & HM').
      destruct (Hshape1 M1 HM1) as [Hn1 Hrect1]. constructor.
      * apply Hsome1. by eexists.
      * apply (IH M1 Hn1 Hrect1). by eexists.
    + intros Hall. apply Forall_cons in Hall as [Hitem Hall].
      destruct (proj2 Hsome1 Hitem) as [M1 HM1]. rewrite HM1. simpl.
      destruct (Hshape1 M1 HM1) as [Hn1 Hrect1].
      by apply (IH M1 Hn1 Hrect1).
    + intros M' HM'. apply bind_Some in HM' as (M1 & HM1 & HM').
      destruct (Hshape1 M1 HM1) as [Hn1 Hrect1].
      by apply (IH M1 Hn1 Hrect1).
Qed.

(** X1.  [create_comparison_matrix] returns exactly when [n >= 0] and
    every judgment off the diagonal has both indices in [-n, n) and a
    non-zero value; a judgment keyed [(i, i)] is skipped whatever its index
    and value.  Otherwise it raises. *)
Theorem create_comparison_matrix_returns_iff
    (comparisons : list ((Z * Z) * R)) (n : Z) :
  is_Some (create_comparison_matrix comparisons n) <->
  (0 <= n)%Z /\ Forall (judgment_accepted n) comparisons.
Proof.
  unfold create_comparison_matrix, np_ones. case_bool_decide as Hneg.
  - split; [by intros [? ?]|]. intros [? _]. lia.
  - simpl. set (m := Z.to_nat n).
    assert (Hm : Z.of_nat m = n) by (unfold m; lia).
    destruct (comparison_loop_square m comparisons
                (replicate m (replicate m 1))) as [Hsome _].
    + unfold nrows. by rewrite length_replicate.
    + apply Forall_replicate. by rewrite length_replicate.
    + rewrite Hm in Hsome. rewrite Hsome. split; [|by intros [_ ?]].
      intros Hall. split; [lia|done].
Qed.

(** X2.  Whenever [create_comparison_matrix] returns, the result has [n]
    rows of [n] entries each. *)
Theorem create_comparison_matrix_shape
    (comparisons : list ((Z * Z) * R)) (n : Z) (M : matrix) :
  create_comparison_matrix comparisons n = Some M ->
  Z.of_nat (nrows M) = n /\ rectangular (Z.to_nat n) M.
Proof.
  unfold create_comparison_matrix, np_ones. case_bool_decide as Hneg; [done|].
  simpl. intros Hrun.
  destruct (comparison_loop_square (Z.to_nat n) comparisons
              (replicate (Z.to_nat n) (replicate (Z.to_nat n) 1)))
    as [_ Hshape].
  - unfold nrows. by rewrite length_replicate.
  - apply Forall_replicate. by rewrite length_replicate.
  - destruct (Hshape M Hrun) as [Hn Hrect]. split; [lia|done].
Qed.

Lemma create_comparison_matrix_shape_witness :
  Z.of_nat (nrows [[1; 3]; [1 / 3; 1]]) = 2%Z /\
  rectangular (Z.to_nat 2) [[1; 3]; [1 / 3; 1]].
Proof.
  apply (create_comparison_matrix_shape [((0, 1)%Z, 3)] 2).
  unfold create_comparison_matrix, py_div. simpl.
  unfold py_div. rewrite !bool_decide_eq_false_2 by lra. reflexivity.
Defined.

(* ================================================================== *)
(** * Further properties: the order of the judgments *)
(* ================================================================== *)

Lemma matrix_ext (M M' : matrix) :
  nrows M = nrows M' ->
  (forall a b, entry M a b = entry M' a b) -> M = M'.
Proof.
  unfold nrows, entry. intros Hlen Hent. apply list_eq. intros a.
  destruct (M !! a) as [row|] eqn:Hrow.
  - destruct (lookup_lt_is_Some_2 M' a) as [row' Hrow'].
    { rewrite <- Hlen. by eapply lookup_lt_Some. }
    rewrite Hrow'. f_equal. apply list_eq. intros b.
    specialize (Hent a b). by rewrite Hrow, Hrow' in Hent.
  - symmetry. apply lookup_ge_None. rewrite <- Hlen.
    by apply lookup_ge_None.
Qed.

(** X3.  The result does not depend on the order in which the mapping
    yields its items: for accepted judgments with distinct keys, none of
    which is the reverse of another, any reordering of the items builds
    the same matrix. *)
Theorem create_comparison_matrix_order_independent
    (comparisons comparisons' : list ((Z * Z) * R)) (n : nat) :
  comparisons ≡ₚ comparisons' ->
  NoDup (comparisons.*1) ->
  Forall (judgment_ok n) comparisons ->
  (forall i j v v', ((i, j), v) ∈ comparisons -> ((j, i), v') ∉ comparisons) ->
  create_comparison_matrix comparisons (Z.of_nat n) =
  create_comparison_matrix comparisons' (Z.of_nat n).
Proof.
  intros Hperm Hnd Hok Hrev. unfold create_comparison_matrix.
  destruct (np_ones_inv n) as (M0 & Hones & Hinv0 & _).
  rewrite Hones. simpl.
  assert (Hnd' : NoDup (comparisons'.*1)) by (by rewrite <- Hperm).
  assert (Hok' : Forall (judgment_ok n) comparisons') by (by rewrite <- Hperm).
  destruct (comparison_loop_inv n comparisons M0 Hinv0 Hok Hnd)
    as (M & -> & (Hn & _) & Hframe & Hput).
  destruct (comparison_loop_inv n comparisons' M0 Hinv0 Hok' Hnd')
    as (M' & -> & (Hn' & _) & Hframe' & Hput').
  f_equal. apply matrix_ext; [congruence|]. intros a b.
  set (P := fun item : (Z * Z) * R =>
    (Z.to_nat item.1.1 = a /\ Z.to_nat item.1.2 = b) \/
    (Z.to_nat item.1.2 = a /\ Z.to_nat item.1.1 = b)).
  destruct (decide (Exists P comparisons)) as [Hex|Hnone].
  - apply Exists_exists in Hex as ([[i j] v] & Hin & HP).
    assert (Hin' : ((i, j), v) ∈ comparisons') by (by rewrite <- Hperm).
    assert (Habsent : forall v', ((j, i), v') ∉ comparisons).
    { intros v'. by eapply Hrev. }
    assert (Habsent' : forall v', ((j, i), v') ∉ comparisons').
    { intros v'. rewrite <- Hperm. by eapply Hrev. }
    destruct (Hput i j v Hin Habsent) as [H1 H2].
    destruct (Hput' i j v Hin' Habsent') as [H1' H2'].
    unfold P in HP. cbn [fst snd] in HP.
    destruct HP as [[<- <-]|[<- <-]]; congruence.
  - apply not_Exists_Forall in Hnone; [|intros x; unfold P; apply _].
    assert (Hfree : forall i j v, ((i, j), v) ∈ comparisons ->
              ~ (Z.to_nat i = a /\ Z.to_nat j = b) /\
              ~ (Z.to_nat j = a /\ Z.to_nat i = b)).
    { intros i j v Hin.
      apply (proj1 (Forall_forall _ _) Hnone) in Hin.
      unfold compose, P in Hin. cbn [fst snd] in Hin. tauto. }
    rewrite Hframe by done. rewrite Hframe'; [done|].
    intros i j v Hin. apply (Hfree i j v). by rewrite Hperm.
Qed.

Lemma create_comparison_matrix_order_independent_witness :
  create_comparison_matrix [((0, 1)%Z, 3); ((0, 2)%Z, 2)] (Z.of_nat 3) =
  create_comparison_matrix [((0, 2)%Z, 2); ((0, 1)%Z, 3)] (Z.of_nat 3).
Proof.
  apply create_comparison_matrix_order_independent.
  - apply perm_swap.
  - apply (bool_decide_unpack _). by vm_compute.
  - repeat (apply Forall_cons; split;
            [unfold judgment_ok; repeat split; (lia || lra)|]).
    apply Forall_nil_2.
  - intros i j v v' Hin Hin'.
    apply elem_of_cons in Hin as [Heq|Hin];
      [|apply elem_of_cons in Hin as [Heq|Hin];
        [|by apply elem_of_nil in Hin]];
      inversion Heq; subst;
      (apply elem_of_cons in Hin' as [Heq'|Hin'];
        [inversion Heq'
        |apply elem_of_cons in Hin' as [Heq'|Hin'];
          [inversion Heq'|by apply elem_of_nil in Hin']]).
Defined.

(* ================================================================== *)
(** * Further properties: small matrices are always consistent *)
(* ================================================================== *)

(** X4.  For a matrix of at most two rows the consistency ratio is 0 and
    the matrix is reported consistent, whatever eigenvalue the solver
    reports: the consistency index is divided by a random index only when
    that index is positive, and it is 0 for sizes 1 and 2. *)
Theorem ahp_consistency_ratio_small
    (eig : list (list R) -> option eig_result) (format_4f : R -> string)
    (comparison_matrix : matrix) (r : consistency_result) :
  (nrows comparison_matrix <= 2)%nat ->
  ahp_consistency_ratio eig format_4f comparison_matrix = Some r ->
  cr_cr r = 0 /\ cr_is_consistent r = true /\
  cr_message r = ("Consistent (CR=" +:+ format_4f 0 +:+ " < 0.10)")%string.
Proof.
  intros Hn Hrun. unfold ahp_consistency_ratio in Hrun.
  apply bind_Some in Hrun as ([[weights lambda_max] ci] & Hw & Hrun).
  injection Hrun as <-. cbn [cr_cr cr_is_consistent cr_message].
  assert (Hcr : (if bool_decide
                      (default 1.49 (RANDOM_INDEX !! nrows comparison_matrix) > 0)
                 then ci / default 1.49 (RANDOM_INDEX !! nrows comparison_matrix)
                 else 0) = 0).
  { destruct (nrows comparison_matrix) as [|[|[|k]]] eqn:Hk; [| | |lia].
    - (* no row: the index of the table's default, and CI = 0 *)
      unfold ahp_weights in Hw. rewrite Hk in Hw.
      apply bind_Some in Hw as ([vals vecs] & _ & Hw).
      apply bind_Some in Hw as (k & _ & Hw).
      apply bind_Some in Hw as (lam & _ & Hw).
      apply bind_Some in Hw as (col & _ & Hw).
      rewrite bool_decide_eq_false_2 in Hw by lia.
      injection Hw as _ _ <-.
      case_bool_decide; [|done]. unfold Rdiv. lra.
    - assert (RANDOM_INDEX !! 1%nat = Some 0.00) as -> by reflexivity.
      simpl. rewrite bool_decide_eq_false_2 by lra. done.
    - assert (RANDOM_INDEX !! 2%nat = Some 0.00) as -> by reflexivity.
      simpl. rewrite bool_decide_eq_false_2 by lra. done. }
  rewrite Hcr. rewrite bool_decide_eq_true_2 by lra. done.
Qed.

Lemma ahp_consistency_ratio_small_witness :
  exists r, ahp_consistency_ratio eig_2x2 (fun _ => "0.0000"%string)
              judgment_2x2 = Some r /\
    cr_cr r = 0 /\ cr_is_consistent r = true /\
    cr_message r = "Consistent (CR=0.0000 < 0.10)"%string.
Proof.
  destruct (ahp_consistency_ratio eig_2x2 (fun _ => "0.0000"%string)
              judgment_2x2) as [r|] eqn:Hr.
  - exists r. split; [done|].
    apply (ahp_consistency_ratio_small eig_2x2 (fun _ => "0.0000"%string)
             judgment_2x2 r); [simpl; lia|exact Hr].
  - exfalso. revert Hr.
    unfold ahp_consistency_ratio, ahp_weights, eig_2x2, judgment_2x2.
    cbn -[INR Rdiv]. decide_concrete. cbn -[INR Rdiv]. done.
Defined.

(* ================================================================== *)
(** * Further properties: the sign step of the weights *)
(* ================================================================== *)

Lemma np_sum_fmap_opp (v : vector) : np_sum (Ropp <$> v) = - np_sum v.
Proof.
  induction v as [|x v IH]; [simpl; lra|].
  rewrite fmap_cons, !np_sum_cons, IH. lra.
Qed.

Lemma existsb_negative (v : vector) :
  (existsb (fun w => bool_decide (w < 0)) v = true -> Exists (fun x => x < 0) v) /\
  (existsb (fun w => bool_decide (w < 0)) v = false ->
   Forall (fun x => 0 <= x) v).
Proof.
  induction v as [|x v [IHt IHf]]; simpl.
  - split; [done|constructor].
  - case_bool_decide as Hx; simpl.
    + split; [by left|done].
    + split; [intros Hv; right; by apply IHt|].
      intros Hv. constructor; [lra|by apply IHf].
Qed.

(** X5.  The weights [ahp_weights] returns sum to 1 or to -1.  After
    dividing the eigenvector by its (non-zero) sum the entries sum to 1; if
    none is negative they are returned, and if any is negative the whole
    vector is negated, so it sums to -1 and has a positive entry. *)
Theorem ahp_weights_sum_one_or_minus_one
    (eig : list (list R) -> option eig_result) (comparison_matrix : matrix)
    (eigenvalues : list complex) (eigenvectors : list (list complex))
    (max_idx : nat) (col : list complex)
    (weights : vector) (lambda_max ci : R) :
  eig comparison_matrix = Some (eigenvalues, eigenvectors) ->
  np_argmax (re <$> eigenvalues) = Some max_idx ->
  column eigenvectors max_idx = Some col ->
  np_sum (re <$> col) <> 0 ->
  ahp_weights eig comparison_matrix = Some (weights, lambda_max, ci) ->
  (np_sum weights = 1 /\ Forall (fun x => 0 <= x) weights) \/
  (np_sum weights = -1 /\ Exists (fun x => 0 < x) weights).
Proof.
  intros Heig Hidx Hcol Htotal Hrun. unfold ahp_weights in Hrun.
  rewrite Heig in Hrun. cbn [mbind option_bind] in Hrun.
  rewrite Hidx in Hrun. cbn [mbind option_bind] in Hrun.
  apply bind_Some in Hrun as (lam & _ & Hrun).
  rewrite Hcol in Hrun. cbn [mbind option_bind] in Hrun.
  injection Hrun as Hw _ _.
  set (total := np_sum (re <$> col)) in *.
  set (normed := (fun x => x / total) <$> (re <$> col)) in *.
  assert (Hsum : np_sum normed = 1).
  { unfold normed. rewrite np_sum_fmap_div. fold total. by field. }
  destruct (existsb_negative normed) as [Hneg Hnonneg].
  destruct (existsb _ normed); subst weights.
  - right. split; [rewrite np_sum_fmap_opp; lra|].
    apply Exists_fmap. eapply Exists_impl; [by apply Hneg|].
    simpl. intros x Hx. lra.
  - left. split; [done|by apply Hnonneg].
Qed.

Lemma ahp_weights_sum_one_or_minus_one_witness :
  (np_sum [Ropp (Ropp 2 / (Ropp 2 + (1 + 0))); Ropp (1 / (Ropp 2 + (1 + 0)))] = 1 /\
   Forall (fun x => 0 <= x)
     [Ropp (Ropp 2 / (Ropp 2 + (1 + 0))); Ropp (1 / (Ropp 2 + (1 + 0)))]) \/
  (np_sum [Ropp (Ropp 2 / (Ropp 2 + (1 + 0))); Ropp (1 / (Ropp 2 + (1 + 0)))] = -1 /\
   Exists (fun x => 0 < x)
     [Ropp (Ropp 2 / (Ropp 2 + (1 + 0))); Ropp (1 / (Ropp 2 + (1 + 0)))]).
Proof.
  apply (ahp_weights_sum_one_or_minus_one eig_mixed_signs mixed_signs_2x2
           [Complex 2 0; Complex 0 0]
           [[Complex (Ropp 2) 0; Complex 2 0]; [Complex 1 0; Complex 1 0]]
           0 [Complex (Ropp 2) 0; Complex 1 0] _ 2
           ((2 - INR 2) / (INR 2 - 1))).
  - reflexivity.
  - unfold np_argmax. cbn. decide_concrete. reflexivity.
  - reflexivity.
  - cbn. lra.
  - unfold ahp_weights, eig_mixed_signs, mixed_signs_2x2.
    cbn -[INR Rdiv]. decide_concrete. cbn -[INR Rdiv].
    assert (Hneg : 1 / (Ropp 2 + (1 + 0)) < 0).
    { replace (Ropp 2 + (1 + 0)) with (-1) by lra. lra. }
    rewrite (bool_decide_eq_true_2 _ Hneg). cbn [orb].
    rewrite orb_true_r. reflexivity.
Defined.

(* ================================================================== *)
(** * Further properties: a judgment outside the matrix *)
(* ================================================================== *)

Lemma mat_get_out_of_range n (A : matrix) i j :
  nrows A = n -> rectangular n A ->
  ~ (index_in_range (Z.of_nat n) i /\ index_in_range (Z.of_nat n) j) ->
  mat_get A i j = None.
Proof.
  intros Hn Hrect Hout. unfold mat_get.
  destruct (py_index (nrows A) i) as [a|] eqn:Ha; [|done]. simpl.
  destruct (A !! a) as [row|] eqn:Hrow; [|done]. simpl.
  assert (length row = n) as Hlen.
  { eapply (proj1 (Forall_lookup _ _) Hrect); eauto. }
  destruct (py_index (length row) j) as [b|] eqn:Hb; [|done].
  exfalso. apply Hout. split.
  - rewrite <- Hn. apply py_index_is_Some. by eexists.
  - rewrite <- Hlen. apply py_index_is_Some. by eexists.
Qed.

Lemma sensitivity_loop_index_error eig f4 f2 cm (A : matrix) n base range i j :
  nrows A = n -> rectangular n A ->
  ~ (index_in_range (Z.of_nat n) i /\ index_in_range (Z.of_nat n) j) ->
  forall (vary_indices : list (Z * Z)) vars (h : heap),
    h !! cm = Some A -> (i, j) ∈ vary_indices ->
    (py_for
       (fun vars '(i, j) =>
          original_value ← arr_get cm i j;
          py_for (vary_judgment eig f4 f2 cm i j original_value base)
                 vars [1 - range; 1 + range])
       vars vary_indices h).2 = None.
Proof.
  intros Hn Hrect Hout.
  set (body := fun (vars : gmap string variation) '(i, j) =>
          original_value ← arr_get cm i j;
          py_for (vary_judgment eig f4 f2 cm i j original_value base)
                 vars [1 - range; 1 + range]).
  induction vary_indices as [|[i0 j0] rest IH]; intros vars h Hcm Hin.
  - by apply elem_of_nil in Hin.
  - cbn [py_for]. unfold mbind at 1, Py_bind at 1, py_bind at 1.
    apply elem_of_cons in Hin as [Heq|Hin].
    + injection Heq as <- <-.
      assert (Hraise : body vars (i, j) h = (h, None)).
      { unfold body, mbind, Py_bind, py_bind, arr_get.
        rewrite Hcm. cbn [mbind option_bind].
        by rewrite (mat_get_out_of_range n A i j). }
      by rewrite Hraise.
    + assert (Hkeeps : keeps h (body vars (i0, j0)) (fun _ => True)).
      { unfold body. eapply keeps_bind; [apply keeps_get|]. intros original _.
        apply (keeps_for h (vary_judgment eig f4 f2 cm i0 j0 original _)
                 [1 - range; 1 + range]).
        intros vars' factor. apply vary_judgment_keeps. }
      destruct (Hkeeps h) as [Hsub _]; [done|].
      destruct (body vars (i0, j0) h) as [h1 [vars1|]]; [|done].
      apply IH; [|done]. simpl in Hsub. by eapply lookup_weaken.
Qed.

(** X6.  [ahp_sensitivity_analysis] raises when any pair to vary lies
    outside the square matrix it is given (an index outside [-n, n)): the
    read of the original judgment fails, whatever the other pairs are. *)
Theorem ahp_sensitivity_analysis_index_error
    (eig : list (list R) -> option eig_result) (format_4f format_2f : R -> string)
    (h : heap) (comparison_matrix : nat) (A : matrix) (n : nat)
    (vary_indices : list (Z * Z)) (variation_range : R) (i j : Z) :
  h !! comparison_matrix = Some A ->
  nrows A = n -> rectangular n A ->
  (i, j) ∈ vary_indices ->
  ~ (index_in_range (Z.of_nat n) i /\ index_in_range (Z.of_nat n) j) ->
  (ahp_sensitivity_analysis eig format_4f format_2f comparison_matrix
     vary_indices variation_range h).2 = None.
Proof.
  intros Hcm Hn Hrect Hin Hout. unfold ahp_sensitivity_analysis.
  unfold mbind at 1, Py_bind at 1, py_bind at 1, arr_read at 1.
  rewrite Hcm.
  unfold mbind at 1, Py_bind at 1, py_bind at 1, py_lift at 1.
  destruct (ahp_consistency_ratio eig format_4f A) as [base_result|]; [|done].
  unfold mbind at 1, Py_bind at 1, py_bind at 1.
  pose proof (sensitivity_loop_index_error eig format_4f format_2f
                comparison_matrix A n (cr_weights base_result) variation_range
                i j Hn Hrect Hout vary_indices ∅ h Hcm Hin) as Hloop.
  destruct (py_for _ ∅ vary_indices h) as [h1 [vars|]]; [done|done].
Qed.

Lemma ahp_sensitivity_analysis_index_error_witness :
  (ahp_sensitivity_analysis eig_2x2 (fun _ => "0.0000"%string)
     (fun _ => "1.00"%string) 0 [(0, 1)%Z; (0, 2)%Z] 0.25
     {[ 0%nat := judgment_2x2 ]}).2 = None.
Proof.
  apply (ahp_sensitivity_analysis_index_error _ _ _ _ _ judgment_2x2 2 _ _
           0%Z 2%Z).
  - apply lookup_singleton_eq.
  - reflexivity.
  - repeat constructor.
  - apply elem_of_cons. right. apply elem_of_cons. by left.
  - unfold index_in_range. lia.
Defined.

(* ================================================================== *)
(** * Further properties: what vector normalization produces *)
(* ================================================================== *)








Lemma sum_rows_from_length c (M : matrix) :
  rectangular c M -> length (sum_rows_from c M) = c.
Proof.
  unfold sum_rows_from. induction 1 as [|row M Hrow _ IH]; simpl.
  - apply length_replicate.
  - rewrite length_zip_with, IH, Hrow. lia.
Qed.

Lemma normalizer_length c (M : matrix) :
  rectangular c M -> M <> [] ->
  length (where_zero_one (col_norms M)) = c.
Proof.
  intros Hrect Hne. unfold where_zero_one, col_norms, np_sum_axis0.
  rewrite !length_fmap.
  pose proof (np_square_rectangular c M Hrect) as Hsq.
  assert (Hne' : np_square M <> []) by (by destruct M).
  rewrite (ncols_rectangular c (np_square M) Hsq Hne').
  by apply sum_rows_from_length.
Qed.

Lemma normalize_matrix_rectangular c (M : matrix) :
  rectangular c M -> M <> [] ->
  nrows (normalize_matrix M) = nrows M /\ rectangular c (normalize_matrix M).
Proof.
  intros Hrect Hne. split.
  - unfold normalize_matrix, nrows. by rewrite length_fmap.
  - unfold normalize_matrix. fold (col_norms M).
    apply Forall_fmap. eapply Forall_impl; [exact Hrect|].
    intros row Hrow. simpl.
    rewrite length_zip_with, (normalizer_length c M Hrect Hne). simpl in Hrow. lia.
Qed.



(* ================================================================== *)
(** * Further properties: the range of the closeness scores *)
(* ================================================================== *)

Lemma row_distances_nonneg (W : matrix) (v d : vector) :
  row_distances W v = Some d ->
  length d = length W /\ Forall (fun x => 0 <= x) d.
Proof.
  unfold row_distances, np_binop_rows. intros Hd.
  apply bind_Some in Hd as (diffs & Hdiffs & Hd). injection Hd as <-.
  apply mapM_Some, Forall2_length in Hdiffs. split.
  - unfold np_square. by rewrite !length_fmap.
  - apply Forall_fmap, Forall_forall. intros row _. apply sqrt_pos.
Qed.


Lemma closeness_scores_lookup (s_plus s_minus c : vector) :
  length s_plus = length s_minus ->
  closeness_scores s_plus s_minus = Some c ->
  length c = length s_minus /\
  forall i x, c !! i = Some x ->
    exists p q, s_plus !! i = Some p /\ s_minus !! i = Some q /\
      x = q / (if bool_decide (p + q = 0) then 1 else p + q).
Proof.
  intros Hlen. unfold closeness_scores.
  rewrite np_binop_same_length by done. cbn [mbind option_bind].
  rewrite np_binop_same_length
    by (unfold where_zero_one; rewrite length_fmap, length_zip_with; lia).
  intros [= <-]. split.
  - unfold where_zero_one.
    rewrite length_zip_with, length_fmap, length_zip_with. lia.
  - intros i x Hx.
    apply lookup_zip_with_Some in Hx as (q & d & -> & Hq & Hd).
    unfold where_zero_one in Hd. rewrite list_lookup_fmap in Hd.
    apply fmap_Some in Hd as (s & Hs & ->).
    apply lookup_zip_with_Some in Hs as (p & q' & -> & Hp & Hq').
    assert (q' = q) as -> by congruence. eauto.
Qed.


Lemma weighted_matrix_rows (N : matrix) (w : vector) (W : matrix) :
  weighted_matrix N w = Some W -> length W = length N.
Proof.
  unfold weighted_matrix, np_binop_rows. intros HW.
  apply mapM_Some, Forall2_length in HW. done.
Qed.

(** The stages of [topsis_rank] up to the closeness scores. *)
Lemma topsis_rank_stages argsort (D : matrix) (w : vector)
    (types : list string) names (res : topsis_result) :
  topsis_rank argsort D w types names = Some res ->
  length (tr_weighted_matrix res) = nrows D /\
  ideal_solutions (tr_weighted_matrix res) types
    = Some (tr_ideal res, tr_negative_ideal res) /\
  row_distances (tr_weighted_matrix res) (tr_ideal res)
    = Some (tr_s_plus res) /\
  row_distances (tr_weighted_matrix res) (tr_negative_ideal res)
    = Some (tr_s_minus res) /\
  closeness_scores (tr_s_plus res) (tr_s_minus res) = Some (tr_closeness res).
Proof.
  intros Hrun. unfold topsis_rank in Hrun.
  apply bind_Some in Hrun as (W & HW & Hrun).
  apply bind_Some in Hrun as ([ideal neg] & Hideal & Hrun).
  apply bind_Some in Hrun as ([sp sm] & Hsep & Hrun).
  apply bind_Some in Hrun as (c & Hc & Hrun).
  apply bind_Some in Hrun as (ranked_alternatives & _ & Hrun).
  apply bind_Some in Hrun as (ranked_scores & _ & Hrun).
  injection Hrun as <-. simpl.
  unfold separation_measures in Hsep.
  apply bind_Some in Hsep as (sp' & Hsp & Hsep).
  apply bind_Some in Hsep as (sm' & Hsm & Hsep).
  injection Hsep as -> ->.
  split; [|done].
  apply weighted_matrix_rows in HW. rewrite HW.
  unfold normalize_matrix, nrows. by rewrite length_fmap.
Qed.



(* ================================================================== *)
(** * Further properties: the best and the worst alternative *)
(* ================================================================== *)








(* ================================================================== *)
(** * Further properties: the ideal solutions bound their columns *)
(* ================================================================== *)

Lemma foldl_Rmax_spec (rest : vector) :
  forall x, foldl Rmax x rest ∈ x :: rest /\
            forall y, y ∈ x :: rest -> y <= foldl Rmax x rest.
Proof.
  induction rest as [|z rest IH]; intros x; simpl.
  - split; [by left|]. intros y Hy. apply list_elem_of_singleton in Hy. lra.
  - destruct (IH (Rmax x z)) as [Hin Hmax]. split.
    + apply elem_of_cons in Hin as [Heq|Hin].
      * rewrite Heq. unfold Rmax. destruct (Rle_dec x z).
        -- right. by left.
        -- by left.
      * right. by right.
    + intros y Hy.
      assert (Hxz : Rmax x z <= foldl Rmax (Rmax x z) rest)
        by (apply Hmax; by left).
      apply elem_of_cons in Hy as [->|Hy].
      * pose proof (Rmax_l x z). lra.
      * apply elem_of_cons in Hy as [->|Hy].
        -- pose proof (Rmax_r x z). lra.
        -- apply Hmax. by right.
Qed.

Lemma foldl_Rmin_spec (rest : vector) :
  forall x, foldl Rmin x rest ∈ x :: rest /\
            forall y, y ∈ x :: rest -> foldl Rmin x rest <= y.
Proof.
  induction rest as [|z rest IH]; intros x; simpl.
  - split; [by left|]. intros y Hy. apply list_elem_of_singleton in Hy. lra.
  - destruct (IH (Rmin x z)) as [Hin Hmin]. split.
    + apply elem_of_cons in Hin as [Heq|Hin].
      * rewrite Heq. unfold Rmin. destruct (Rle_dec x z).
        -- by left.
        -- right. by left.
      * right. by right.
    + intros y Hy.
      assert (Hxz : foldl Rmin (Rmin x z) rest <= Rmin x z)
        by (apply Hmin; by left).
      apply elem_of_cons in Hy as [->|Hy].
      * pose proof (Rmin_l x z). lra.
      * apply elem_of_cons in Hy as [->|Hy].
        -- pose proof (Rmin_r x z). lra.
        -- apply Hmin. by right.
Qed.

Lemma np_max_spec (v : vector) m :
  np_max v = Some m -> m ∈ v /\ forall y, y ∈ v -> y <= m.
Proof.
  destruct v as [|x rest]; [done|]. intros [= <-]. apply foldl_Rmax_spec.
Qed.

Lemma np_min_spec (v : vector) m :
  np_min v = Some m -> m ∈ v /\ forall y, y ∈ v -> m <= y.
Proof.
  destruct v as [|x rest]; [done|]. intros [= <-]. apply foldl_Rmin_spec.
Qed.

(** X11.  For every criterion [j], [ideal[j]] and [negative_ideal[j]] are
    entries of column [j] of the weighted matrix, and every entry of the
    column lies between them: below the ideal for a benefit criterion,
    above it for any other tag. *)
Theorem ideal_solutions_bounds (weighted : matrix)
    (criteria_types : list string) (ideal negative_ideal : vector)
    (j : nat) (best worst : R) :
  ideal_solutions weighted criteria_types = Some (ideal, negative_ideal) ->
  ideal !! j = Some best -> negative_ideal !! j = Some worst ->
  exists col tag,
    column weighted j = Some col /\ criteria_types !! j = Some tag /\
    best ∈ col /\ worst ∈ col /\
    forall x, x ∈ col ->
      if bool_decide (lower tag = "benefit"%string)
      then worst <= x <= best else best <= x <= worst.
Proof.
  unfold ideal_solutions. intros Hrun Hbest Hworst.
  apply bind_Some in Hrun as (pairs & Hpairs & Hrun).
  injection Hrun as <- <-.
  rewrite list_lookup_fmap in Hbest, Hworst.
  apply fmap_Some in Hbest as ([b w] & Hp & ->).
  rewrite Hp in Hworst. injection Hworst as <-. cbn [fst snd].
  apply mapM_Some in Hpairs.
  destruct (Forall2_lookup_r _ _ _ _ _ Hpairs Hp) as (j' & Hj' & Hpair).
  apply lookup_seq in Hj' as [-> _]. simpl in Hpair.
  unfold ideal_pair in Hpair.
  apply bind_Some in Hpair as (col & Hcol & Hpair).
  apply bind_Some in Hpair as (tag & Htag & Hpair).
  exists col, tag. split; [done|]. split; [done|].
  case_bool_decide as Hbenefit.
  - apply bind_Some in Hpair as (hi & Hhi & Hpair).
    apply bind_Some in Hpair as (lo & Hlo & Hpair).
    injection Hpair as <- <-.
    destruct (np_max_spec _ _ Hhi) as [Hin_hi Hmax].
    destruct (np_min_spec _ _ Hlo) as [Hin_lo Hmin].
    split; [done|]. split; [done|]. intros x Hx. split; auto.
  - apply bind_Some in Hpair as (lo & Hlo & Hpair).
    apply bind_Some in Hpair as (hi & Hhi & Hpair).
    injection Hpair as <- <-.
    destruct (np_max_spec _ _ Hhi) as [Hin_hi Hmax].
    destruct (np_min_spec _ _ Hlo) as [Hin_lo Hmin].
    split; [done|]. split; [done|]. intros x Hx. split; auto.
Qed.

Lemma ideal_solutions_bounds_witness :
  exists col tag,
    column [[1; 5]; [3; 2]] 1 = Some col /\
    ["benefit"%string; "cost"%string] !! 1%nat = Some tag /\
    Rmin 5 2 ∈ col /\ Rmax 5 2 ∈ col /\
    forall x, x ∈ col ->
      if bool_decide (lower tag = "benefit"%string)
      then Rmax 5 2 <= x <= Rmin 5 2 else Rmin 5 2 <= x <= Rmax 5 2.
Proof.
  apply (ideal_solutions_bounds [[1; 5]; [3; 2]]
           ["benefit"%string; "cost"%string]
           [Rmax 1 3; Rmin 5 2] [Rmin 1 3; Rmax 5 2] 1).
  - reflexivity.
  - reflexivity.
  - reflexivity.
Defined.

(* ================================================================== *)
(** * Further properties: the weights count up to scale *)
(* ================================================================== *)





(* ================================================================== *)
(** * Further properties: the ranked lists *)
(* ================================================================== *)

Lemma topsis_rank_ranked argsort (D : matrix) (w : vector)
    (types : list string) names (res : topsis_result) :
  topsis_rank argsort D w types names = Some res ->
  tr_ranking res = argsort (Ropp <$> tr_closeness res) /\
  mapM (fun i => default ((fun i : nat => ("Alternative_" +:+ pretty i)%string)
                            <$> seq 0 (nrows D)) names !! i)
       (tr_ranking res) = Some (tr_ranked_alternatives res) /\
  mapM (fun i => tr_closeness res !! i) (tr_ranking res)
    = Some (tr_ranked_scores res).
Proof.
  intros Hrun. unfold topsis_rank in Hrun.
  apply bind_Some in Hrun as (W & HW & Hrun).
  apply bind_Some in Hrun as ([ideal neg] & Hideal & Hrun).
  apply bind_Some in Hrun as ([sp sm] & Hsep & Hrun).
  apply bind_Some in Hrun as (c & Hc & Hrun).
  apply bind_Some in Hrun as (ranked_alternatives & Hnames & Hrun).
  apply bind_Some in Hrun as (ranked_scores & Hscores & Hrun).
  injection Hrun as <-. by simpl.
Qed.

Lemma mapM_cons_Some {A B} (f : A -> option B) x (l : list A) r :
  mapM f (x :: l) = Some r <->
  exists b r0, f x = Some b /\ mapM f l = Some r0 /\ r = b :: r0.
Proof.
  cbn [mapM]. split.
  - intros Hr. apply bind_Some in Hr as (b & Hb & Hr).
    apply bind_Some in Hr as (r0 & Hr0 & Hr). injection Hr as <-. eauto.
  - intros (b & r0 & -> & Hr0 & ->). cbn [mbind option_bind].
    by rewrite Hr0.
Qed.

Lemma mapM_lookup_all (c : vector) :
  forall k, mapM (fun i => c !! i) (seq k (length c - k)) = Some (drop k c).
Proof.
  intros k. remember (length c - k)%nat as n eqn:Hn. revert k Hn.
  induction n as [|n IH]; intros k Hn.
  - simpl. by rewrite drop_ge by lia.
  - destruct (lookup_lt_is_Some_2 c k) as [x Hx]; [lia|].
    cbn [seq]. apply mapM_cons_Some. exists x, (drop (S k) c).
    split; [done|]. split; [apply IH; lia|].
    by rewrite (drop_S c x k Hx).
Qed.

Lemma mapM_Permutation {A B} (f : A -> option B) (l l' : list A) r :
  l ≡ₚ l' -> mapM f l = Some r ->
  exists r', mapM f l' = Some r' /\ r ≡ₚ r'.
Proof.
  intros Hperm. revert r.
  induction Hperm as [|x l l' _ IH|x y l|l l' l'' _ IH1 _ IH2]; intros r Hr.
  - exists r. by split.
  - apply mapM_cons_Some in Hr as (b & r0 & Hb & Hr0 & ->).
    destruct (IH r0 Hr0) as (r' & Hr' & Hperm').
    exists (b :: r'). split; [|by constructor].
    apply mapM_cons_Some. eauto.
  - apply mapM_cons_Some in Hr as (b & r0 & Hb & Hr0 & ->).
    apply mapM_cons_Some in Hr0 as (b' & r1 & Hb' & Hr1 & ->).
    exists (b' :: b :: r1). split; [|apply perm_swap].
    apply mapM_cons_Some. eexists _, _. split; [done|]. split; [|done].
    apply mapM_cons_Some. eauto.
  - destruct (IH1 r Hr) as (r' & Hr' & Hp1).
    destruct (IH2 r' Hr') as (r'' & Hr'' & Hp2).
    exists r''. split; [done|]. by etrans.
Qed.

(** X13.  With an [argsort] that sorts ascending, [ranked_scores] holds
    the closeness scores rearranged, largest first, and [ranked_scores[k]]
    and [ranked_alternatives[k]] are the score and the name of the
    alternative [ranking[k]]. *)
Theorem topsis_rank_ranked_scores (argsort : list R -> list nat)
    (decision_matrix : matrix) (weights : vector)
    (criteria_types : list string) (names : option (list string))
    (res : topsis_result) :
  argsort_contract argsort ->
  topsis_rank argsort decision_matrix weights criteria_types names = Some res ->
  Permutation (tr_ranked_scores res) (tr_closeness res) /\
  (forall a b x y, (a < b)%nat ->
     tr_ranked_scores res !! a = Some x ->
     tr_ranked_scores res !! b = Some y -> y <= x) /\
  (forall k i, tr_ranking res !! k = Some i ->
     tr_ranked_scores res !! k = tr_closeness res !! i /\
     tr_ranked_alternatives res !! k
     = default ((fun i : nat => ("Alternative_" +:+ pretty i)%string)
                  <$> seq 0 (nrows decision_matrix)) names !! i).
Proof.
  intros Hcontract Hrun.
  destruct (topsis_rank_ranked _ _ _ _ _ _ Hrun) as (Hranking & Hnames & Hscores).
  destruct (Hcontract (Ropp <$> tr_closeness res)) as [Hperm Hsorted].
  rewrite length_fmap, <- Hranking in Hperm. rewrite <- Hranking in Hsorted.
  pose proof (proj1 (mapM_Some _ _ _) Hscores) as Hall.
  pose proof (proj1 (mapM_Some _ _ _) Hnames) as Hall'.
  split; [|split].
  - destruct (mapM_Permutation _ _ _ _ Hperm Hscores) as (r' & Hr' & Hp).
    pose proof (mapM_lookup_all (tr_closeness res) 0) as Hid.
    rewrite Nat.sub_0_r, drop_0 in Hid.
    rewrite Hid in Hr'. injection Hr' as <-. done.
  - intros a b x y Hab Hx Hy.
    destruct (Forall2_lookup_r _ _ _ _ _ Hall Hx) as (i & Hi & Hci).
    destruct (Forall2_lookup_r _ _ _ _ _ Hall Hy) as (j & Hj & Hcj).
    simpl in Hci, Hcj.
    assert (- x <= - y); [|lra].
    apply (Hsorted a b i j); try done.
    + by rewrite list_lookup_fmap, Hci.
    + by rewrite list_lookup_fmap, Hcj.
  - intros k i Hi. split.
    + destruct (Forall2_lookup_l _ _ _ _ _ Hall Hi) as (x & Hx & Hci).
      simpl in Hci. congruence.
    + destruct (Forall2_lookup_l _ _ _ _ _ Hall' Hi) as (x & Hx & Hni).
      simpl in Hni. congruence.
Qed.

Lemma topsis_rank_ranked_scores_witness :
  exists res,
    topsis_rank argsort_reverse_ties [[1]; [1]] [1] ["benefit"%string] None
      = Some res /\
    Permutation (tr_ranked_scores res) (tr_closeness res) /\
    (forall a b x y, (a < b)%nat ->
       tr_ranked_scores res !! a = Some x ->
       tr_ranked_scores res !! b = Some y -> y <= x) /\
    (forall k i, tr_ranking res !! k = Some i ->
       tr_ranked_scores res !! k = tr_closeness res !! i /\
       tr_ranked_alternatives res !! k
       = default ((fun i : nat => ("Alternative_" +:+ pretty i)%string)
                    <$> seq 0 (nrows [[1]; [1]])) None !! i).
Proof.
  destruct topsis_rank_tied_run as (res & Hrun & _).
  exists res. split; [exact Hrun|].
  exact (topsis_rank_ranked_scores argsort_reverse_ties [[1]; [1]] [1]
           ["benefit"%string] None res argsort_reverse_ties_contract Hrun).
Defined.

(** X14.  With an [argsort] that returns a permutation of the positions,
    [topsis_rank] raises when it is given fewer names than the decision
    matrix has rows: the name of some ranked alternative is missing. *)
Theorem topsis_rank_names_too_short (argsort : list R -> list nat)
    (decision_matrix : matrix) (weights : vector)
    (criteria_types : list string) (names : list string) :
  argsort_contract argsort ->
  (length names < nrows decision_matrix)%nat ->
  topsis_rank argsort decision_matrix weights criteria_types (Some names)
  = None.
Proof.
  intros Hcontract Hshort.
  destruct (topsis_rank _ _ _ _ _) as [res|] eqn:Hrun; [|done]. exfalso.
  destruct (topsis_rank_ranked _ _ _ _ _ _ Hrun) as (Hranking & Hnames & _).
  destruct (topsis_rank_stages _ _ _ _ _ _ Hrun)
    as (HW & _ & Hsp & Hsm & Hc).
  destruct (row_distances_nonneg _ _ _ Hsp) as [Hlp _].
  destruct (row_distances_nonneg _ _ _ Hsm) as [Hlm _].
  assert (Hsame : length (tr_s_plus res) = length (tr_s_minus res))
    by congruence.
  destruct (closeness_scores_lookup _ _ _ Hsame Hc) as [Hlen _].
  destruct (Hcontract (Ropp <$> tr_closeness res)) as [Hperm _].
  rewrite length_fmap, <- Hranking in Hperm.
  assert (Hin : length names ∈ tr_ranking res).
  { rewrite Hperm. apply elem_of_seq. lia. }
  apply list_elem_of_lookup in Hin as [k Hk].
  apply mapM_Some in Hnames.
  destruct (Forall2_lookup_l _ _ _ _ _ Hnames Hk) as (name & _ & Hname).
  simpl in Hname. apply lookup_lt_Some in Hname. lia.
Qed.

Lemma topsis_rank_names_too_short_witness :
  topsis_rank argsort_reverse_ties [[1]; [1]] [1] ["benefit"%string]
    (Some ["only"%string]) = None.
Proof.
  apply topsis_rank_names_too_short.
  - apply argsort_reverse_ties_contract.
  - simpl. lia.
Defined.

(* ================================================================== *)
(** * Further properties: the index of the DMU *)
(* ================================================================== *)

Lemma py_index_wrap (len : nat) (i : Z) :
  (- Z.of_nat len <= i < 0)%Z ->
  py_index len i = py_index len (i + Z.of_nat len).
Proof.
  intros Hi. unfold py_index.
  rewrite (bool_decide_eq_false_2 (0 <= i < Z.of_nat len)%Z) by lia.
  rewrite (bool_decide_eq_true_2 (- Z.of_nat len <= i < 0)%Z) by done.
  by rewrite (bool_decide_eq_true_2 (0 <= i + Z.of_nat len < Z.of_nat len)%Z)
    by lia.
Qed.

Lemma py_index_out_of_range (len : nat) (i : Z) :
  ~ index_in_range (Z.of_nat len) i -> py_index len i = None.
Proof.
  intros Hout. destruct (py_index len i) as [a|] eqn:Ha; [|done].
  exfalso. apply Hout. apply py_index_is_Some. by eexists.
Qed.

(** X15.  [dea_efficiency] takes the index of the DMU the way Python
    subscripting does: an index outside [-n, n) raises, and a negative
    index [-k] names DMU [n - k], with the same result as that index. *)
Theorem dea_efficiency_index (linprog : lp_problem -> option lp_result)
    (inputs outputs : matrix) (n : nat) (dmu_index : Z)
    (orientation : string) :
  nrows inputs = n -> nrows outputs = n ->
  (~ index_in_range (Z.of_nat n) dmu_index ->
   dea_efficiency linprog inputs outputs dmu_index orientation = None) /\
  ((- Z.of_nat n <= dmu_index < 0)%Z ->
   dea_efficiency linprog inputs outputs dmu_index orientation
   = dea_efficiency linprog inputs outputs (dmu_index + Z.of_nat n)
       orientation).
Proof.
  intros Hin Hout. unfold dea_efficiency. rewrite Hin, Hout. split.
  - intros Hrange. by rewrite py_index_out_of_range.
  - intros Hneg. by rewrite <- !py_index_wrap.
Qed.

Lemma dea_efficiency_index_witness :
  dea_efficiency linprog_near_frontier near_frontier_inputs
    near_frontier_outputs 2 "input" = None /\
  dea_efficiency linprog_near_frontier near_frontier_inputs
    near_frontier_outputs (-1) "input"
  = dea_efficiency linprog_near_frontier near_frontier_inputs
      near_frontier_outputs (-1 + Z.of_nat 2) "input".
Proof.
  split.
  - apply (proj1 (dea_efficiency_index linprog_near_frontier
                    near_frontier_inputs near_frontier_outputs 2 2 "input"
                    eq_refl eq_refl)).
    unfold index_in_range. lia.
  - apply (proj2 (dea_efficiency_index linprog_near_frontier
                    near_frontier_inputs near_frontier_outputs 2 (-1) "input"
                    eq_refl eq_refl)).
    lia.
Defined.

(* ================================================================== *)
(** * Further properties: the linear program of a DMU *)
(* ================================================================== *)

Lemma dot_cons (a b : R) (u v : vector) :
  dot (a :: u) (b :: v) = a * b + dot u v.
Proof. reflexivity. Qed.

Lemma dot_zeros (u : vector) n : dot u (replicate n 0) = 0.
Proof.
  revert n. induction u as [|a u IH]; intros [|n]; try done.
  cbn [replicate]. rewrite dot_cons, IH. lra.
Qed.

Lemma dot_unit_vector (col : vector) :
  forall n i x, length col = n -> col !! i = Some x ->
    dot col (unit_vector n i) = x.
Proof.
  unfold unit_vector.
  induction col as [|a col IH]; intros n i x Hlen Hx; [done|].
  destruct n as [|n]; [done|]. simpl in Hlen.
  destruct i as [|i].
  - injection Hx as ->.
    change (<[0%nat := 1]> (replicate (S n) 0)) with (1 :: replicate n 0).
    rewrite dot_cons, dot_zeros. lra.
  - change (<[S i := 1]> (replicate (S n) 0))
      with (0 :: <[i := 1]> (replicate n 0)).
    rewrite dot_cons, (IH n i x) by (done || lia). lra.
Qed.

Lemma dot_opp_l (a v : vector) : dot (Ropp <$> a) v = - dot a v.
Proof.
  revert v. induction a as [|x a IH]; intros [|y v]; try (unfold dot; simpl; lra).
  rewrite fmap_cons, !dot_cons, IH. lra.
Qed.

Lemma unit_vector_nonneg n i :
  Forall2 in_bounds (unit_vector n i) (replicate n (Some 0, None)).
Proof.
  unfold unit_vector. apply Forall2_same_length_lookup_2.
  - by rewrite length_insert, !length_replicate.
  - intros j x b Hx Hb. apply lookup_replicate in Hb as [-> _].
    assert (x = 1 \/ x = 0) as Hcases.
    { destruct (decide (i = j)) as [->|Hij].
      - apply list_lookup_insert_Some in Hx as [(_ & -> & _)|[? _]]; auto.
        done.
      - rewrite list_lookup_insert_ne in Hx by done.
        apply lookup_replicate in Hx as [-> _]. auto. }
    unfold in_bounds. simpl. destruct Hcases as [-> | ->]; split; (lra || done).
Qed.

Lemma Forall2_seq_lookup {A} (Q : nat -> A -> Prop) p (rows : list A) :
  Forall2 Q (seq 0 p) rows ->
  length rows = p /\ forall j row, rows !! j = Some row -> Q j row.
Proof.
  intros Hall. split.
  - apply Forall2_length in Hall. by rewrite length_seq in Hall.
  - intros j row Hrow.
    destruct (Forall2_lookup_r _ _ _ _ _ Hall Hrow) as (j' & Hj' & HQ).
    by apply lookup_seq in Hj' as [-> _].
Qed.

Section DEA_programs.

Context (inputs outputs : list (list R)) (n p q : nat).
Hypothesis Hn_in : nrows inputs = n.
Hypothesis Hn_out : nrows outputs = n.
Hypothesis Hrect_in : rectangular p inputs.
Hypothesis Hrect_out : rectangular q outputs.
Hypothesis Hn_pos : (0 < n)%nat.

Lemma dea_ncols : ncols inputs = p /\ ncols outputs = q.
Proof using Hn_in Hn_out Hrect_in Hrect_out Hn_pos.
  split; apply ncols_rectangular; try done; intros ->; simpl in *; lia.
Qed.

Lemma input_column_slice j coeffs :
  (col ← column inputs j; assign_slice (nrows inputs) col) = Some coeffs ->
  column inputs j = Some coeffs /\ length coeffs = n.
Proof using Hn_in.
  intros H. apply bind_Some in H as (col & Hcol & Hslice).
  destruct (column_Some_inv inputs j col Hcol) as [Hlen _].
  rewrite assign_slice_same in Hslice by done.
  injection Hslice as <-. split; [done|]. by rewrite Hlen.
Qed.

Lemma output_column_slice r coeffs :
  (col ← column outputs r; assign_slice (nrows inputs) (Ropp <$> col))
    = Some coeffs ->
  exists col, column outputs r = Some col /\ length col = n /\
              coeffs = Ropp <$> col.
Proof using Hn_in Hn_out.
  intros H. apply bind_Some in H as (col & Hcol & Hslice).
  destruct (column_Some_inv outputs r col Hcol) as [Hlen _].
  rewrite assign_slice_same in Hslice
    by (rewrite length_fmap, Hlen; unfold nrows in *; congruence).
  injection Hslice as <-. exists col. split; [done|]. split; [|done].
  rewrite Hlen. exact Hn_out.
Qed.

(** The rows of the output-oriented program. *)
Lemma dea_lp_output_rows (x_k y_k : vector) lp :
  dea_lp_output inputs outputs x_k y_k = Some lp ->
  lp_c lp = (-1.0) :: replicate n 0.0 /\
  lp_bounds lp = (Some 1.0, None) :: replicate n (Some 0, None) /\
  exists rows_in rows_out,
    lp_A_ub lp = rows_in ++ rows_out /\
    lp_b_ub lp = x_k ++ replicate q 0 /\
    Forall2 (fun j row => exists col, column inputs j = Some col /\
               length col = n /\ row = 0 :: col) (seq 0 p) rows_in /\
    Forall2 (fun r row => exists col y, column outputs r = Some col /\
               length col = n /\ y_k !! r = Some y /\
               row = y :: (Ropp <$> col)) (seq 0 q) rows_out.
Proof using Hn_in Hn_out Hrect_in Hrect_out Hn_pos.
  destruct dea_ncols as [Hp Hq].
  unfold dea_lp_output. rewrite Hp, Hq. intros Hlp.
  apply bind_Some in Hlp as (rows_in & Hin & Hlp).
  apply bind_Some in Hlp as (rows_out & Hout & Hlp).
  injection Hlp as <-. cbn [lp_c lp_bounds lp_A_ub lp_b_ub].
  rewrite Hn_in. split; [done|]. split; [done|].
  exists rows_in, rows_out. split; [done|]. split; [done|].
  apply mapM_Some in Hin. apply mapM_Some in Hout. split.
  - eapply Forall2_impl; [exact Hin|]. intros j row Hrow. simpl in Hrow.
    destruct (column inputs j ≫= assign_slice (nrows inputs))
      as [coeffs|] eqn:Hc.
    + destruct (input_column_slice j coeffs Hc) as [Hcol Hlen].
      exists coeffs. split; [done|]. split; [done|].
      apply bind_Some in Hrow as (col & Hcol' & Hrow).
      apply bind_Some in Hrow as (coeffs' & Hslice & Hrow).
      rewrite Hcol' in Hc. simpl in Hc. congruence.
    + exfalso. apply bind_Some in Hrow as (col & Hcol' & Hrow).
      apply bind_Some in Hrow as (coeffs' & Hslice & Hrow).
      rewrite Hcol' in Hc. simpl in Hc. congruence.
  - eapply Forall2_impl; [exact Hout|]. intros r row Hrow. simpl in Hrow.
    apply bind_Some in Hrow as (y & Hy & Hrow).
    destruct (column outputs r ≫= fun col =>
                assign_slice (nrows inputs) (Ropp <$> col))
      as [coeffs|] eqn:Hc.
    + destruct (output_column_slice r coeffs Hc) as (col & Hcol & Hlen & ->).
      exists col, y. split; [done|]. split; [done|]. split; [done|].
      apply bind_Some in Hrow as (col' & Hcol' & Hrow).
      apply bind_Some in Hrow as (coeffs' & Hslice & Hrow).
      rewrite Hcol' in Hc. simpl in Hc. congruence.
    + exfalso. apply bind_Some in Hrow as (col' & Hcol' & Hrow).
      apply bind_Some in Hrow as (coeffs' & Hslice & Hrow).
      rewrite Hcol' in Hc. simpl in Hc. congruence.
Qed.

(** The rows of the input-oriented program. *)
Lemma dea_lp_input_rows (x_k y_k : vector) lp :
  dea_lp_input inputs outputs x_k y_k = Some lp ->
  lp_c lp = 1.0 :: replicate n 0.0 /\
  lp_bounds lp = (Some 0, Some 1) :: replicate n (Some 0, None) /\
  exists rows_in rows_out,
    lp_A_ub lp = rows_in ++ rows_out /\
    lp_b_ub lp = replicate p 0 ++ (Ropp <$> y_k) /\
    Forall2 (fun j row => exists col x, column inputs j = Some col /\
               length col = n /\ x_k !! j = Some x /\
               row = (- x) :: col) (seq 0 p) rows_in /\
    Forall2 (fun r row => exists col, column outputs r = Some col /\
               length col = n /\ row = 0 :: (Ropp <$> col)) (seq 0 q) rows_out.
Proof using Hn_in Hn_out Hrect_in Hrect_out Hn_pos.
  destruct dea_ncols as [Hp Hq].
  unfold dea_lp_input. rewrite Hp, Hq. intros Hlp.
  apply bind_Some in Hlp as (rows_in & Hin & Hlp).
  apply bind_Some in Hlp as (rows_out & Hout & Hlp).
  injection Hlp as <-. cbn [lp_c lp_bounds lp_A_ub lp_b_ub].
  rewrite Hn_in. split; [done|]. split; [done|].
  exists rows_in, rows_out. split; [done|]. split; [done|].
  apply mapM_Some in Hin. apply mapM_Some in Hout. split.
  - eapply Forall2_impl; [exact Hin|]. intros j row Hrow. simpl in Hrow.
    apply bind_Some in Hrow as (x & Hx & Hrow).
    destruct (column inputs j ≫= assign_slice (nrows inputs))
      as [coeffs|] eqn:Hc.
    + destruct (input_column_slice j coeffs Hc) as [Hcol Hlen].
      exists coeffs, x. split; [done|]. split; [done|]. split; [done|].
      apply bind_Some in Hrow as (col & Hcol' & Hrow).
      apply bind_Some in Hrow as (coeffs' & Hslice & Hrow).
      rewrite Hcol' in Hc. simpl in Hc. congruence.
    + exfalso. apply bind_Some in Hrow as (col & Hcol' & Hrow).
      apply bind_Some in Hrow as (coeffs' & Hslice & Hrow).
      rewrite Hcol' in Hc. simpl in Hc. congruence.
  - eapply Forall2_impl; [exact Hout|]. intros r row Hrow. simpl in Hrow.
    destruct (column outputs r ≫= fun col =>
                assign_slice (nrows inputs) (Ropp <$> col))
      as [coeffs|] eqn:Hc.
    + destruct (output_column_slice r coeffs Hc) as (col & Hcol & Hlen & ->).
      exists col. split; [done|]. split; [done|].
      apply bind_Some in Hrow as (col' & Hcol' & Hrow).
      apply bind_Some in Hrow as (coeffs' & Hslice & Hrow).
      rewrite Hcol' in Hc. simpl in Hc. congruence.
    + exfalso. apply bind_Some in Hrow as (col' & Hcol' & Hrow).
      apply bind_Some in Hrow as (coeffs' & Hslice & Hrow).
      rewrite Hcol' in Hc. simpl in Hc. congruence.
Qed.

End DEA_programs.

(** X16.  The linear program [dea_efficiency] builds is never infeasible:
    for well-shaped data and either orientation, the point "factor 1, and
    the evaluated DMU as its own only peer" satisfies every constraint and
    every bound of the program, whatever the numbers in the data. *)
Theorem dea_lp_feasible_at_own_dmu (inputs outputs : matrix) (n p q i : nat)
    (orientation : string) :
  nrows inputs = n -> nrows outputs = n ->
  rectangular p inputs -> rectangular q outputs -> (i < n)%nat ->
  exists lp, dea_lp inputs outputs i orientation = Some lp /\
             lp_feasible lp (1 :: unit_vector n i).
Proof.
  intros Hn_in Hn_out Hrect_in Hrect_out Hi.
  assert (Hn_pos : (0 < n)%nat) by lia.
  destruct (dea_lp_Some inputs outputs n p q Hn_in Hn_out Hrect_in Hrect_out
              i orientation Hi) as (lp & Hlp & Hlen).
  destruct (dea_rows inputs outputs n p q Hn_in Hn_out Hrect_in Hrect_out
              i Hi) as (x_k & y_k & Hx & Hy & Hlx & Hly & _).
  exists lp. split; [done|].
  unfold dea_lp in Hlp. rewrite Hx, Hy in Hlp. cbn [mbind option_bind] in Hlp.
  assert (Hown_in : forall j col, column inputs j = Some col ->
            col !! i = x_k !! j).
  { intros j col Hcol. symmetry.
    by apply (proj2 (column_Some_inv inputs j col Hcol) i x_k). }
  assert (Hown_out : forall r col, column outputs r = Some col ->
            col !! i = y_k !! r).
  { intros r col Hcol. symmetry.
    by apply (proj2 (column_Some_inv outputs r col Hcol) i y_k). }
  split; [|split].
  - simpl. rewrite Hlen. unfold unit_vector.
    by rewrite length_insert, length_replicate.
  - case_bool_decide.
    + destruct (dea_lp_output_rows inputs outputs n p q Hn_in Hn_out Hrect_in
                  Hrect_out Hn_pos x_k y_k lp Hlp)
        as (_ & _ & rows_in & rows_out & -> & -> & Hin & Hout).
      apply Forall2_seq_lookup in Hin as [Hlin Hin].
      apply Forall2_seq_lookup in Hout as [Hlout Hout].
      apply Forall2_app.
      * apply Forall2_same_length_lookup_2; [congruence|].
        intros j row b Hrow Hb.
        destruct (Hin j row Hrow) as (col & Hcol & Hlc & ->).
        rewrite dot_cons, (dot_unit_vector col n i b Hlc); [lra|].
        by rewrite (Hown_in j col Hcol).
      * apply Forall2_same_length_lookup_2;
          [by rewrite length_replicate|].
        intros r row b Hrow Hb. apply lookup_replicate in Hb as [-> _].
        destruct (Hout r row Hrow) as (col & y & Hcol & Hlc & Hy' & ->).
        rewrite dot_cons, dot_opp_l, (dot_unit_vector col n i y Hlc); [lra|].
        by rewrite (Hown_out r col Hcol).
    + destruct (dea_lp_input_rows inputs outputs n p q Hn_in Hn_out Hrect_in
                  Hrect_out Hn_pos x_k y_k lp Hlp)
        as (_ & _ & rows_in & rows_out & -> & -> & Hin & Hout).
      apply Forall2_seq_lookup in Hin as [Hlin Hin].
      apply Forall2_seq_lookup in Hout as [Hlout Hout].
      apply Forall2_app.
      * apply Forall2_same_length_lookup_2;
          [by rewrite length_replicate|].
        intros j row b Hrow Hb. apply lookup_replicate in Hb as [-> _].
        destruct (Hin j row Hrow) as (col & x & Hcol & Hlc & Hx' & ->).
        rewrite dot_cons, (dot_unit_vector col n i x Hlc); [lra|].
        by rewrite (Hown_in j col Hcol).
      * apply Forall2_same_length_lookup_2;
          [rewrite length_fmap; congruence|].
        intros r row b Hrow Hb.
        rewrite list_lookup_fmap in Hb.
        apply fmap_Some in Hb as (y & Hy' & ->).
        destruct (Hout r row Hrow) as (col & Hcol & Hlc & ->).
        rewrite dot_cons, dot_opp_l, (dot_unit_vector col n i y Hlc); [lra|].
        by rewrite (Hown_out r col Hcol).
  - case_bool_decide.
    + destruct (dea_lp_output_rows inputs outputs n p q Hn_in Hn_out Hrect_in
                  Hrect_out Hn_pos x_k y_k lp Hlp) as (_ & -> & _).
      constructor; [|apply unit_vector_nonneg].
      unfold in_bounds. simpl. split; [lra|done].
    + destruct (dea_lp_input_rows inputs outputs n p q Hn_in Hn_out Hrect_in
                  Hrect_out Hn_pos x_k y_k lp Hlp) as (_ & -> & _).
      constructor; [|apply unit_vector_nonneg].
      unfold in_bounds. simpl. split; lra.
Qed.

Lemma dea_lp_feasible_at_own_dmu_witness :
  exists lp, dea_lp near_frontier_inputs near_frontier_outputs 1 "input"
               = Some lp /\
             lp_feasible lp (1 :: unit_vector 2 1).
Proof.
  apply (dea_lp_feasible_at_own_dmu near_frontier_inputs
           near_frontier_outputs 2 1 1 1 "input").
  - reflexivity.
  - reflexivity.
  - repeat constructor.
  - repeat constructor.
  - lia.
Defined.

(* ================================================================== *)
(** * Further properties: what a feasible solution implies *)
(* ================================================================== *)

(** A solved run of [dea_efficiency], laid out. *)
Lemma dea_efficiency_solved_run linprog (inputs outputs : matrix) (i : nat)
    orientation r e :
  (i < nrows inputs)%nat -> (i < nrows outputs)%nat ->
  dea_efficiency linprog inputs outputs (Z.of_nat i) orientation = Some r ->
  dr_efficiency r = Some e ->
  exists x_k y_k lp res s used produced,
    inputs !! i = Some x_k /\ outputs !! i = Some y_k /\
    dea_lp inputs outputs i orientation = Some lp /\
    linprog lp = Some res /\ lp_success res = true /\
    lp_x res = s :: drop 1 (lp_x res) /\
    matT_vec inputs (drop 1 (lp_x res)) = Some used /\
    matT_vec outputs (drop 1 (lp_x res)) = Some produced /\
    if bool_decide (orientation = "output"%string) then
      e = 1.0 / s /\
      np_binop Rminus x_k used = dr_slack_inputs r /\
      np_binop Rminus (Rmult s <$> y_k) produced = dr_slack_outputs r
    else
      e = s /\
      np_binop Rminus (Rmult s <$> x_k) used = dr_slack_inputs r /\
      np_binop Rminus produced y_k = dr_slack_outputs r.
Proof.
  intros Hi_in Hi_out Hrun He. unfold dea_efficiency in Hrun.
  rewrite !py_index_of_nat in Hrun by done.
  cbn [mbind option_bind] in Hrun.
  apply bind_Some in Hrun as (x_k & Hx & Hrun).
  apply bind_Some in Hrun as (y_k & Hy & Hrun).
  exists x_k, y_k. unfold dea_lp. rewrite Hx, Hy. cbn [mbind option_bind].
  assert (Hhead : forall (x : vector) s, x !! 0%nat = Some s ->
            x = s :: drop 1 x).
  { intros [|a x] s Hs; [done|]. injection Hs as ->. reflexivity. }
  case_bool_decide as Ho.
  - apply bind_Some in Hrun as (lp & Hlp & Hrun).
    apply bind_Some in Hrun as (res & Hres & Hrun).
    destruct (lp_success res) eqn:Hok.
    2:{ injection Hrun as <-. done. }
    apply bind_Some in Hrun as (phi & Hphi & Hrun).
    apply bind_Some in Hrun as (used & Hused & Hrun).
    apply bind_Some in Hrun as (slack_inputs & Hsi & Hrun).
    apply bind_Some in Hrun as (produced & Hprod & Hrun).
    apply bind_Some in Hrun as (slack_outputs & Hso & Hrun).
    injection Hrun as <-. simpl in He. injection He as <-.
    exists lp, res, phi, used, produced. simpl. auto 12.
  - apply bind_Some in Hrun as (lp & Hlp & Hrun).
    apply bind_Some in Hrun as (res & Hres & Hrun).
    destruct (lp_success res) eqn:Hok.
    2:{ injection Hrun as <-. done. }
    apply bind_Some in Hrun as (theta & Htheta & Hrun).
    apply bind_Some in Hrun as (used & Hused & Hrun).
    apply bind_Some in Hrun as (slack_inputs & Hsi & Hrun).
    apply bind_Some in Hrun as (produced & Hprod & Hrun).
    apply bind_Some in Hrun as (slack_outputs & Hso & Hrun).
    injection Hrun as <-. simpl in He. injection He as <-.
    exists lp, res, theta, used, produced. simpl. auto 12.
Qed.

(** The bounds of the first variable of the program. *)
Lemma dea_lp_first_bound (inputs outputs : matrix) i orientation lp :
  dea_lp inputs outputs i orientation = Some lp ->
  head (lp_bounds lp)
  = Some (if bool_decide (orientation = "output"%string)
          then (Some 1.0, None) else (Some 0, Some 1)).
Proof.
  unfold dea_lp. intros Hlp.
  apply bind_Some in Hlp as (x_k & _ & Hlp).
  apply bind_Some in Hlp as (y_k & _ & Hlp).
  case_bool_decide.
  - unfold dea_lp_output in Hlp.
    apply bind_Some in Hlp as (rows_in & _ & Hlp).
    apply bind_Some in Hlp as (rows_out & _ & Hlp). by injection Hlp as <-.
  - unfold dea_lp_input in Hlp.
    apply bind_Some in Hlp as (rows_in & _ & Hlp).
    apply bind_Some in Hlp as (rows_out & _ & Hlp). by injection Hlp as <-.
Qed.

(** X17.  When the solution [linprog] reports respects the bounds it was
    given, the efficiency [dea_efficiency] returns lies in [0, 1]; in the
    output orientation, where it is [1 / phi] with [phi >= 1], it is also
    strictly positive. *)
Theorem dea_efficiency_range (linprog : lp_problem -> option lp_result)
    (inputs outputs : matrix) (n i : nat) (orientation : string)
    (r : dea_result) (e : R) :
  nrows inputs = n -> nrows outputs = n -> (i < n)%nat ->
  linprog_feasible_answers linprog inputs outputs orientation i ->
  dea_efficiency linprog inputs outputs (Z.of_nat i) orientation = Some r ->
  dr_efficiency r = Some e ->
  0 <= e <= 1 /\ (orientation = "output"%string -> 0 < e).
Proof.
  intros Hn_in Hn_out Hi Hfeasible Hrun He.
  destruct (dea_efficiency_solved_run linprog inputs outputs i orientation r e)
    as (x_k & y_k & lp & res & s & used & produced & Hx & Hy & Hlp & Hres
        & Hok & Hsol & _ & _ & Hval); try done; try lia.
  destruct (Hfeasible lp res Hlp Hres Hok) as (_ & _ & Hbounds).
  pose proof (dea_lp_first_bound _ _ _ _ _ Hlp) as Hfirst.
  rewrite Hsol in Hbounds.
  destruct (lp_bounds lp) as [|b bounds]; [done|].
  apply Forall2_cons in Hbounds as [[Hlo Hhi] _].
  simpl in Hfirst. injection Hfirst as ->.
  case_bool_decide as Ho; simpl in Hlo, Hhi.
  - destruct Hval as (-> & _).
    assert (Hs : 0 < s) by lra.
    pose proof (Rinv_0_lt_compat s Hs) as Hinv.
    assert (Hle : 1.0 / s <= 1).
    { apply (Rmult_le_reg_r s); [done|]. field_simplify; lra. }
    split; [split; [|done]|intros _]; unfold Rdiv; nra.
  - destruct Hval as (-> & _). split; [lra|done].
Qed.

Lemma near_frontier_dea_lp :
  dea_lp near_frontier_inputs near_frontier_outputs 1 "input"
  = Some near_frontier_program.
Proof. reflexivity. Qed.

Lemma linprog_near_frontier_feasible :
  linprog_feasible_answers linprog_near_frontier near_frontier_inputs
    near_frontier_outputs "input" 1.
Proof.
  intros lp res Hlp Hres _. rewrite near_frontier_dea_lp in Hlp.
  injection Hlp as <-. injection Hres as <-.
  apply near_frontier_point_feasible.
Qed.

Lemma near_frontier_run :
  exists r, dea_efficiency linprog_near_frontier near_frontier_inputs
              near_frontier_outputs (Z.of_nat 1) "input" = Some r /\
    dr_efficiency r = Some 0.999995 /\
    is_Some (dr_slack_inputs r) /\ is_Some (dr_slack_outputs r).
Proof.
  unfold dea_efficiency.
  change (py_index (nrows near_frontier_inputs) (Z.of_nat 1)) with (Some 1%nat).
  change (py_index (nrows near_frontier_outputs) (Z.of_nat 1)) with (Some 1%nat).
  cbn [mbind option_bind].
  change (near_frontier_inputs !! 1%nat) with (Some [1]).
  change (near_frontier_outputs !! 1%nat) with (Some [0.999995]).
  cbn [mbind option_bind].
  rewrite bool_decide_eq_false_2 by done.
  rewrite near_frontier_lp. cbn [mbind option_bind].
  unfold linprog_near_frontier. simpl.
  eexists. split; [reflexivity|]. simpl. split; [done|]. by split; eexists.
Qed.

Lemma dea_efficiency_range_witness :
  exists r e,
    dea_efficiency linprog_near_frontier near_frontier_inputs
      near_frontier_outputs (Z.of_nat 1) "input" = Some r /\
    dr_efficiency r = Some e /\
    0 <= e <= 1 /\ ("input"%string = "output"%string -> 0 < e).
Proof.
  destruct near_frontier_run as (r & Hrun & He & _).
  exists r, 0.999995. split; [exact Hrun|]. split; [exact He|].
  apply (dea_efficiency_range linprog_near_frontier near_frontier_inputs
           near_frontier_outputs 2 1 "input" r 0.999995).
  - reflexivity.
  - reflexivity.
  - lia.
  - exact linprog_near_frontier_feasible.
  - exact Hrun.
  - exact He.
Defined.

Lemma matT_vec_lookup c (M : matrix) (v used : vector) :
  rectangular c M -> M <> [] -> matT_vec M v = Some used ->
  length used = c /\
  forall j u, used !! j = Some u ->
    exists col, column M j = Some col /\ u = dot col v.
Proof.
  intros Hrect Hne. unfold matT_vec. case_bool_decide; [|done].
  rewrite (ncols_rectangular c M Hrect Hne). intros Hused.
  apply mapM_Some, Forall2_seq_lookup in Hused as [Hlen Hall].
  split; [done|]. intros j u Hu. specialize (Hall j u Hu). simpl in Hall.
  apply bind_Some in Hall as (col & Hcol & Hdot). injection Hdot as <-.
  eauto.
Qed.

(** X18.  When the solution [linprog] reports satisfies the constraints it
    was given, the input slacks are non-negative in both orientations; the
    output slacks are non-negative in the input orientation but
    non-positive in the output orientation, where they are computed as
    [phi * y_k - outputs.T @ lambdas]. *)
Theorem dea_efficiency_slack_signs (linprog : lp_problem -> option lp_result)
    (inputs outputs : matrix) (n p q i : nat) (orientation : string)
    (r : dea_result) (slack_inputs slack_outputs : vector) :
  nrows inputs = n -> nrows outputs = n ->
  rectangular p inputs -> rectangular q outputs -> (i < n)%nat ->
  linprog_feasible_answers linprog inputs outputs orientation i ->
  dea_efficiency linprog inputs outputs (Z.of_nat i) orientation = Some r ->
  dr_slack_inputs r = Some slack_inputs ->
  dr_slack_outputs r = Some slack_outputs ->
  Forall (fun s => 0 <= s) slack_inputs /\
  if bool_decide (orientation = "output"%string)
  then Forall (fun s => s <= 0) slack_outputs
  else Forall (fun s => 0 <= s) slack_outputs.
Proof.
  intros Hn_in Hn_out Hrect_in Hrect_out Hi Hfeasible Hrun Hsi Hso.
  assert (Hn_pos : (0 < n)%nat) by lia.
  assert (He : exists e, dr_efficiency r = Some e).
  { destruct (dea_efficiency_result _ _ _ _ _ _ Hrun)
      as [[message ->]|(e & _ & He & _)]; [done|eauto]. }
  destruct He as [e He].
  destruct (dea_efficiency_solved_run linprog inputs outputs i orientation r e)
    as (x_k & y_k & lp & res & s & used & produced & Hx & Hy & Hlp & Hres
        & Hok & Hsol & Hused & Hprod & Hval); try done; try lia.
  destruct (Hfeasible lp res Hlp Hres Hok) as (_ & Hrows & _).
  rewrite Hsol in Hrows. set (lambdas := drop 1 (lp_x res)) in *.
  destruct (dea_rows inputs outputs n p q Hn_in Hn_out Hrect_in Hrect_out
              i Hi) as (x_k' & y_k' & Hx' & Hy' & Hlx & Hly & _).
  rewrite Hx in Hx'. injection Hx' as <-.
  rewrite Hy in Hy'. injection Hy' as <-.
  destruct (matT_vec_lookup p inputs lambdas used Hrect_in) as [Hlu Hu];
    [intros ->; simpl in *; lia|done|].
  destruct (matT_vec_lookup q outputs lambdas produced Hrect_out) as [Hlp' Hp];
    [intros ->; simpl in *; lia|done|].
  unfold dea_lp in Hlp. rewrite Hx, Hy in Hlp. cbn [mbind option_bind] in Hlp.
  case_bool_decide as Ho.
  - destruct Hval as (_ & Hsin & Hsout).
    rewrite Hsi, np_binop_same_length in Hsin by congruence.
    rewrite Hso, np_binop_same_length in Hsout
      by (rewrite length_fmap; congruence).
    injection Hsin as <-. injection Hsout as <-.
    destruct (dea_lp_output_rows inputs outputs n p q Hn_in Hn_out Hrect_in
                Hrect_out Hn_pos x_k y_k lp Hlp)
      as (_ & _ & rows_in & rows_out & HA & Hb & Hin & Hout).
    rewrite HA, Hb in Hrows.
    apply Forall2_seq_lookup in Hin as [Hlin Hin].
    apply Forall2_seq_lookup in Hout as [Hlout Hout].
    apply Forall2_app_inv in Hrows as [Hrin Hrout]; [|congruence].
    split; apply Forall_lookup; intros j v Hv;
      apply lookup_zip_with_Some in Hv as (a & u & -> & Ha & Hu').
    + destruct (Hu j u Hu') as (col & Hcol & ->).
      destruct (lookup_lt_is_Some_2 rows_in j) as [row Hrow].
      { rewrite Hlin, <- Hlx. by eapply lookup_lt_Some. }
      destruct (Hin j row Hrow) as (col' & Hcol' & _ & ->).
      assert (col' = col) as -> by congruence.
      pose proof (Forall2_lookup_lr _ _ _ _ _ _ Hrin Hrow Ha) as Hle.
      simpl in Hle. rewrite dot_cons in Hle. lra.
    + rewrite list_lookup_fmap in Ha. apply fmap_Some in Ha as (y & Hy' & ->).
      destruct (Hp j u Hu') as (col & Hcol & ->).
      destruct (lookup_lt_is_Some_2 rows_out j) as [row Hrow].
      { rewrite Hlout, <- Hly. by eapply lookup_lt_Some. }
      destruct (Hout j row Hrow) as (col' & y' & Hcol' & _ & Hy'' & ->).
      assert (col' = col) as -> by congruence.
      assert (y' = y) as -> by congruence.
      assert (Hzero : replicate q 0 !! j = Some 0).
      { apply lookup_replicate_2. rewrite <- Hly. by eapply lookup_lt_Some. }
      pose proof (Forall2_lookup_lr _ _ _ _ _ _ Hrout Hrow Hzero) as Hle.
      simpl in Hle. rewrite dot_cons, dot_opp_l in Hle. lra.
  - destruct Hval as (_ & Hsin & Hsout).
    rewrite Hsi, np_binop_same_length in Hsin
      by (rewrite length_fmap; congruence).
    rewrite Hso, np_binop_same_length in Hsout by congruence.
    injection Hsin as <-. injection Hsout as <-.
    destruct (dea_lp_input_rows inputs outputs n p q Hn_in Hn_out Hrect_in
                Hrect_out Hn_pos x_k y_k lp Hlp)
      as (_ & _ & rows_in & rows_out & HA & Hb & Hin & Hout).
    rewrite HA, Hb in Hrows.
    apply Forall2_seq_lookup in Hin as [Hlin Hin].
    apply Forall2_seq_lookup in Hout as [Hlout Hout].
    apply Forall2_app_inv in Hrows as [Hrin Hrout];
      [|by rewrite length_replicate].
    split; apply Forall_lookup; intros j v Hv;
      apply lookup_zip_with_Some in Hv as (a & u & -> & Ha & Hu').
    + rewrite list_lookup_fmap in Ha. apply fmap_Some in Ha as (x & Hx' & ->).
      destruct (Hu j u Hu') as (col & Hcol & ->).
      destruct (lookup_lt_is_Some_2 rows_in j) as [row Hrow].
      { rewrite Hlin, <- Hlx. by eapply lookup_lt_Some. }
      destruct (Hin j row Hrow) as (col' & x' & Hcol' & _ & Hx'' & ->).
      assert (col' = col) as -> by congruence.
      assert (x' = x) as -> by congruence.
      assert (Hzero : replicate p 0 !! j = Some 0).
      { apply lookup_replicate_2. rewrite <- Hlx. by eapply lookup_lt_Some. }
      pose proof (Forall2_lookup_lr _ _ _ _ _ _ Hrin Hrow Hzero) as Hle.
      simpl in Hle. rewrite dot_cons in Hle. lra.
    + destruct (Hp j a Ha) as (col & Hcol & ->).
      destruct (lookup_lt_is_Some_2 rows_out j) as [row Hrow].
      { rewrite Hlout, <- Hly. by eapply lookup_lt_Some. }
      destruct (Hout j row Hrow) as (col' & Hcol' & _ & ->).
      assert (col' = col) as -> by congruence.
      assert (Hb' : (Ropp <$> y_k) !! j = Some (- u))
        by (by rewrite list_lookup_fmap, Hu').
      pose proof (Forall2_lookup_lr _ _ _ _ _ _ Hrout Hrow Hb') as Hle.
      simpl in Hle. rewrite dot_cons, dot_opp_l in Hle. lra.
Qed.

Lemma dea_efficiency_slack_signs_witness :
  exists r slack_inputs slack_outputs,
    dea_efficiency linprog_near_frontier near_frontier_inputs
      near_frontier_outputs (Z.of_nat 1) "input" = Some r /\
    dr_slack_inputs r = Some slack_inputs /\
    dr_slack_outputs r = Some slack_outputs /\
    Forall (fun s => 0 <= s) slack_inputs /\
    Forall (fun s => 0 <= s) slack_outputs.
Proof.
  destruct near_frontier_run as (r & Hrun & _ & [si Hsi] & [so Hso]).
  exists r, si, so. split; [exact Hrun|]. split; [exact Hsi|].
  split; [exact Hso|].
  exact (dea_efficiency_slack_signs linprog_near_frontier near_frontier_inputs
           near_frontier_outputs 2 1 1 1 "input" r si so eq_refl eq_refl
           ltac:(repeat constructor) ltac:(repeat constructor) ltac:(lia)
           linprog_near_frontier_feasible Hrun Hsi Hso).
Defined.

(* ================================================================== *)
(** * Further properties: the sweep over all DMUs *)
(* ================================================================== *)

(** The stages of [dea_efficiency_all]. *)
Lemma dea_efficiency_all_stages linprog argsort (inputs outputs : matrix)
    dmu_names orientation agg :
  dea_efficiency_all linprog argsort inputs outputs dmu_names orientation
    = Some agg ->
  mapM (fun i : nat =>
          dea_efficiency linprog inputs outputs (Z.of_nat i) orientation)
       (seq 0 (nrows inputs)) = Some (da_results agg) /\
  da_efficiencies agg
    = (fun r => default 0 (dr_efficiency r)) <$> da_results agg /\
  da_ranking agg = argsort (Ropp <$> da_efficiencies agg) /\
  da_frontier_dmus agg
    = positions_where (fun e => np_isclose e 1.0 default_rtol 1e-6)
                      (da_efficiencies agg) /\
  for_each (improvement_step inputs outputs
              (dmu_names_used (nrows inputs) dmu_names) orientation
              (da_results agg))
           ∅ (seq 0 (nrows inputs)) = Some (da_improvement_targets agg) /\
  mapM (fun i => dmu_names_used (nrows inputs) dmu_names !! i)
       (da_frontier_dmus agg) = Some (da_frontier_names agg) /\
  mapM (fun i => dmu_names_used (nrows inputs) dmu_names !! i)
       (da_ranking agg) = Some (da_ranked_names agg) /\
  mapM (fun i => da_efficiencies agg !! i) (da_ranking agg)
    = Some (da_ranked_efficiencies agg).
Proof.
  unfold dea_efficiency_all. fold (dmu_names_used (nrows inputs) dmu_names).
  intros Hrun.
  apply bind_Some in Hrun as (results & Hresults & Hrun).
  apply bind_Some in Hrun as (targets & Htargets & Hrun).
  apply bind_Some in Hrun as (frontier_names & Hfn & Hrun).
  apply bind_Some in Hrun as (ranked_names & Hrn & Hrun).
  apply bind_Some in Hrun as (ranked_eff & Hre & Hrun).
  injection Hrun as <-. simpl. done.
Qed.

(** X19.  The frontier list and the per-DMU flags agree: DMU [i] is in
    [frontier_dmus] exactly when its own result has [is_efficient] true.
    A DMU whose solve failed is in neither. *)
Theorem dea_frontier_matches_flags
    (linprog : lp_problem -> option lp_result) (argsort : list R -> list nat)
    (inputs outputs : matrix) (dmu_names : option (list string))
    (orientation : string) (agg : dea_all_result) (i : nat) :
  dea_efficiency_all linprog argsort inputs outputs dmu_names orientation
    = Some agg ->
  (i ∈ da_frontier_dmus agg <->
   exists r, da_results agg !! i = Some r /\ dr_is_efficient r = Some true).
Proof.
  intros Hrun.
  destruct (dea_efficiency_all_stages _ _ _ _ _ _ _ Hrun)
    as (Hresults & Heff & _ & Hfrontier & _).
  rewrite Hfrontier, positions_where_spec, Heff.
  apply mapM_Some in Hresults.
  assert (Hflag : forall r, da_results agg !! i = Some r ->
            dr_is_efficient r = Some true <->
            np_isclose (default 0 (dr_efficiency r)) 1.0 default_rtol 1e-6
              = true).
  { intros r Hr.
    destruct (Forall2_lookup_r _ _ _ _ _ Hresults Hr) as (j & _ & Hj).
    destruct (dea_efficiency_result _ _ _ _ _ _ Hj)
      as [[message ->]|(e & s & He & _ & Hflag)].
    - simpl. rewrite np_isclose_zero_one. split; intros; done.
    - rewrite He, Hflag. simpl. split; [by intros [= ->]|by intros ->]. }
  split.
  - intros (e & He & Hclose). rewrite list_lookup_fmap in He.
    apply fmap_Some in He as (r & Hr & ->).
    exists r. split; [done|]. by apply Hflag.
  - intros (r & Hr & Htrue). eexists. split.
    + by rewrite list_lookup_fmap, Hr.
    + by apply Hflag.
Qed.

(** The sweep returns when every solve does and there are enough names. *)
Lemma dea_efficiency_all_returns
    (linprog : lp_problem -> option lp_result) (argsort : list R -> list nat)
    (inputs outputs : matrix) (dmu_names : option (list string))
    (orientation : string) (n p q : nat) :
  nrows inputs = n -> nrows outputs = n ->
  rectangular p inputs -> rectangular q outputs ->
  (forall i, (i < n)%nat -> linprog_answers linprog inputs outputs orientation i) ->
  argsort_contract argsort ->
  (n <= length (dmu_names_used n dmu_names))%nat ->
  is_Some (dea_efficiency_all linprog argsort inputs outputs dmu_names
             orientation).
Proof.
  intros Hn_in Hn_out Hrect_in Hrect_out Hlin Hsort Hnames.
  destruct (mapM_seq_Some
    (fun i : nat => dea_efficiency linprog inputs outputs (Z.of_nat i) orientation)
    n) as (results & Hresults & Hlen_results).
  { intros i Hi. eapply dea_efficiency_returns; eauto. }
  set (efficiencies := (fun r => default 0 (dr_efficiency r)) <$> results).
  assert (Hlen_eff : length efficiencies = n).
  { unfold efficiencies. by rewrite length_fmap. }
  set (names := dmu_names_used n dmu_names) in *.
  destruct (Hsort (Ropp <$> efficiencies)) as [Hperm _].
  rewrite length_fmap, Hlen_eff in Hperm.
  assert (Hrank_lt : forall i, i ∈ argsort (Ropp <$> efficiencies) -> (i < n)%nat).
  { intros i Hi. rewrite Hperm in Hi. apply elem_of_seq in Hi. lia. }
  assert (Hname_i : forall i, (i < n)%nat -> is_Some (names !! i)).
  { intros i Hi. apply lookup_lt_is_Some_2. lia. }
  destruct (improvement_loop inputs outputs names orientation results (seq 0 n))
    with (targets := (∅ : gmap string improvement))
    as (targets & Hloop & _).
  { intros i Hi. apply elem_of_seq in Hi.
    apply mapM_Some in Hresults.
    destruct (Forall2_lookup_l _ _ _ i i Hresults) as (r & Hr & Hrun).
    { apply lookup_seq_lt. lia. }
    destruct (dea_rows inputs outputs n p q Hn_in Hn_out Hrect_in Hrect_out i)
      as (x_k & y_k & Hx & Hy & _); [lia|].
    destruct (Hname_i i) as [name Hname]; [lia|].
    exists r, x_k, y_k, name. split; [done|].
    split; [by eapply dea_efficiency_result|]. done. }
  set (frontier := positions_where
         (fun e => np_isclose e 1.0 default_rtol 1e-6) efficiencies).
  destruct (mapM_is_Some_2 (fun i => names !! i) frontier)
    as [frontier_names Hfn].
  { apply Forall_forall. intros i Hi. apply Hname_i.
    apply positions_where_spec in Hi as (e & He & _).
    rewrite <- Hlen_eff. by eapply lookup_lt_Some. }
  destruct (mapM_is_Some_2 (fun i => names !! i)
              (argsort (Ropp <$> efficiencies))) as [ranked_names Hrn].
  { apply Forall_forall. intros i Hi. apply Hname_i. by apply Hrank_lt. }
  destruct (mapM_is_Some_2 (fun i => efficiencies !! i)
              (argsort (Ropp <$> efficiencies))) as [ranked_eff Hre].
  { apply Forall_forall. intros i Hi. apply lookup_lt_is_Some_2.
    rewrite Hlen_eff. by apply Hrank_lt. }
  unfold dea_efficiency_all. rewrite Hn_in.
  fold (dmu_names_used n dmu_names). fold names.
  rewrite Hresults. cbn [mbind option_bind]. fold efficiencies.
  rewrite Hloop. cbn [mbind option_bind]. fold frontier.
  rewrite Hfn. cbn [mbind option_bind]. rewrite Hrn.
  cbn [mbind option_bind]. rewrite Hre. cbn [mbind option_bind].
  by eexists.
Qed.

Lemma two_plans_run :
  is_Some (dea_efficiency_all linprog_two_plans argsort_reverse_ties
             two_plans_inputs two_plans_outputs None "output").
Proof.
  apply (dea_efficiency_all_returns _ _ _ _ _ _ 2 1 1).
  - reflexivity.
  - reflexivity.
  - repeat constructor.
  - repeat constructor.
  - intros i Hi lp Hlp. unfold linprog_two_plans.
    destruct (bool_decide _); eexists; (split; [reflexivity|]); done.
  - exact argsort_reverse_ties_contract.
  - simpl. lia.
Qed.

Lemma two_plans_second :
  exists peers,
  dea_efficiency linprog_two_plans two_plans_inputs two_plans_outputs
    (Z.of_nat 1) "output"
  = Some {| dr_efficiency := Some (1.0 / 2);
            dr_scale := ("phi"%string, Some 2);
            dr_lambdas := Some [1; 0];
            dr_slack_inputs := Some [1 - (1 * 1 + (1 * 0 + 0))];
            dr_slack_outputs := Some [2 * 1 - (2 * 1 + (1 * 0 + 0))];
            dr_is_efficient := Some false;
            dr_peers := Some peers;
            dr_status := "optimal" |}.
Proof.
  eexists. unfold dea_efficiency.
  change (py_index (nrows two_plans_inputs) (Z.of_nat 1)) with (Some 1%nat).
  change (py_index (nrows two_plans_outputs) (Z.of_nat 1)) with (Some 1%nat).
  cbn [mbind option_bind].
  change (two_plans_inputs !! 1%nat) with (Some [1]).
  change (two_plans_outputs !! 1%nat) with (Some [1]).
  cbn [mbind option_bind].
  rewrite bool_decide_eq_true_2 by done.
  change (dea_lp_output two_plans_inputs two_plans_outputs [1] [1])
    with (Some {| lp_c := [-1.0; 0.0; 0.0];
                  lp_A_ub := [[0; 1; 1]; [1; Ropp 2; Ropp 1]];
                  lp_b_ub := [1; 0];
                  lp_bounds := [(Some 1.0, None); (Some 0, None);
                                (Some 0, None)] |}).
  cbn [mbind option_bind]. unfold linprog_two_plans.
  rewrite bool_decide_eq_true_2 by done.
  cbn [mbind option_bind lp_success lp_x lookup list_lookup drop].
  assert (Hfar : np_isclose (1.0 / 2) 1.0 default_rtol 1e-6 = false).
  { apply not_true_is_false. intros Hclose.
    apply np_isclose_one in Hclose. rewrite Rabs_left in Hclose by lra. lra. }
  unfold matT_vec, positions_where, np_binop, dot. simpl.
  rewrite Hfar. reflexivity.
Qed.

Lemma dea_results_lookup linprog argsort (inputs outputs : matrix)
    dmu_names orientation agg i r :
  dea_efficiency_all linprog argsort inputs outputs dmu_names orientation
    = Some agg ->
  da_results agg !! i = Some r ->
  (i < nrows inputs)%nat /\
  dea_efficiency linprog inputs outputs (Z.of_nat i) orientation = Some r.
Proof.
  intros Hrun Hr.
  destruct (dea_efficiency_all_stages _ _ _ _ _ _ _ Hrun) as (Hresults & _).
  apply mapM_Some, Forall2_seq_lookup in Hresults as [Hlen Hall].
  split; [|by apply Hall]. rewrite <- Hlen. by eapply lookup_lt_Some.
Qed.

Lemma dea_frontier_matches_flags_witness :
  exists agg,
    dea_efficiency_all linprog_two_plans argsort_reverse_ties
      two_plans_inputs two_plans_outputs None "output" = Some agg /\
    (1%nat ∈ da_frontier_dmus agg <->
     exists r, da_results agg !! 1%nat = Some r /\
               dr_is_efficient r = Some true).
Proof.
  destruct two_plans_run as [agg Hrun]. exists agg. split; [exact Hrun|].
  exact (dea_frontier_matches_flags linprog_two_plans argsort_reverse_ties
           two_plans_inputs two_plans_outputs None "output" agg 1 Hrun).
Defined.

(* ================================================================== *)
(** * Further properties: the improvement targets *)
(* ================================================================== *)

(** One iteration of the target loop: either it leaves the dict alone, or
    it stores the entry of DMU [i] under the name of DMU [i]. *)
Lemma improvement_step_spec (inputs outputs : matrix) names orientation
    results targets i targets' r :
  improvement_step inputs outputs names orientation results targets i
    = Some targets' ->
  results !! i = Some r ->
  (negb (truthy (dr_is_efficient r))
     && bool_decide (is_Some (dr_efficiency r)) = false /\
   targets' = targets) \/
  (negb (truthy (dr_is_efficient r))
     && bool_decide (is_Some (dr_efficiency r)) = true /\
   exists name s current,
     names !! i = Some name /\
     dr_scale r = (scale_key orientation, Some s) /\
     (if bool_decide (orientation = "output"%string) then outputs else inputs)
       !! i = Some current /\
     targets' = <[name := improvement_entry orientation current s]> targets).
Proof.
  unfold improvement_step, improvement_entry, scale_key. intros Hstep Hr.
  rewrite Hr in Hstep. cbn [mbind option_bind] in Hstep.
  destruct (negb _ && _) eqn:Hcond.
  2:{ left. split; [done|]. by injection Hstep as <-. }
  right. split; [done|].
  assert (Hscale : forall key stored,
            dr_get_scale key r = Some stored -> dr_scale r = (key, stored)).
  { intros key stored. unfold dr_get_scale.
    destruct (dr_scale r) as [k v]. simpl.
    destruct (bool_decide (k = key)) eqn:Hk; intros Heq; [|done].
    apply bool_decide_eq_true_1 in Hk. injection Heq as ->. by subst. }
  case_bool_decide as Ho.
  - apply bind_Some in Hstep as (stored & Hstored & Hstep).
    apply bind_Some in Hstep as (phi & -> & Hstep).
    apply bind_Some in Hstep as (current & Hcur & Hstep).
    rewrite np_binop_same_length in Hstep by (by rewrite length_fmap).
    cbn [mbind option_bind] in Hstep.
    apply bind_Some in Hstep as (name & Hname & Hstep).
    injection Hstep as <-. exists name, phi, current.
    split; [done|]. split; [by apply Hscale|]. done.
  - apply bind_Some in Hstep as (stored & Hstored & Hstep).
    apply bind_Some in Hstep as (theta & -> & Hstep).
    apply bind_Some in Hstep as (current & Hcur & Hstep).
    rewrite np_binop_same_length in Hstep by (by rewrite length_fmap).
    cbn [mbind option_bind] in Hstep.
    apply bind_Some in Hstep as (name & Hname & Hstep).
    injection Hstep as <-. exists name, theta, current.
    split; [done|]. split; [by apply Hscale|]. done.
Qed.

(** The loop does not touch a name none of its positions carries. *)
Lemma improvement_loop_frame (inputs outputs : matrix) names orientation
    results (positions : list nat) name :
  (forall j, j ∈ positions -> names !! j <> Some name) ->
  forall targets targets',
    for_each (improvement_step inputs outputs names orientation results)
             targets positions = Some targets' ->
    targets' !! name = targets !! name.
Proof.
  induction positions as [|j rest IH]; intros Hother targets targets' Hloop.
  - by injection Hloop as <-.
  - cbn [for_each] in Hloop. apply bind_Some in Hloop as (t1 & Hstep & Hloop).
    rewrite (IH (fun k Hk => Hother k (list_elem_of_further _ _ _ Hk))
               t1 targets' Hloop).
    assert (Hj : names !! j <> Some name) by (apply Hother; by left).
    pose proof Hstep as Hstep'. unfold improvement_step in Hstep'.
    apply bind_Some in Hstep' as (r & Hr & _).
    destruct (improvement_step_spec _ _ _ _ _ _ _ _ _ Hstep Hr)
      as [[_ ->]|(_ & name' & s & current & Hname' & _ & _ & ->)]; [done|].
    apply lookup_insert_ne. congruence.
Qed.

Lemma improvement_loop_lookup (inputs outputs : matrix) names orientation
    results (positions : list nat) :
  NoDup positions ->
  (forall i j name, i ∈ positions -> j ∈ positions ->
     names !! i = Some name -> names !! j = Some name -> i = j) ->
  forall targets targets',
    for_each (improvement_step inputs outputs names orientation results)
             targets positions = Some targets' ->
    forall i r name, i ∈ positions -> results !! i = Some r ->
      names !! i = Some name ->
      (negb (truthy (dr_is_efficient r))
         && bool_decide (is_Some (dr_efficiency r)) = false /\
       targets' !! name = targets !! name) \/
      (negb (truthy (dr_is_efficient r))
         && bool_decide (is_Some (dr_efficiency r)) = true /\
       exists s current,
         dr_scale r = (scale_key orientation, Some s) /\
         (if bool_decide (orientation = "output"%string)
          then outputs else inputs) !! i = Some current /\
         targets' !! name = Some (improvement_entry orientation current s)).
Proof.
  induction positions as [|j rest IH];
    intros Hnd Hinj targets targets' Hloop i r name Hi Hr Hname.
  - by apply elem_of_nil in Hi.
  - apply NoDup_cons in Hnd as [Hfresh Hnd].
    cbn [for_each] in Hloop. apply bind_Some in Hloop as (t1 & Hstep & Hloop).
    apply elem_of_cons in Hi as [->|Hi].
    + assert (Hrest : targets' !! name = t1 !! name).
      { apply (improvement_loop_frame inputs outputs names orientation results
                 rest name); [|done].
        intros k Hk Hkname. apply Hfresh.
        rewrite (Hinj j k name); try done; [by left|by right]. }
      rewrite Hrest.
      destruct (improvement_step_spec _ _ _ _ _ _ _ _ _ Hstep Hr)
        as [[Hcond ->]|(Hcond & name' & s & current & Hname' & Hs & Hc & ->)].
      * left. done.
      * right. split; [done|]. exists s, current.
        assert (name' = name) as -> by congruence.
        by rewrite lookup_insert_eq.
    + assert (Hij : i <> j) by (intros ->; done).
      assert (Hstep_frame : t1 !! name = targets !! name).
      { apply (improvement_loop_frame inputs outputs names orientation results
                 [j] name).
        - intros k Hk Hkname. apply list_elem_of_singleton in Hk as ->.
          apply Hij. apply (Hinj i j name); try done; [by right|by left].
        - cbn [for_each]. rewrite Hstep. done. }
      destruct (IH Hnd (fun a b nm Ha Hb => Hinj a b nm
                          (list_elem_of_further _ _ _ Ha)
                          (list_elem_of_further _ _ _ Hb))
                  t1 targets' Hloop i r name Hi Hr Hname)
        as [[Hcond Hsame]|Hput].
      * left. split; [done|]. congruence.
      * by right.
Qed.

(** X20.  With distinct DMU names, the improvement targets hold exactly
    the DMUs that were solved and are not efficient: such a DMU has, under
    its name, its current row, the row multiplied by the raw LP value
    (phi or theta), the difference of the two and the percentage
    [(phi - 1) * 100] or [(1 - theta) * 100]; any other DMU has no
    entry. *)
Theorem dea_improvement_targets
    (linprog : lp_problem -> option lp_result) (argsort : list R -> list nat)
    (inputs outputs : matrix) (dmu_names : option (list string))
    (orientation : string) (agg : dea_all_result) (i : nat) (r : dea_result)
    (name : string) :
  dea_efficiency_all linprog argsort inputs outputs dmu_names orientation
    = Some agg ->
  NoDup (dmu_names_used (nrows inputs) dmu_names) ->
  da_results agg !! i = Some r ->
  dmu_names_used (nrows inputs) dmu_names !! i = Some name ->
  (dr_is_efficient r = Some false ->
   exists s current,
     dr_scale r = (scale_key orientation, Some s) /\
     (if bool_decide (orientation = "output"%string) then outputs else inputs)
       !! i = Some current /\
     da_improvement_targets agg !! name
       = Some (improvement_entry orientation current s)) /\
  (dr_is_efficient r <> Some false ->
   da_improvement_targets agg !! name = None).
Proof.
  intros Hrun Hnd Hr Hname.
  destruct (dea_efficiency_all_stages _ _ _ _ _ _ _ Hrun)
    as (_ & _ & _ & _ & Hloop & _).
  destruct (dea_results_lookup _ _ _ _ _ _ _ _ _ Hrun Hr) as [Hi Hi_run].
  assert (Hcond : negb (truthy (dr_is_efficient r))
                    && bool_decide (is_Some (dr_efficiency r)) = true <->
                  dr_is_efficient r = Some false).
  { destruct (dea_efficiency_result _ _ _ _ _ _ Hi_run)
      as [[message ->]|(e & s & He & _ & Hflag)].
    - simpl. split; intros; done.
    - rewrite He, Hflag.
      rewrite (bool_decide_eq_true_2 (is_Some (Some e))) by (by eexists).
      destruct (np_isclose _ _ _ _); simpl; split; intros; done. }
  destruct (improvement_loop_lookup inputs outputs
              (dmu_names_used (nrows inputs) dmu_names) orientation
              (da_results agg) (seq 0 (nrows inputs)))
    with (targets := (∅ : gmap string improvement))
         (targets' := da_improvement_targets agg)
         (i := i) (r := r) (name := name)
    as [[Hno Hsame]|(Hyes & s & current & Hs & Hc & Hput)]; try done.
  - apply NoDup_seq.
  - intros a b nm _ _ Ha Hb. by eapply NoDup_lookup.
  - apply elem_of_seq. lia.
  - split.
    + intros Hflag. apply Hcond in Hflag. congruence.
    + intros _. by rewrite Hsame, lookup_empty.
  - split.
    + intros _. eauto.
    + intros Hflag. exfalso. apply Hflag. by apply Hcond.
Qed.

Lemma dea_improvement_targets_witness :
  exists agg,
    dea_efficiency_all linprog_two_plans argsort_reverse_ties
      two_plans_inputs two_plans_outputs None "output" = Some agg /\
    da_improvement_targets agg !! "DMU_1"%string
      = Some (improvement_entry "output" [1] 2).
Proof.
  destruct two_plans_run as [agg Hrun]. exists agg. split; [exact Hrun|].
  destruct (dea_efficiency_all_stages _ _ _ _ _ _ _ Hrun) as (Hresults & _).
  apply mapM_Some, Forall2_length in Hresults.
  destruct (lookup_lt_is_Some_2 (da_results agg) 1) as [r Hr].
  { rewrite <- Hresults. simpl. lia. }
  destruct (dea_results_lookup _ _ _ _ _ _ _ _ _ Hrun Hr) as [_ Hr_run].
  destruct two_plans_second as [peers Hsecond].
  rewrite Hsecond in Hr_run. injection Hr_run as Hr_eq.
  destruct (dea_improvement_targets linprog_two_plans argsort_reverse_ties
              two_plans_inputs two_plans_outputs None "output" agg 1 r
              "DMU_1" Hrun) as [Htarget _].
  - apply (bool_decide_unpack _). by vm_compute.
  - exact Hr.
  - reflexivity.
  - destruct Htarget as (s & current & Hs & Hcurrent & Hput).
    + by rewrite <- Hr_eq.
    + rewrite <- Hr_eq in Hs. simpl in Hs. injection Hs as <-.
      injection Hcurrent as <-. exact Hput.
Defined.

(* ================================================================== *)
(** * Further properties: the ranked lists of the sweep *)
(* ================================================================== *)

Lemma ranked_by_argsort (argsort : list R -> list nat) (c ranked : vector) :
  argsort_contract argsort ->
  mapM (fun i => c !! i) (argsort (Ropp <$> c)) = Some ranked ->
  Permutation ranked c /\
  forall a b x y, (a < b)%nat ->
    ranked !! a = Some x -> ranked !! b = Some y -> y <= x.
Proof.
  intros Hcontract Hranked.
  destruct (Hcontract (Ropp <$> c)) as [Hperm Hsorted].
  rewrite length_fmap in Hperm. split.
  - destruct (mapM_Permutation _ _ _ _ Hperm Hranked) as (r' & Hr' & Hp).
    pose proof (mapM_lookup_all c 0) as Hid.
    rewrite Nat.sub_0_r, drop_0 in Hid.
    rewrite Hid in Hr'. by injection Hr' as <-.
  - apply mapM_Some in Hranked. intros a b x y Hab Hx Hy.
    destruct (Forall2_lookup_r _ _ _ _ _ Hranked Hx) as (i & Hi & Hci).
    destruct (Forall2_lookup_r _ _ _ _ _ Hranked Hy) as (j & Hj & Hcj).
    simpl in Hci, Hcj.
    assert (- x <= - y); [|lra].
    apply (Hsorted a b i j); try done.
    + by rewrite list_lookup_fmap, Hci.
    + by rewrite list_lookup_fmap, Hcj.
Qed.

(** X21.  With an [argsort] that sorts ascending, [ranked_efficiencies]
    holds the efficiencies rearranged, largest first (a failed DMU counts
    as 0); [ranked_names[k]] is the name of DMU [ranking[k]] and
    [frontier_names[k]] the name of DMU [frontier_dmus[k]]. *)
Theorem dea_ranked_lists
    (linprog : lp_problem -> option lp_result) (argsort : list R -> list nat)
    (inputs outputs : matrix) (dmu_names : option (list string))
    (orientation : string) (agg : dea_all_result) :
  argsort_contract argsort ->
  dea_efficiency_all linprog argsort inputs outputs dmu_names orientation
    = Some agg ->
  Permutation (da_ranked_efficiencies agg) (da_efficiencies agg) /\
  (forall a b x y, (a < b)%nat ->
     da_ranked_efficiencies agg !! a = Some x ->
     da_ranked_efficiencies agg !! b = Some y -> y <= x) /\
  (forall k i, da_ranking agg !! k = Some i ->
     da_ranked_efficiencies agg !! k = da_efficiencies agg !! i /\
     da_ranked_names agg !! k
       = dmu_names_used (nrows inputs) dmu_names !! i) /\
  (forall k i, da_frontier_dmus agg !! k = Some i ->
     da_frontier_names agg !! k
       = dmu_names_used (nrows inputs) dmu_names !! i).
Proof.
  intros Hcontract Hrun.
  destruct (dea_efficiency_all_stages _ _ _ _ _ _ _ Hrun)
    as (_ & _ & Hranking & _ & _ & Hfn & Hrn & Hre).
  pose proof Hre as Hre'. rewrite Hranking in Hre'.
  destruct (ranked_by_argsort _ _ _ Hcontract Hre') as [Hperm Hsorted].
  split; [done|]. split; [done|].
  apply mapM_Some in Hfn. apply mapM_Some in Hrn. apply mapM_Some in Hre.
  split.
  - intros k i Hi. split.
    + destruct (Forall2_lookup_l _ _ _ _ _ Hre Hi) as (x & Hx & Hei).
      simpl in Hei. congruence.
    + destruct (Forall2_lookup_l _ _ _ _ _ Hrn Hi) as (x & Hx & Hni).
      simpl in Hni. congruence.
  - intros k i Hi.
    destruct (Forall2_lookup_l _ _ _ _ _ Hfn Hi) as (x & Hx & Hni).
    simpl in Hni. congruence.
Qed.

Lemma dea_ranked_lists_witness :
  exists agg,
    dea_efficiency_all linprog_two_plans argsort_reverse_ties
      two_plans_inputs two_plans_outputs None "output" = Some agg /\
    Permutation (da_ranked_efficiencies agg) (da_efficiencies agg) /\
    (forall a b x y, (a < b)%nat ->
       da_ranked_efficiencies agg !! a = Some x ->
       da_ranked_efficiencies agg !! b = Some y -> y <= x) /\
    (forall k i, da_ranking agg !! k = Some i ->
       da_ranked_efficiencies agg !! k = da_efficiencies agg !! i /\
       da_ranked_names agg !! k
         = dmu_names_used (nrows two_plans_inputs) None !! i) /\
    (forall k i, da_frontier_dmus agg !! k = Some i ->
       da_frontier_names agg !! k
         = dmu_names_used (nrows two_plans_inputs) None !! i).
Proof.
  destruct two_plans_run as [agg Hrun]. exists agg. split; [exact Hrun|].
  exact (dea_ranked_lists linprog_two_plans argsort_reverse_ties
           two_plans_inputs two_plans_outputs None "output" agg
           argsort_reverse_ties_contract Hrun).
Defined.

(* ================================================================== *)
(** * Further properties: inputs on which the ranking returns *)
(* ================================================================== *)

Lemma np_binop_rows_same_length f c (M : matrix) (v : vector) :
  rectangular c M -> length v = c ->
  np_binop_rows f M v = Some ((fun row => zip_with f row v) <$> M).
Proof.
  intros Hrect Hv. unfold np_binop_rows. apply mapM_Some_2.
  induction Hrect as [|row M Hrow _ IH]; [constructor|].
  rewrite fmap_cons. constructor; [|done].
  apply np_binop_same_length. congruence.
Qed.

Lemma zip_rows_rectangular f c (M : matrix) (v : vector) :
  rectangular c M -> length v = c ->
  rectangular c ((fun row => zip_with f row v) <$> M).
Proof.
  intros Hrect Hv. apply Forall_fmap. eapply Forall_impl; [exact Hrect|].
  intros row Hrow. simpl in *. rewrite length_zip_with. lia.
Qed.

Lemma ideal_solutions_returns c (W : matrix) (types : list string) :
  rectangular c W -> W <> [] -> (c <= length types)%nat ->
  exists ideal neg, ideal_solutions W types = Some (ideal, neg) /\
                    length ideal = c /\ length neg = c.
Proof.
  intros Hrect Hne Htypes. unfold ideal_solutions.
  rewrite (ncols_rectangular c W Hrect Hne).
  destruct (mapM_seq_Some (ideal_pair W types) c) as (pairs & -> & Hlen).
  { intros j Hj.
    destruct (column_length c W j Hrect Hj) as (col & Hcol & Hlc).
    destruct (lookup_lt_is_Some_2 types j) as [tag Htag]; [lia|].
    assert (Hcne : col <> []).
    { intros ->. destruct W; [done|]. simpl in Hlc. lia. }
    destruct (np_max_is_Some col Hcne) as [hi Hhi].
    destruct (np_min_is_Some col Hcne) as [lo Hlo].
    rewrite (ideal_pair_value W types j col tag hi lo) by done.
    by eexists. }
  cbn [mbind option_bind]. eexists _, _. split; [reflexivity|].
  by rewrite !length_fmap.
Qed.

(** X22.  [topsis_rank] returns, without raising, on every well-shaped
    input: a decision matrix with at least one row and [c] columns, [c]
    weights, at least [c] criteria tags and, when names are given, at
    least one name per row. *)
Theorem topsis_rank_returns (argsort : list R -> list nat)
    (decision_matrix : matrix) (weights : vector)
    (criteria_types : list string) (names : option (list string)) (c : nat) :
  argsort_contract argsort ->
  rectangular c decision_matrix -> (0 < nrows decision_matrix)%nat ->
  length weights = c -> (c <= length criteria_types)%nat ->
  (forall l, names = Some l -> (nrows decision_matrix <= length l)%nat) ->
  is_Some (topsis_rank argsort decision_matrix weights criteria_types names).
Proof.
  intros Hcontract Hrect Hrows Hw Htypes Hnames.
  assert (Hne : decision_matrix <> []) by (intros ->; simpl in *; lia).
  unfold topsis_rank. cbv zeta.
  set (w := if negb _ then _ else _).
  assert (Hlw : length w = c).
  { unfold w. destruct (negb _); [by rewrite length_fmap|done]. }
  destruct (normalize_matrix_rectangular c decision_matrix Hrect Hne)
    as [Hnrows Hnrect].
  unfold weighted_matrix.
  rewrite (np_binop_rows_same_length Rmult c _ w Hnrect Hlw).
  cbn [mbind option_bind].
  set (W := (fun row => zip_with Rmult row w) <$> normalize_matrix decision_matrix).
  assert (HWrect : rectangular c W) by (by apply zip_rows_rectangular).
  assert (HWlen : length W = nrows decision_matrix).
  { unfold W. rewrite length_fmap. exact Hnrows. }
  assert (HWne : W <> []).
  { intros HW. rewrite HW in HWlen. simpl in HWlen. lia. }
  destruct (ideal_solutions_returns c W criteria_types HWrect HWne Htypes)
    as (ideal & neg & -> & Hli & Hln).
  cbn [mbind option_bind]. unfold separation_measures, row_distances.
  rewrite (np_binop_rows_same_length Rminus c W ideal HWrect Hli).
  cbn [mbind option_bind].
  rewrite (np_binop_rows_same_length Rminus c W neg HWrect Hln).
  cbn [mbind option_bind].
  set (sp := (fun row => sqrt (np_sum row)) <$> _).
  set (sm := (fun row => sqrt (np_sum row)) <$> _).
  assert (Hlsp : length sp = nrows decision_matrix).
  { unfold sp, np_square. by rewrite !length_fmap. }
  assert (Hlsm : length sm = nrows decision_matrix).
  { unfold sm, np_square. by rewrite !length_fmap. }
  unfold closeness_scores.
  rewrite np_binop_same_length by congruence. cbn [mbind option_bind].
  rewrite np_binop_same_length
    by (unfold where_zero_one; rewrite length_fmap, length_zip_with; lia).
  cbn [mbind option_bind].
  set (scores := zip_with Rdiv sm _).
  assert (Hls : length scores = nrows decision_matrix).
  { unfold scores, where_zero_one.
    rewrite length_zip_with, length_fmap, length_zip_with. lia. }
  destruct (Hcontract (Ropp <$> scores)) as [Hperm _].
  rewrite length_fmap, Hls in Hperm.
  assert (Hlt : forall i, i ∈ argsort (Ropp <$> scores) ->
            (i < nrows decision_matrix)%nat).
  { intros i Hi. rewrite Hperm in Hi. apply elem_of_seq in Hi. lia. }
  set (names' := default _ names).
  assert (Hln' : (nrows decision_matrix <= length names')%nat).
  { unfold names'. destruct names as [l|]; simpl.
    - by apply Hnames.
    - by rewrite length_fmap, length_seq. }
  destruct (mapM_is_Some_2 (fun i => names' !! i) (argsort (Ropp <$> scores)))
    as [ranked_names ->].
  { apply Forall_forall. intros i Hi. apply lookup_lt_is_Some_2.
    specialize (Hlt i Hi). lia. }
  cbn [mbind option_bind].
  destruct (mapM_is_Some_2 (fun i => scores !! i) (argsort (Ropp <$> scores)))
    as [ranked_scores ->].
  { apply Forall_forall. intros i Hi. apply lookup_lt_is_Some_2.
    rewrite Hls. by apply Hlt. }
  cbn [mbind option_bind]. by eexists.
Qed.

Lemma topsis_rank_returns_witness :
  is_Some (topsis_rank argsort_reverse_ties [[3; 1]; [4; 2]] [1; 1]
             ["benefit"%string; "cost"%string] (Some ["a"%string; "b"%string])).
Proof.
  apply (topsis_rank_returns _ _ _ _ _ 2).
  - exact argsort_reverse_ties_contract.
  - repeat constructor.
  - simpl. lia.
  - reflexivity.
  - simpl. lia.
  - intros l [= <-]. simpl. lia.
Defined.

(* ================================================================== *)
(** * Further properties: the decision matrix of the pricing scenarios *)
(* ================================================================== *)

(** X23.  Given a metrics dict, [build_decision_matrix] returns exactly
    when the dict has every one of the four scenarios and each of them has
    every one of the five metrics; otherwise it raises [KeyError].  Other
    scenarios and other metrics in the dict play no part. *)
Theorem build_decision_matrix_returns_iff
    (derive_scenario_metrics : option (gmap string (gmap string R)))
    (metrics : gmap string (gmap string R)) :
  is_Some (build_decision_matrix derive_scenario_metrics (Some metrics)) <->
  forall name, name ∈ scenario_names ->
    exists m, metrics !! name = Some m /\
              forall key, key ∈ metric_keys -> is_Some (m !! key).
Proof.
  unfold build_decision_matrix. cbn [mbind option_bind].
  set (row := fun name : string =>
                m ← metrics !! name;
                mapM (fun key : string => m !! key) metric_keys).
  assert (Hbind : is_Some (mapM row scenario_names ≫=
                    fun decision_matrix => Some (decision_matrix, scenario_names))
                  <-> is_Some (mapM row scenario_names)).
  { destruct (mapM row scenario_names); simpl; split; intros [? ?]; done. }
  rewrite Hbind, mapM_is_Some, Forall_forall.
  apply forall_proper. intros name.
  apply forall_proper. intros Hname. unfold compose, row.
  destruct (metrics !! name) as [m|]; cbn [mbind option_bind].
  - rewrite mapM_is_Some, Forall_forall. split.
    + intros Hkeys. by exists m.
    + intros (m' & [= <-] & Hkeys). done.
  - split; [by intros [? ?]|]. by intros (m & ? & _).
Qed.

(** X24.  The matrix [build_decision_matrix] returns has one row per
    scenario and one column per metric, in their fixed orders: entry
    [(i, j)] is metric [j] of scenario [i], and the names returned are the
    scenario names. *)
Theorem build_decision_matrix_entries
    (derive_scenario_metrics : option (gmap string (gmap string R)))
    (metrics : gmap string (gmap string R)) (decision_matrix : matrix)
    (names : list string) :
  build_decision_matrix derive_scenario_metrics (Some metrics)
    = Some (decision_matrix, names) ->
  names = scenario_names /\
  nrows decision_matrix = 4%nat /\ rectangular 5 decision_matrix /\
  forall i j name key, scenario_names !! i = Some name ->
    metric_keys !! j = Some key ->
    exists m, metrics !! name = Some m /\
              is_Some (m !! key) /\ entry decision_matrix i j = m !! key.
Proof.
  unfold build_decision_matrix. cbn [mbind option_bind]. intros Hrun.
  apply bind_Some in Hrun as (rows & Hrows & Hrun).
  injection Hrun as <- <-. apply mapM_Some in Hrows.
  assert (Hrow : forall i row, rows !! i = Some row ->
            exists name m, scenario_names !! i = Some name /\
              metrics !! name = Some m /\
              Forall2 (fun key x => m !! key = Some x) metric_keys row).
  { intros i row Hi.
    destruct (Forall2_lookup_r _ _ _ _ _ Hrows Hi) as (name & Hname & Hr).
    cbv beta in Hr. apply bind_Some in Hr as (m & Hm & Hr).
    apply mapM_Some in Hr. eauto. }
  split; [done|]. split; [|split].
  - unfold nrows. by rewrite <- (Forall2_length _ _ _ Hrows).
  - apply Forall_lookup. intros i row Hi.
    destruct (Hrow i row Hi) as (name & m & _ & _ & Hall).
    by rewrite <- (Forall2_length _ _ _ Hall).
  - intros i j name key Hname Hkey.
    destruct (Forall2_lookup_l _ _ _ _ _ Hrows Hname) as (row & Hi & _).
    destruct (Hrow i row Hi) as (name' & m & Hname' & Hm & Hall).
    assert (name' = name) as -> by congruence.
    destruct (Forall2_lookup_l _ _ _ _ _ Hall Hkey) as (x & Hx & Hmx).
    exists m. split; [done|]. rewrite Hmx. split; [by eexists|].
    unfold entry. by rewrite Hi.
Qed.

(** X25.  The call [run_topsis_pricing] makes cannot raise: for the matrix
    and names [build_decision_matrix] returns, five weights and the
    criteria types of [get_criteria_types], [topsis_rank] returns. *)
Theorem build_decision_matrix_ranks
    (derive_scenario_metrics : option (gmap string (gmap string R)))
    (argsort : list R -> list nat)
    (metrics : gmap string (gmap string R)) (decision_matrix : matrix)
    (names : list string) (weights : vector) :
  argsort_contract argsort ->
  length weights = 5%nat ->
  build_decision_matrix derive_scenario_metrics (Some metrics)
    = Some (decision_matrix, names) ->
  is_Some (topsis_rank argsort decision_matrix weights get_criteria_types
             (Some names)).
Proof.
  intros Hcontract Hw Hrun.
  unfold build_decision_matrix in Hrun. cbn [mbind option_bind] in Hrun.
  apply bind_Some in Hrun as (rows & Hrows & Hrun).
  injection Hrun as <- <-. apply mapM_Some in Hrows.
  assert (Hlen : nrows rows = 4%nat).
  { unfold nrows. by rewrite <- (Forall2_length _ _ _ Hrows). }
  apply (topsis_rank_returns argsort rows weights get_criteria_types
           (Some scenario_names) 5); try done.
  - apply Forall_lookup. intros i row Hi.
    destruct (Forall2_lookup_r _ _ _ _ _ Hrows Hi) as (name & _ & Hr).
    cbv beta in Hr. apply bind_Some in Hr as (m & _ & Hr).
    apply mapM_Some in Hr. by rewrite <- (Forall2_length _ _ _ Hr).
  - lia.
  - intros l [= <-]. rewrite Hlen. done.
Qed.

Lemma sample_metrics_run :
  is_Some (build_decision_matrix None (Some sample_metrics)).
Proof.
  destruct (build_decision_matrix None (Some sample_metrics)) eqn:Hrun;
    [by eexists|].
  exfalso. vm_compute in Hrun. discriminate Hrun.
Qed.

Lemma build_decision_matrix_entries_witness :
  exists decision_matrix names,
    build_decision_matrix None (Some sample_metrics)
      = Some (decision_matrix, names) /\
    names = scenario_names /\
    nrows decision_matrix = 4%nat /\ rectangular 5 decision_matrix /\
    forall i j name key, scenario_names !! i = Some name ->
      metric_keys !! j = Some key ->
      exists m, sample_metrics !! name = Some m /\
                is_Some (m !! key) /\ entry decision_matrix i j = m !! key.
Proof.
  destruct sample_metrics_run as [[decision_matrix names] Hrun].
  exists decision_matrix, names. split; [exact Hrun|].
  exact (build_decision_matrix_entries None sample_metrics decision_matrix
           names Hrun).
Defined.

Lemma build_decision_matrix_ranks_witness :
  exists decision_matrix names,
    build_decision_matrix None (Some sample_metrics)
      = Some (decision_matrix, names) /\
    is_Some (topsis_rank argsort_reverse_ties decision_matrix
               [0.25; 0.30; 0.15; 0.15; 0.15] get_criteria_types
               (Some names)).
Proof.
  destruct sample_metrics_run as [[decision_matrix names] Hrun].
  exists decision_matrix, names. split; [exact Hrun|].
  exact (build_decision_matrix_ranks None argsort_reverse_ties sample_metrics
           decision_matrix names [0.25; 0.30; 0.15; 0.15; 0.15]
           argsort_reverse_ties_contract eq_refl Hrun).
Defined.

(* ================================================================== *)
(** * Further properties: the analysis of one subscription plan *)
(* ================================================================== *)

Lemma list_index_spec (x : string) (names : list string) :
  forall i, list_index x names = Some i -> names !! i = Some x.
Proof.
  induction names as [|y rest IH]; intros i Hi; [done|].
  simpl in Hi. case_bool_decide as Hy.
  - injection Hi as <-. by subst.
  - apply fmap_Some in Hi as (j & Hj & ->). simpl. by apply IH.
Qed.

(** X26.  [analyze_inefficiency] runs the whole DEA sweep before it looks
    at the plan name: for a name that is not one of the three plans it
    returns the "Unknown plan" dict when the sweep returns, and raises
    when the sweep raises. *)
Theorem analyze_inefficiency_unknown_plan
    (linprog : lp_problem -> option lp_result) (argsort : list R -> list nat)
    (format_1f : R -> string) (plan_name : string) :
  plan_name ∉ get_dmu_names ->
  (is_Some (run_dea_analysis linprog argsort "output") ->
   analyze_inefficiency linprog argsort format_1f plan_name
     = Some (UnknownPlan ("Unknown plan: " +:+ plan_name))) /\
  (run_dea_analysis linprog argsort "output" = None ->
   analyze_inefficiency linprog argsort format_1f plan_name = None).
Proof.
  intros Hunknown. unfold analyze_inefficiency. split.
  - intros [result ->]. cbn [mbind option_bind].
    by rewrite bool_decide_eq_true_2.
  - by intros ->.
Qed.

Lemma get_dmu_names_NoDup : NoDup get_dmu_names.
Proof. apply (bool_decide_unpack _). by vm_compute. Qed.

Lemma plans_run (linprog : lp_problem -> option lp_result) orientation :
  (forall lp, exists res, linprog lp = Some res /\
     (lp_success res = true -> length (lp_x res) = 4%nat)) ->
  is_Some (run_dea_analysis linprog argsort_reverse_ties orientation).
Proof.
  intros Hlin. unfold run_dea_analysis. cbv zeta.
  destruct (dea_efficiency_all_returns linprog argsort_reverse_ties
              get_input_matrix get_output_matrix (Some get_dmu_names)
              orientation 3 2 3) as [agg ->].
  - reflexivity.
  - reflexivity.
  - repeat constructor.
  - repeat constructor.
  - intros i Hi lp _. apply Hlin.
  - exact argsort_reverse_ties_contract.
  - simpl. lia.
  - by eexists.
Qed.

Lemma analyze_inefficiency_unknown_plan_witness :
  analyze_inefficiency linprog_factor_two argsort_reverse_ties
    (fun _ => "100.0"%string) "Ultra"
  = Some (UnknownPlan "Unknown plan: Ultra").
Proof.
  apply (analyze_inefficiency_unknown_plan linprog_factor_two
           argsort_reverse_ties (fun _ => "100.0"%string) "Ultra").
  - apply (bool_decide_unpack _). by vm_compute.
  - apply plans_run. intros lp. eexists. split; [reflexivity|]. done.
Defined.

(** X27.  [analyze_inefficiency] does not handle a failed solve: for a
    plan whose linear program [linprog] reported as failed (its result
    carries no efficiency), it raises instead of returning a dict. *)
Theorem analyze_inefficiency_failed_solve
    (linprog : lp_problem -> option lp_result) (argsort : list R -> list nat)
    (format_1f : R -> string) (plan_name : string)
    (result : dea_analysis) (idx : nat) (individual : dea_result) :
  run_dea_analysis linprog argsort "output" = Some result ->
  list_index plan_name get_dmu_names = Some idx ->
  da_results (an_all result) !! idx = Some individual ->
  dr_efficiency individual = None ->
  analyze_inefficiency linprog argsort format_1f plan_name = None.
Proof.
  intros Hrun Hidx Hind Hnone. unfold analyze_inefficiency.
  rewrite Hrun. cbn [mbind option_bind].
  pose proof (list_index_spec _ _ _ Hidx) as Hname.
  rewrite bool_decide_eq_false_2
    by (intros Hnot; apply Hnot; by eapply list_elem_of_lookup_2).
  rewrite Hidx. cbn [mbind option_bind]. rewrite Hind.
  cbn [mbind option_bind].
  unfold run_dea_analysis in Hrun. cbv zeta in Hrun.
  apply bind_Some in Hrun as (agg & Hagg & Hrun). injection Hrun as <-.
  cbn [an_all] in Hind.
  destruct (dea_results_lookup _ _ _ _ _ _ _ _ _ Hagg Hind) as [_ Hsolve].
  destruct (dea_efficiency_result _ _ _ _ _ _ Hsolve)
    as [[message ->]|(e & s & He & _)]; [done|congruence].
Qed.

Lemma plans_first_failed :
  exists result individual,
    run_dea_analysis linprog_always_fails argsort_reverse_ties "output"
      = Some result /\
    da_results (an_all result) !! 0%nat = Some individual /\
    dr_efficiency individual = None.
Proof.
  destruct (plans_run linprog_always_fails "output") as [result Hrun].
  { intros lp. eexists. split; [reflexivity|]. done. }
  exists result.
  pose proof Hrun as Hrun'. unfold run_dea_analysis in Hrun'.
  cbv zeta in Hrun'.
  apply bind_Some in Hrun' as (agg & Hagg & Hrun'). injection Hrun' as <-.
  cbn [an_all].
  destruct (dea_efficiency_all_stages _ _ _ _ _ _ _ Hagg) as (Hresults & _).
  apply mapM_Some in Hresults.
  destruct (lookup_lt_is_Some_2 (da_results agg) 0) as [r Hr].
  { rewrite <- (Forall2_length _ _ _ Hresults). simpl. lia. }
  exists r. split; [done|]. split; [done|].
  destruct (dea_results_lookup _ _ _ _ _ _ _ _ _ Hagg Hr) as [_ Hsolve].
  destruct (dea_lp_Some get_input_matrix get_output_matrix 3 2 3 eq_refl
              eq_refl ltac:(repeat constructor) ltac:(repeat constructor)
              0 "output" ltac:(lia)) as (lp & Hlp & _).
  rewrite (dea_efficiency_failure linprog_always_fails get_input_matrix
             get_output_matrix 0 "output" lp _ Hlp eq_refl eq_refl) in Hsolve.
  by injection Hsolve as <-.
Qed.

Lemma analyze_inefficiency_failed_solve_witness :
  analyze_inefficiency linprog_always_fails argsort_reverse_ties
    (fun _ => "0.0"%string) "Light" = None.
Proof.
  destruct plans_first_failed as (result & individual & Hrun & Hind & Hnone).
  exact (analyze_inefficiency_failed_solve linprog_always_fails
           argsort_reverse_ties (fun _ => "0.0"%string) "Light" result 0
           individual Hrun eq_refl Hind Hnone).
Defined.

(** The peers and the flag of a solved run. *)
Lemma dea_efficiency_peers linprog (inputs outputs : matrix) dmu_index
    orientation r e :
  dea_efficiency linprog inputs outputs dmu_index orientation = Some r ->
  dr_efficiency r = Some e ->
  exists lambdas,
    length lambdas = nrows inputs /\
    dr_peers r
      = Some (positions_where (fun l => bool_decide (l > 1e-6)) lambdas) /\
    dr_is_efficient r = Some (np_isclose e 1.0 default_rtol 1e-6).
Proof.
  unfold dea_efficiency. intros Hrun He.
  apply bind_Some in Hrun as (k & _ & Hrun).
  apply bind_Some in Hrun as (x_k & _ & Hrun).
  apply bind_Some in Hrun as (k' & _ & Hrun).
  apply bind_Some in Hrun as (y_k & _ & Hrun).
  assert (Hlen : forall (v used : vector),
            matT_vec inputs v = Some used -> length v = nrows inputs).
  { intros v used. unfold matT_vec.
    destruct (bool_decide (length v = nrows inputs)) eqn:Hv; [|done].
    intros _. by apply bool_decide_eq_true_1 in Hv. }
  case_bool_decide as Ho.
  - apply bind_Some in Hrun as (lp & _ & Hrun).
    apply bind_Some in Hrun as (res & _ & Hrun).
    destruct (lp_success res).
    2:{ injection Hrun as <-. done. }
    apply bind_Some in Hrun as (phi & _ & Hrun).
    apply bind_Some in Hrun as (used & Hused & Hrun).
    apply bind_Some in Hrun as (slack_inputs & _ & Hrun).
    apply bind_Some in Hrun as (produced & _ & Hrun).
    apply bind_Some in Hrun as (slack_outputs & _ & Hrun).
    injection Hrun as <-. simpl in He. injection He as <-.
    eexists. split; [exact (Hlen _ _ Hused)|]. split; reflexivity.
  - apply bind_Some in Hrun as (lp & _ & Hrun).
    apply bind_Some in Hrun as (res & _ & Hrun).
    destruct (lp_success res).
    2:{ injection Hrun as <-. done. }
    apply bind_Some in Hrun as (theta & _ & Hrun).
    apply bind_Some in Hrun as (used & Hused & Hrun).
    apply bind_Some in Hrun as (slack_inputs & _ & Hrun).
    apply bind_Some in Hrun as (produced & _ & Hrun).
    apply bind_Some in Hrun as (slack_outputs & _ & Hrun).
    injection Hrun as <-. simpl in He. injection He as <-.
    eexists. split; [exact (Hlen _ _ Hused)|]. split; reflexivity.
Qed.

Lemma recommend_loop (current target : vector)
    (items : list (nat * (string * R))) :
  (forall i label gap, (i, (label, gap)) ∈ items ->
     is_Some (current !! i) /\ is_Some (target !! i)) ->
  forall acc, Forall (fun rec => 0 < rec_gap rec) acc ->
    exists recs, for_each (recommend current target) acc items = Some recs /\
                 Forall (fun rec => 0 < rec_gap rec) recs.
Proof.
  induction items as [|[i [label gap]] rest IH]; intros Hitems acc Hacc.
  - exists acc. by split.
  - destruct (Hitems i label gap) as [[c Hc] [t Ht]]; [by left|].
    assert (Hrest : forall i' label' gap', (i', (label', gap')) ∈ rest ->
              is_Some (current !! i') /\ is_Some (target !! i')).
    { intros i' label' gap' Hin. apply (Hitems i' label' gap'). by right. }
    assert (Hstep : exists acc',
              recommend current target acc (i, (label, gap)) = Some acc' /\
              Forall (fun rec => 0 < rec_gap rec) acc').
    { unfold recommend. cbv beta iota. rewrite Hc, Ht.
      cbn [mbind option_bind]. case_bool_decide as Hgap.
      - eexists. split; [reflexivity|].
        apply Forall_app. split; [done|]. constructor; [|constructor].
        simpl. lra.
      - by exists acc. }
    destruct Hstep as (acc' & Hstep & Hacc').
    cbn [for_each]. rewrite Hstep. cbn [mbind option_bind]. by apply IH.
Qed.

(** X28.  For a plan whose solve succeeded, [analyze_inefficiency]
    returns: the EFFICIENT dict when the plan's flag is true; otherwise
    the INEFFICIENT dict, with the plan's efficiency [e], the percentage
    [(1 - e) * 100], the names of its peers, recommendations for outputs
    with a positive gap only, and [(phi - 1) * 100] in the message. *)
Theorem analyze_inefficiency_solved
    (linprog : lp_problem -> option lp_result) (argsort : list R -> list nat)
    (format_1f : R -> string) (plan_name : string)
    (result : dea_analysis) (idx : nat) (individual : dea_result) (e : R) :
  run_dea_analysis linprog argsort "output" = Some result ->
  list_index plan_name get_dmu_names = Some idx ->
  da_results (an_all result) !! idx = Some individual ->
  dr_efficiency individual = Some e ->
  (dr_is_efficient individual = Some true ->
   analyze_inefficiency linprog argsort format_1f plan_name
   = Some (EfficientPlan plan_name "EFFICIENT"
             (plan_name +:+
              " is on the efficient frontier. No improvements needed."))) /\
  (dr_is_efficient individual = Some false ->
   exists peers peer_names recommendations phi,
     dr_peers individual = Some peers /\
     mapM (fun p : nat => get_dmu_names !! p) peers = Some peer_names /\
     dr_scale individual = ("phi"%string, Some phi) /\
     Forall (fun rec => 0 < rec_gap rec) recommendations /\
     analyze_inefficiency linprog argsort format_1f plan_name
     = Some (InefficientPlan plan_name "INEFFICIENT" e ((1 - e) * 100)
               peer_names recommendations
               (plan_name +:+ " can improve outputs by "
                +:+ format_1f ((phi - 1) * 100)
                +:+ "% to reach the frontier."))).
Proof.
  intros Hrun Hidx Hind He.
  pose proof (list_index_spec _ _ _ Hidx) as Hname.
  assert (Hknown : bool_decide (plan_name ∉ get_dmu_names) = false).
  { apply bool_decide_eq_false_2. intros Hnot. apply Hnot.
    by eapply list_elem_of_lookup_2. }
  unfold analyze_inefficiency. rewrite Hrun. cbn [mbind option_bind].
  rewrite Hknown, Hidx. cbn [mbind option_bind]. rewrite Hind.
  cbn [mbind option_bind].
  unfold run_dea_analysis in Hrun. cbv zeta in Hrun.
  apply bind_Some in Hrun as (agg & Hagg & Hrun). injection Hrun as <-.
  cbn [an_all an_outputs] in *.
  split.
  - intros ->. reflexivity.
  - intros Hflag. rewrite Hflag. cbn [truthy default].
    destruct (dea_results_lookup _ _ _ _ _ _ _ _ _ Hagg Hind) as [Hi Hsolve].
    destruct (dea_efficiency_peers _ _ _ _ _ _ _ Hsolve He)
      as (lambdas & Hll & Hpeers & _).
    destruct (dea_efficiency_all_stages _ _ _ _ _ _ _ Hagg)
      as (_ & _ & _ & _ & Hloop & _).
    change (dmu_names_used (nrows get_input_matrix) (Some get_dmu_names))
      with get_dmu_names in Hloop.
    destruct (improvement_loop_lookup get_input_matrix get_output_matrix
                get_dmu_names "output" (da_results agg)
                (seq 0 (nrows get_input_matrix)))
      with (targets := (∅ : gmap string improvement))
           (targets' := da_improvement_targets agg)
           (i := idx) (r := individual) (name := plan_name)
      as [[Hno _]|(_ & phi & current & Hphi & Hcurrent & Hput)]; try done.
    { apply NoDup_seq. }
    { intros a b nm _ _ Ha Hb.
      by eapply (NoDup_lookup _ _ _ _ get_dmu_names_NoDup). }
    { apply elem_of_seq. lia. }
    { rewrite Hflag, He in Hno.
      rewrite (bool_decide_eq_true_2 (is_Some (Some e))) in Hno
        by (by eexists).
      done. }
    rewrite bool_decide_eq_true_2 in Hcurrent by done.
    unfold improvement_entry in Hput.
    rewrite bool_decide_eq_true_2 in Hput by done.
    rewrite Hput, Hpeers. cbn [mbind option_bind].
    destruct (mapM_is_Some_2 (fun p : nat => get_dmu_names !! p)
                (positions_where (fun l => bool_decide (l > 1e-6)) lambdas))
      as [peer_names Hpn].
    { apply Forall_forall. intros p Hp.
      apply positions_where_spec in Hp as (l & Hl & _).
      apply lookup_lt_Some in Hl. apply lookup_lt_is_Some_2.
      rewrite Hll in Hl. exact Hl. }
    rewrite Hpn, Hcurrent. cbn [mbind option_bind].
    rewrite np_binop_same_length by (by rewrite length_fmap).
    cbn [mbind option_bind].
    destruct (recommend_loop current ((fun y => y * phi) <$> current)
                (imap (fun i p => (i, p))
                   (zip OUTPUT_LABELS
                      (zip_with Rminus ((fun y => y * phi) <$> current)
                         current)))) with (acc := @nil recommendation)
      as (recs & Hrecs & Hpos).
    { intros i label gap Hin.
      apply elem_of_lookup_imap_1 in Hin as (i' & [label' gap'] & Heq & Hzip).
      injection Heq as -> -> ->.
      apply lookup_zip_with_Some in Hzip as (l & g & _ & _ & Hg).
      apply lookup_lt_Some in Hg.
      rewrite length_zip_with, length_fmap in Hg.
      split; apply lookup_lt_is_Some_2; rewrite ?length_fmap; lia. }
    { constructor. }
    rewrite Hrecs. cbn [mbind option_bind]. rewrite He.
    cbn [mbind option_bind get_improvement_percent].
    eexists _, peer_names, recs, phi.
    split; [reflexivity|]. split; [exact Hpn|]. split; [exact Hphi|].
    split; [exact Hpos|]. reflexivity.
Qed.

Lemma dea_efficiency_success_solved linprog (inputs outputs : matrix)
    dmu_index orientation r :
  dea_efficiency linprog inputs outputs dmu_index orientation = Some r ->
  (forall lp res, linprog lp = Some res -> lp_success res = true) ->
  is_Some (dr_efficiency r).
Proof.
  unfold dea_efficiency. intros Hrun Hok.
  apply bind_Some in Hrun as (k & _ & Hrun).
  apply bind_Some in Hrun as (x_k & _ & Hrun).
  apply bind_Some in Hrun as (k' & _ & Hrun).
  apply bind_Some in Hrun as (y_k & _ & Hrun).
  case_bool_decide as Ho.
  - apply bind_Some in Hrun as (lp & _ & Hrun).
    apply bind_Some in Hrun as (res & Hres & Hrun).
    rewrite (Hok lp res Hres) in Hrun.
    apply bind_Some in Hrun as (phi & _ & Hrun).
    apply bind_Some in Hrun as (used & _ & Hrun).
    apply bind_Some in Hrun as (slack_inputs & _ & Hrun).
    apply bind_Some in Hrun as (produced & _ & Hrun).
    apply bind_Some in Hrun as (slack_outputs & _ & Hrun).
    injection Hrun as <-. by eexists.
  - apply bind_Some in Hrun as (lp & _ & Hrun).
    apply bind_Some in Hrun as (res & Hres & Hrun).
    rewrite (Hok lp res Hres) in Hrun.
    apply bind_Some in Hrun as (theta & _ & Hrun).
    apply bind_Some in Hrun as (used & _ & Hrun).
    apply bind_Some in Hrun as (slack_inputs & _ & Hrun).
    apply bind_Some in Hrun as (produced & _ & Hrun).
    apply bind_Some in Hrun as (slack_outputs & _ & Hrun).
    injection Hrun as <-. by eexists.
Qed.

Lemma plans_first_factor_two :
  exists result individual,
    run_dea_analysis linprog_factor_two argsort_reverse_ties "output"
      = Some result /\
    da_results (an_all result) !! 0%nat = Some individual /\
    dr_efficiency individual = Some (1.0 / 2) /\
    dr_is_efficient individual = Some false.
Proof.
  destruct (plans_run linprog_factor_two "output") as [result Hrun].
  { intros lp. eexists. split; [reflexivity|]. done. }
  exists result.
  pose proof Hrun as Hrun'. unfold run_dea_analysis in Hrun'.
  cbv zeta in Hrun'.
  apply bind_Some in Hrun' as (agg & Hagg & Hrun'). injection Hrun' as <-.
  cbn [an_all].
  destruct (dea_efficiency_all_stages _ _ _ _ _ _ _ Hagg) as (Hresults & _).
  apply mapM_Some in Hresults.
  destruct (lookup_lt_is_Some_2 (da_results agg) 0) as [r Hr].
  { rewrite <- (Forall2_length _ _ _ Hresults). simpl. lia. }
  exists r. split; [done|]. split; [done|].
  destruct (dea_results_lookup _ _ _ _ _ _ _ _ _ Hagg Hr) as [_ Hsolve].
  destruct (dea_efficiency_success_solved _ _ _ _ _ _ Hsolve) as [e He].
  { by intros lp res [= <-]. }
  destruct (dea_efficiency_solved_run linprog_factor_two get_input_matrix
              get_output_matrix 0 "output" r e)
    as (x_k & y_k & lp & res & s & used & produced & _ & _ & _ & Hres & _
        & Hsol & _ & _ & Hval); try done; try (simpl; lia).
  injection Hres as <-. simpl in Hsol. injection Hsol as <-.
  rewrite bool_decide_eq_true_2 in Hval by done. destruct Hval as (-> & _).
  split; [done|].
  destruct (dea_efficiency_peers _ _ _ _ _ _ _ Hsolve He) as (_ & _ & _ & ->).
  f_equal. apply not_true_is_false. intros Hclose.
  apply np_isclose_one in Hclose. rewrite Rabs_left in Hclose by lra. lra.
Qed.

Lemma analyze_inefficiency_solved_witness :
  exists peer_names recommendations phi,
    analyze_inefficiency linprog_factor_two argsort_reverse_ties
      (fun _ => "100.0"%string) "Light"
    = Some (InefficientPlan "Light" "INEFFICIENT" (1.0 / 2)
              ((1 - 1.0 / 2) * 100) peer_names recommendations
              ("Light" +:+ " can improve outputs by "
               +:+ (fun _ : R => "100.0"%string) ((phi - 1) * 100)
               +:+ "% to reach the frontier.")).
Proof.
  destruct plans_first_factor_two
    as (result & individual & Hrun & Hind & He & Hflag).
  destruct (analyze_inefficiency_solved linprog_factor_two
              argsort_reverse_ties (fun _ => "100.0"%string) "Light" result 0
              individual (1.0 / 2) Hrun eq_refl Hind He) as [_ Hinefficient].
  destruct (Hinefficient Hflag)
    as (peers & peer_names & recs & phi & _ & _ & _ & _ & Hresult).
  exists peer_names, recs, phi. exact Hresult.
Defined.
